(** * nofx assistant: the agent loop, the session store, the context
    synthesizer and the monitor, embedded from the Go sources
    (assistant/agent.go, assistant/session.go, assistant/tool.go and the
    context-builder, monitor and smart-agent files of the same package). *)

From Stdlib Require Import ZArith Ascii String List Bool Lia Sorted.
From Stdlib Require Import PrimFloat FloatOps SpecFloat FloatAxioms Uint63.
From stdpp Require Import base option list gmap strings pretty.

Local Open Scope Z_scope.
Local Open Scope string_scope.
Local Open Scope list_scope.

(** ** Go values used by the package *)

(** [time.Time] and [time.Duration] as nanosecond counts. *)
Definition Time := Z.
Definition Duration := Z.
Definition Second : Duration := 1000000000.
Definition Minute : Duration := 60 * Second.

(** [json.RawMessage] is a byte string. *)
Definition RawMessage := string.

(** A non-nil [interface{}]; the nil interface is [None] in an
    [option Value]. Only the dynamic types the package inspects are kept
    apart, every other dynamic type is [VOpaque]. *)
Inductive Value : Type :=
| VString (s : string)
| VFloat64 (f : float)
| VInt (n : Z)
| VBool (b : bool)
| VOpaque (repr : string).

(** ** The [strings] functions the package calls, on byte strings *)

(** [strings.Index(s, sub)]: byte offset of the first occurrence, or -1. *)
Fixpoint index_from (sub s : string) (i : Z) : Z :=
  if String.prefix sub s then i
  else match s with
       | EmptyString => -1
       | String _ s' => index_from sub s' (i + 1)
       end.

Definition strings_Index (s sub : string) : Z := index_from sub s 0.

(** [strings.Contains(s, sub)]. *)
Definition strings_Contains (s sub : string) : bool :=
  bool_decide (0 <= strings_Index s sub).

(** [strings.LastIndex(s, sub)]: byte offset of the last occurrence, or -1. *)
Fixpoint last_index_from (sub s : string) (i : Z) : Z :=
  match s with
  | EmptyString => if String.prefix sub s then i else -1
  | String _ s' =>
      let j := last_index_from sub s' (i + 1) in
      if bool_decide (0 <= j) then j
      else if String.prefix sub s then i else -1
  end.

Definition strings_LastIndex (s sub : string) : Z := last_index_from sub s 0.

(** The first [n] bytes of a string, and the rest. *)
Fixpoint str_take (n : nat) (s : string) : string :=
  match n, s with
  | S k, String c s' => String c (str_take k s')
  | _, _ => EmptyString
  end.

Fixpoint str_drop (n : nat) (s : string) : string :=
  match n, s with
  | S k, String _ s' => str_drop k s'
  | _, _ => s
  end.

(** The slice expressions [s[:hi]], [s[lo:]] and [s[lo:hi]] on strings,
    for 0 <= lo <= hi <= len(s) (outside of which Go panics;
    [parseResponse] stays inside, see [brace_block_in_range]). *)
Definition str_to (s : string) (hi : Z) : string := str_take (Z.to_nat hi) s.

Definition str_from (s : string) (lo : Z) : string := str_drop (Z.to_nat lo) s.

Definition str_range (s : string) (lo hi : Z) : string :=
  str_take (Z.to_nat hi - Z.to_nat lo) (str_drop (Z.to_nat lo) s).

(** [strings.Join]. *)
Fixpoint strings_Join (parts : list string) (sep : string) : string :=
  match parts with
  | [] => ""
  | [p] => p
  | p :: rest => p +:+ sep +:+ strings_Join rest sep
  end.

Definition byte_of (c : ascii) : N := N_of_ascii c.

(** The six ASCII bytes of Unicode's White_Space. *)
Definition ascii_space (c : ascii) : bool :=
  let n := byte_of c in
  bool_decide (n = 9 ∨ n = 10 ∨ n = 11 ∨ n = 12 ∨ n = 13 ∨ n = 32)%N.

(** The UTF-8 encodings of the other White_Space runes: U+0085, U+00A0
    (two bytes), U+1680, U+2000..U+200A, U+2028, U+2029, U+202F, U+205F,
    U+3000 (three bytes). *)
Definition space2 (a b : ascii) : bool :=
  bool_decide (byte_of a = 194 ∧ (byte_of b = 133 ∨ byte_of b = 160))%N.

Definition space3 (a b c : ascii) : bool :=
  let '(x, y, z) := (byte_of a, byte_of b, byte_of c) in
  bool_decide ((x = 225 ∧ y = 154 ∧ z = 128)
             ∨ (x = 226 ∧ y = 128 ∧ (128 <= z <= 138 ∨ z = 168 ∨ z = 169 ∨ z = 175))
             ∨ (x = 226 ∧ y = 129 ∧ z = 159)
             ∨ (x = 227 ∧ y = 128 ∧ z = 128))%N.

(** Drop leading white-space runes. *)
Fixpoint trim_left (s : list ascii) : list ascii :=
  match s with
  | a :: t1 =>
      if ascii_space a then trim_left t1
      else match t1 with
           | b :: t2 =>
               if space2 a b then trim_left t2
               else match t2 with
                    | c :: t3 => if space3 a b c then trim_left t3 else s
                    | [] => s
                    end
           | [] => s
           end
  | [] => []
  end.

(** The same on the reversed string, where the bytes of a rune come
    last-first. *)
Fixpoint trim_left_rev (s : list ascii) : list ascii :=
  match s with
  | c :: t1 =>
      if ascii_space c then trim_left_rev t1
      else match t1 with
           | b :: t2 =>
               if space2 b c then trim_left_rev t2
               else match t2 with
                    | a :: t3 => if space3 a b c then trim_left_rev t3 else s
                    | [] => s
                    end
           | [] => s
           end
  | [] => []
  end.

(** [strings.TrimSpace]: leading and trailing white space removed. *)
Definition strings_TrimSpace (s : string) : string :=
  string_of_list_ascii
    (rev (trim_left_rev (rev (trim_left (list_ascii_of_string s))))).

Definition is_ascii_string (s : string) : bool :=
  forallb (fun c => bool_decide (byte_of c < 128)%N) (list_ascii_of_string s).

Definition lower_byte (c : ascii) : ascii :=
  let n := byte_of c in
  if bool_decide (65 <= n <= 90)%N then ascii_of_N (n + 32) else c.

(** ** session.go: messages *)

Record Message := mkMessage {
  Role : string;
  Content : string;
  Timestamp : Time;
  Message_ToolName : string;
  Message_ToolResult : option Value
}.

(** The zero value of [Message], as [make] fills new arrays with. *)
Definition zeroMessage : Message := mkMessage "" "" 0 "" None.

(** ** Go slices over a heap of backing arrays

    A slice value is a window (offset, length, capacity) on a heap
    array; two slices on one array alias each other. *)

Abbreviation loc := nat (only parsing).

Record slice := mkSlice {
  s_ptr : loc;
  s_off : nat;
  s_len : nat;
  s_cap : nat
}.

Abbreviation heap := (gmap nat (list Message)) (only parsing).

Definition array_at (h : heap) (l : loc) : list Message :=
  match h !! l with Some a => a | None => [] end.

(** The elements seen through a slice. *)
Definition slice_view (h : heap) (s : slice) : list Message :=
  take (s_len s) (drop (s_off s) (array_at h (s_ptr s))).

Definition fresh_loc (h : heap) : loc := fresh (dom h).

(** [make([]Message, n)]. *)
Definition go_make (h : heap) (n : nat) : heap * slice :=
  let l := fresh_loc h in
  (<[l := replicate n zeroMessage]> h, mkSlice l 0 n n).

(** Overwrite the cells of array [l] from index [i] on with [xs]. *)
Definition array_write (h : heap) (l : loc) (i : nat) (xs : list Message) : heap :=
  let a := array_at h l in
  <[l := take i a ++ xs ++ drop (i + length xs) a]> h.

(** [copy(dst, src)]: min(len dst, len src) elements. *)
Definition go_copy (h : heap) (dst src : slice) : heap :=
  let n := Nat.min (s_len dst) (s_len src) in
  array_write h (s_ptr dst) (s_off dst) (take n (slice_view h src)).

(** [dst[i] = m] for an index within the length; out of range panics. *)
Definition go_store (h : heap) (s : slice) (i : nat) (m : Message) : option heap :=
  if decide (i < s_len s)%nat
  then Some (array_write h (s_ptr s) (s_off s + i) [m])
  else None.

(** [s[lo:]]: panics unless 0 <= lo <= len(s). *)
Definition go_slice_from (s : slice) (lo : Z) : option slice :=
  if decide (0 <= lo <= Z.of_nat (s_len s))
  then Some (mkSlice (s_ptr s) (s_off s + Z.to_nat lo)
                     (s_len s - Z.to_nat lo) (s_cap s - Z.to_nat lo))
  else None.

(** ** agent.go: tool calls and results *)

Record ToolCall := mkToolCall {
  ToolCall_Name : string;
  ToolCall_Arguments : RawMessage
}.

Record ToolResult := mkToolResult {
  ToolResult_Name : string;
  ToolResult_Result : option Value;
  ToolResult_Error : string
}.

Record AgentResponse := mkAgentResponse {
  Text : string;
  SessionID : string
}.

Record AgentConfig := mkAgentConfig {
  MaxToolCalls : Z;
  MaxHistoryMessages : Z;
  AITimeout : Duration;
  Model : string
}.

Definition DefaultAgentConfig : AgentConfig :=
  mkAgentConfig 10 50 (120 * Second) "deepseek-chat".

(** What the Go runtime and the standard library decide and this package
    takes as given. *)
Class GoRuntime := {
  (** capacity the runtime picks when [append] outgrows capacity [c]
      (never used below the needed length, see [go_append]) *)
  growcap : nat -> nat;
  (** [json.Unmarshal] into the anonymous struct of [parseResponse]:
      the (name, arguments) pairs of its [tool_calls] field, or [None]
      when it returns an error *)
  json_Unmarshal : string -> option (list (string * RawMessage));
  (** [json.Marshal] of a tool result, as a string (its error is dropped
      by the caller) *)
  json_Marshal : option Value -> string;
  (** [json.Unmarshal] into the [params] struct of a trading tool: the
      error's text, or the [trader_id] it read *)
  json_Unmarshal_params : RawMessage -> string + string;
  (** a [map[string]interface{}], and a slice of them, held in an
      [interface{}]: dynamic types the package does not inspect, so the
      text a [VOpaque] keeps of them *)
  repr_map : gmap string (option Value) -> string;
  repr_maps : list (gmap string (option Value)) -> string;
  (** [strings.Title] *)
  strings_Title : string -> string;
  (** [strings.ToLower] on a string that is not pure ASCII *)
  unicode_ToLower : string -> string;
  (** [Time.Format] with the layout 2006-01-02 15:04:05 *)
  time_Format : Time -> string;
  (** the order in which [range] visits the keys of a map *)
  range_order : list string -> list string;
  range_order_perm : forall ks, range_order ks ≡ₚ ks
}.

(** The world outside the package: whatever the collaborators (the AI
    client, the tool handlers, the trader manager, the clock) read and
    change. *)
Class Environment := {
  World : Type;
  (** [time.Now()] *)
  time_Now : World -> World * Time
}.

(** ** [fmt] verbs the package uses *)

(** [%d]. *)
Definition fmt_d (n : Z) : string := pretty n.

Fixpoint zeros (n : nat) : string :=
  match n with O => "" | S k => "0" +:+ zeros k end.

(** The decimal digits of [q >= 0] scaled by 10^-prec. *)
Definition fixed_digits (prec : nat) (q : Z) : string :=
  let ds := pretty q in
  let ds := zeros (S prec - String.length ds) +:+ ds in
  let n := (String.length ds - prec)%nat in
  String.substring 0 n ds
    +:+ (if decide (prec = 0%nat) then "" else "." +:+ String.substring n prec ds).

(** [m * 2^e] scaled by 10^prec and rounded to the nearest integer,
    ties to even, as [strconv.FormatFloat] rounds in format [f]. *)
Definition round_scaled (prec : nat) (m : positive) (e : Z) : Z :=
  let n := Z.pos m * 10 ^ Z.of_nat prec in
  if decide (0 <= e) then n * 2 ^ e
  else
    let d := 2 ^ (- e) in
    let q := n / d in
    let r := n mod d in
    if decide (2 * r > d ∨ (2 * r = d ∧ Z.odd q = true)) then q + 1 else q.

(** [%.<prec>f] of a float64. *)
Definition fmt_f (prec : nat) (x : float) : string :=
  match Prim2SF x with
  | S754_nan => "NaN"
  | S754_infinity false => "+Inf"
  | S754_infinity true => "-Inf"
  | S754_zero sg => (if sg then "-" else "") +:+ fixed_digits prec 0
  | S754_finite sg m e =>
      (if sg then "-" else "") +:+ fixed_digits prec (round_scaled prec m e)
  end.

(** [float64(n)] for an [int]. The least [int], -2^63, is the one whose
    negation is not a 63-bit integer; it is a power of two, so it
    converts exactly. *)
Definition float64_of_int (n : Z) : float :=
  if decide (0 <= n) then PrimFloat.of_uint63 (Uint63.of_Z n)
  else if decide (n = - 2 ^ 63) then (-0x1p63)%float
  else PrimFloat.opp (PrimFloat.of_uint63 (Uint63.of_Z (- n))).

(** ** The context builder's data *)

Record PositionSummary := mkPositionSummary {
  Symbol : string;
  Side : string;
  Size : float;
  EntryPrice : float;
  MarkPrice : float;
  UnrealizedPnL : float;
  PnLPercent : float;
  Leverage : Z;
  LiquidationPrice : float;
  TraderID : string;
  TraderName : string
}.

Record TraderSummary := mkTraderSummary {
  TraderSummary_ID : string;
  TraderSummary_Name : string;
  Exchange : string;
  IsRunning : bool;
  Equity : float;
  PositionCount : Z;
  TodayPnL : float
}.

Record Alert := mkAlert {
  Level : string;
  Type_ : string;
  Message_ : string
}.

Record TradingContext := mkTradingContext {
  TotalEquity : float;
  AvailableBalance : float;
  ctx_UnrealizedPnL : float;
  Positions : list PositionSummary;
  MarketPrices : gmap string float;
  PriceChanges24h : gmap string float;
  ActiveTraders : list TraderSummary;
  Alerts : list Alert;
  ctx_UpdatedAt : Time
}.

Section WithRuntime.
Context `{GoRuntime}.

(** [append(s, m)]: in place while capacity lasts, else into a new array. *)
Definition go_append (h : heap) (s : slice) (m : Message) : heap * slice :=
  if decide (s_len s < s_cap s)%nat
  then (array_write h (s_ptr s) (s_off s + s_len s) [m],
        mkSlice (s_ptr s) (s_off s) (S (s_len s)) (s_cap s))
  else
    let c := Nat.max (S (s_len s)) (growcap (s_cap s)) in
    let l := fresh_loc h in
    (<[l := slice_view h s ++ m :: replicate (c - S (s_len s)) zeroMessage]> h,
     mkSlice l 0 (S (s_len s)) c).

(** ** session.go: sessions *)

Record Session := mkSession {
  ID : string;
  CreatedAt : Time;
  UpdatedAt : Time;
  UserID : string;
  UserName : string;
  Platform : string;
  messages : slice;
  maxMessages : Z;
  Metadata : gmap string (option Value)
}.

Definition set_messages (ms : slice) (s : Session) : Session :=
  mkSession (ID s) (CreatedAt s) (UpdatedAt s) (UserID s) (UserName s)
            (Platform s) ms (maxMessages s) (Metadata s).

Definition set_UpdatedAt (t : Time) (s : Session) : Session :=
  mkSession (ID s) (CreatedAt s) t (UserID s) (UserName s)
            (Platform s) (messages s) (maxMessages s) (Metadata s).

(** [NewSession(id, maxMessages)]; [t1], [t2] are what the two
    [time.Now()] calls return. *)
Definition NewSession (h : heap) (id : string) (maxMsgs : Z) (t1 t2 : Time)
  : heap * Session :=
  let '(h1, ms) := go_make h 0 in
  (h1, mkSession id t1 t2 "" "" "" ms maxMsgs ∅).

(** [Session.AddMessage]; [None] is the run-time panic of the slice
    expression. [now] is what [time.Now()] returns. *)
Definition Session_AddMessage (h : heap) (s : Session) (msg : Message) (now : Time)
  : option (heap * Session) :=
  let '(h1, ms) := go_append h (messages s) msg in
  let s1 := set_UpdatedAt now (set_messages ms s) in
  if decide (Z.of_nat (s_len ms) > maxMessages s)
  then
    ms' ← go_slice_from ms (Z.of_nat (s_len ms) - maxMessages s);
    Some (h1, set_messages ms' s1)
  else Some (h1, s1).

(** [Session.GetMessages]: a new array, filled by [copy]. *)
Definition Session_GetMessages (h : heap) (s : Session) : heap * slice :=
  let '(h1, result) := go_make h (s_len (messages s)) in
  (go_copy h1 result (messages s), result).

(** [Session.GetRecentMessages(n)]. *)
Definition Session_GetRecentMessages (h : heap) (s : Session) (n : Z)
  : option (heap * slice) :=
  if decide (n >= Z.of_nat (s_len (messages s)))
  then Some (Session_GetMessages h s)
  else
    if decide (0 <= n)
    then
      let '(h1, result) := go_make h (Z.to_nat n) in
      src ← go_slice_from (messages s) (Z.of_nat (s_len (messages s)) - n);
      Some (go_copy h1 result src, result)
    else None.

(** [Session.Clear]. *)
Definition Session_Clear (h : heap) (s : Session) (now : Time) : heap * Session :=
  let '(h1, ms) := go_make h 0 in
  (h1, set_UpdatedAt now (set_messages ms s)).

Definition Session_SetUserInfo (s : Session) (userID userName platform : string)
  : Session :=
  mkSession (ID s) (CreatedAt s) (UpdatedAt s) userID userName platform
            (messages s) (maxMessages s) (Metadata s).

Definition Session_SetMetadata (s : Session) (key : string) (v : option Value)
  : Session :=
  mkSession (ID s) (CreatedAt s) (UpdatedAt s) (UserID s) (UserName s)
            (Platform s) (messages s) (maxMessages s) (<[key := v]> (Metadata s)).

Definition Session_GetMetadata (s : Session) (key : string)
  : option Value * bool :=
  match Metadata s !! key with
  | Some v => (v, true)
  | None => (None, false)
  end.

(** [n] sequential [AddMessage] calls, each with its own clock reading. *)
Fixpoint Session_AddMessages (h : heap) (s : Session) (msgs : list (Message * Time))
  : option (heap * Session) :=
  match msgs with
  | [] => Some (h, s)
  | (m, t) :: rest =>
      '(h1, s1) ← Session_AddMessage h s m t;
      Session_AddMessages h1 s1 rest
  end.

End WithRuntime.

(** ** Events: what a run does that is visible from outside *)

Inductive LockId :=
| toolsLock
| sessionsLock
| Session_mu (id : string)
| Monitor_mu
| Monitor_callbackMu.

Inductive LogLevel := LInfo | LWarn | LError.

(** What a tool handler does outside the package while it runs: a call
    on the trader manager, on a trader or on the store, a goroutine it
    starts, a line it logs. *)
Inductive Effect :=
| Call (what : string)
| Spawn (what : string)
| Logs (lvl : LogLevel) (msg : string).

Inductive Event :=
| ELock (l : LockId)
| EUnlock (l : LockId)
| ERLock (l : LockId)
| ERUnlock (l : LockId)
| ELog (lvl : LogLevel) (msg : string)
| EAICall (systemPrompt userPrompt : string)
| EToolExec (name : string) (args : RawMessage)
| EFetch (what : string)
| EGo (callback : nat) (a : Alert)
| EGoMonitorLoop
| EHandler (tool : string) (eff : Effect).

(** The double-quote character. *)
Definition dq : string := String (ascii_of_nat 34) EmptyString.

Section WithEnvironment.
Context `{GoRuntime} `{Environment}.

(** ** Collaborators *)

(** [context.Context]: only [Err()] is consulted. *)
Record GoContext := mkGoContext {
  ctx_Err : World -> option string
}.

(** tool.go: a [Tool]; [Execute] returns the pair (result, error). The
    handler is any function, so beside the world it leaves behind the
    model keeps what it did there, in order: see [Effect]. *)
Record Tool := mkTool {
  Tool_Name : string;
  Tool_Description : string;
  Tool_ParameterSchema : string;
  Tool_Execute :
    GoContext -> RawMessage -> World ->
    World * list Effect * (option Value * option string)
}.

(** [NewTool]. *)
Definition NewTool (name description schema : string)
    (fn : GoContext -> RawMessage -> World ->
          World * list Effect * (option Value * option string))
  : Tool := mkTool name description schema fn.

(** [mcp.AIClient.CallWithMessages]: returns the pair (text, error). *)
Definition AIClient : Type :=
  string -> string -> World -> World * (string * option string).

(** A running trader of the trader manager. *)
Record Trader := mkTrader {
  Trader_GetName : string;
  Trader_GetExchange : string;
  Trader_GetAccountInfo : World -> World * (gmap string (option Value) * option string);
  Trader_GetPositions :
    World -> World * (list (gmap string (option Value)) * option string);
  Trader_GetStatus : World -> World * gmap string (option Value)
}.

(** [store.Store]: [Trader().UpdateStatus(userID, id, running)]. *)
Record Store := mkStore {
  Store_Trader_UpdateStatus : string -> string -> bool -> World -> World * option string
}.

(** [manager.TraderManager]: [GetAllTraders] in the order [range] visits
    the returned map; [GetTrader] gives the error, or the trader (it
    returns no trader only with an error). *)
Record TraderManager := mkTraderManager {
  GetAllTraders : World -> World * list (string * Trader);
  GetTrader : string -> World -> World * (string + Trader);
  RemoveTrader : string -> World -> World;
  LoadUserTradersFromStore : Store -> string -> World -> World * option string
}.

(** ** tools.go: the trading tools

    The handlers are closures over the trader manager and the store.
    Each one is embedded with the calls it makes on them, the goroutine
    it starts and the line it logs, in the order it makes them. *)

Record TradingTools := mkTradingTools {
  TradingTools_traderManager : TraderManager;
  TradingTools_store : Store
}.

Definition trader_id_schema (what : string) : string :=
  "{" +:+ dq +:+ "trader_id" +:+ dq +:+ ": " +:+ dq
      +:+ "string (required) - The trader ID to " +:+ what +:+ dq +:+ "}".

(** [GetBalanceTool]. *)
Definition GetBalanceTool (t : TradingTools) : Tool :=
  NewTool "get_balance"
    "Get account balance for a trader. Returns available balance, total equity, and margin info."
    (trader_id_schema "query")
    (fun ctx args w =>
       match json_Unmarshal_params args with
       | inl err => (w, [], (None, Some ("invalid arguments: " +:+ err)))
       | inr traderID =>
           let '(w1, found) := GetTrader (TradingTools_traderManager t) traderID w in
           match found with
           | inl err =>
               (w1, [Call "traderManager.GetTrader"],
                (None, Some ("trader not found: " +:+ err)))
           | inr trader =>
               let '(w2, (balance, err)) := Trader_GetAccountInfo trader w1 in
               (w2, [Call "traderManager.GetTrader"; Call "trader.GetAccountInfo"],
                match err with
                | Some e => (None, Some ("failed to get balance: " +:+ e))
                | None => (Some (VOpaque (repr_map balance)), None)
                end)
           end
       end).

(** [GetPositionsTool]. *)
Definition GetPositionsTool (t : TradingTools) : Tool :=
  NewTool "get_positions"
    "Get all open positions for a trader. Returns symbol, side, size, entry price, unrealized P&L."
    (trader_id_schema "query")
    (fun ctx args w =>
       match json_Unmarshal_params args with
       | inl err => (w, [], (None, Some ("invalid arguments: " +:+ err)))
       | inr traderID =>
           let '(w1, found) := GetTrader (TradingTools_traderManager t) traderID w in
           match found with
           | inl err =>
               (w1, [Call "traderManager.GetTrader"],
                (None, Some ("trader not found: " +:+ err)))
           | inr trader =>
               let '(w2, (positions, err)) := Trader_GetPositions trader w1 in
               (w2, [Call "traderManager.GetTrader"; Call "trader.GetPositions"],
                match err with
                | Some e => (None, Some ("failed to get positions: " +:+ e))
                | None => (Some (VOpaque (repr_maps positions)), None)
                end)
           end
       end).

(** [StartTraderTool]: a trader that is loaded is asked for its status
    and, unless it is running, removed; the traders are loaded again,
    the trader is started in a goroutine of its own and the store is
    told; a store that fails is logged, not reported. *)
Definition StartTraderTool (t : TradingTools) : Tool :=
  NewTool "start_trader"
    "Start an AI trader to begin automated trading. The trader will execute trades based on its configured strategy."
    (trader_id_schema "start")
    (fun ctx args w =>
       match json_Unmarshal_params args with
       | inl err => (w, [], (None, Some ("invalid arguments: " +:+ err)))
       | inr traderID =>
           let tm := TradingTools_traderManager t in
           let '(w1, existing) := GetTrader tm traderID w in
           let '(w2, effs, isRunning) :=
             match existing with
             | inl _ => (w1, [Call "traderManager.GetTrader"], false)
             | inr existingTrader =>
                 let '(w', status) := Trader_GetStatus existingTrader w1 in
                 match status !! "is_running" with
                 | Some (Some (VBool true)) =>
                     (w', [Call "traderManager.GetTrader"; Call "trader.GetStatus"], true)
                 | _ =>
                     (RemoveTrader tm traderID w',
                      [Call "traderManager.GetTrader"; Call "trader.GetStatus";
                       Call "traderManager.RemoveTrader"], false)
                 end
             end in
           if isRunning then (w2, effs, (None, Some "trader is already running"))
           else
             let '(w3, loadErr) :=
               LoadUserTradersFromStore tm (TradingTools_store t) "default" w2 in
             let effs := effs ++ [Call "traderManager.LoadUserTradersFromStore"] in
             match loadErr with
             | Some e => (w3, effs, (None, Some ("failed to load trader: " +:+ e)))
             | None =>
                 let '(w4, loaded) := GetTrader tm traderID w3 in
                 let effs := effs ++ [Call "traderManager.GetTrader"] in
                 match loaded with
                 | inl e =>
                     (w4, effs, (None, Some ("failed to get trader after load: " +:+ e)))
                 | inr trader =>
                     let '(w5, storeErr) :=
                       Store_Trader_UpdateStatus (TradingTools_store t)
                         "default" traderID true w4 in
                     (w5,
                      effs ++ [Spawn "trader.Run"; Call "store.Trader.UpdateStatus"]
                           ++ match storeErr with
                              | Some e =>
                                  [Logs LWarn
                                     ("Failed to update trader status in DB: " +:+ e)]
                              | None => []
                              end,
                      (Some (VOpaque (repr_map
                         {[ "success" := Some (VBool true);
                            "trader_id" := Some (VString traderID);
                            "message" := Some (VString "Trader started successfully") ]})),
                       None))
                 end
             end
       end).

(** ** agent.go: the agent *)

Record Agent := mkAgent {
  aiClient : AIClient;
  tools : gmap string Tool;
  sessions : gmap string Session;
  config : AgentConfig;
  systemPrompt : string
}.

(** The monitor's fields; a callback is known by its position in
    [alertCallbacks]. *)
Record Monitor := mkMonitor {
  alertCallbacks : list nat;
  running : bool;
  interval : Duration;
  lastPositions : gmap string PositionSummary;
  lastAlerts : gmap string Time
}.

(** The state of the process: the world, the heap of message arrays,
    the smart agent's parts and the events so far (oldest first). *)
Record State := mkState {
  world : World;
  mem : heap;
  agent : Agent;
  autoInjectContext : bool;
  traderManager : TraderManager;
  monitor : Monitor;
  trace : list Event
}.

Definition set_world (w : World) (st : State) : State :=
  mkState w (mem st) (agent st) (autoInjectContext st) (traderManager st)
          (monitor st) (trace st).

Definition set_mem (h : heap) (st : State) : State :=
  mkState (world st) h (agent st) (autoInjectContext st) (traderManager st)
          (monitor st) (trace st).

Definition set_agent (a : Agent) (st : State) : State :=
  mkState (world st) (mem st) a (autoInjectContext st) (traderManager st)
          (monitor st) (trace st).

Definition set_monitor (m : Monitor) (st : State) : State :=
  mkState (world st) (mem st) (agent st) (autoInjectContext st) (traderManager st)
          m (trace st).

Definition set_trace (t : list Event) (st : State) : State :=
  mkState (world st) (mem st) (agent st) (autoInjectContext st) (traderManager st)
          (monitor st) t.

Definition set_tools (ts : gmap string Tool) (a : Agent) : Agent :=
  mkAgent (aiClient a) ts (sessions a) (config a) (systemPrompt a).

Definition set_sessions (ss : gmap string Session) (a : Agent) : Agent :=
  mkAgent (aiClient a) (tools a) ss (config a) (systemPrompt a).

Definition set_systemPrompt (p : string) (a : Agent) : Agent :=
  mkAgent (aiClient a) (tools a) (sessions a) (config a) p.

(** ** The monad of the embedding: state passing, [None] for a panic *)

Definition M (A : Type) : Type := State -> option (A * State).

Definition ret {A} (a : A) : M A := fun st => Some (a, st).

Definition bind {A B} (m : M A) (k : A -> M B) : M B :=
  fun st => match m st with
            | Some (a, st') => k a st'
            | None => None
            end.

#[global] Instance M_ret : MRet M := @ret.
#[global] Instance M_bind : MBind M := fun A B k m => bind m k.

Definition panic {A} : M A := fun _ => None.

Definition gets {A} (f : State -> A) : M A := fun st => Some (f st, st).

Definition modify (f : State -> State) : M unit := fun st => Some (tt, f st).

(** Record events, in order. *)
Definition emit_all (evs : list Event) : M unit :=
  fun st => Some (tt, set_trace (trace st ++ evs) st).

Definition emit (e : Event) : M unit := emit_all [e].

(** [time.Now()]. *)
Definition now : M Time :=
  fun st => let '(w, t) := time_Now (world st) in Some (t, set_world w st).

(** A call out to a collaborator. *)
Definition call_world {A} (f : World -> World * A) : M A :=
  fun st => let '(w, a) := f (world st) in Some (a, set_world w st).

(** A call of a tool's handler: what it did is recorded under the
    tool's name. *)
Definition call_handler {A} (name : string) (f : World -> World * list Effect * A)
  : M A :=
  fun st =>
    let '(w, effects, a) := f (world st) in
    Some (a, set_trace (trace st ++ (EHandler name <$> effects)) (set_world w st)).

(** [RegisterTool]. *)
Definition Agent_RegisterTool (tool : Tool) : M unit :=
  emit (ELock toolsLock);;
  modify (fun st => set_agent (set_tools (<[Tool_Name tool := tool]> (tools (agent st))) (agent st)) st);;
  emit (ELog LInfo ("🔧 Registered tool: " +:+ Tool_Name tool));;
  emit (EUnlock toolsLock).

(** The default system prompt (prompts file). *)
Definition DefaultTradingSystemPrompt : string :=
  "# NOFX Trading Assistant

You are an expert AI trading assistant powered by NOFX - an advanced AI-powered trading system.

## Your Capabilities

1. **Account Management**
   - Check balances across multiple exchanges
   - View current positions and P&L
   - Monitor portfolio performance

2. **Trading Operations**
   - Execute trades (open/close positions)
   - Manage stop-loss and take-profit orders
   - Adjust leverage and margin settings

3. **AI Traders Management**
   - Start/stop AI traders
   - Monitor AI trader performance
   - Configure trading strategies

4. **Strategy & Analysis**
   - Create and modify trading strategies
   - Initiate AI debate sessions for market analysis
   - Backtest strategies on historical data

5. **Market Intelligence**
   - Get real-time prices and market data
   - Analyze market conditions
   - Track open interest and funding rates

## Guidelines

1. **Safety First**: Always confirm with the user before executing trades or making significant changes
2. **Be Precise**: When dealing with numbers, be exact - trading involves real money
3. **Explain Reasoning**: Help users understand your analysis and recommendations
4. **Risk Awareness**: Always remind users about the risks involved in trading
5. **Proactive Monitoring**: Alert users to important position changes or market movements

## Response Style

- Be concise but thorough
- Use tables for data when appropriate
- Include relevant metrics (P&L, ROI, etc.)
- Provide actionable insights, not just data dumps
- Support both English and Chinese (respond in the user's language)

## Important Notes

- Never share API keys or sensitive credentials
- Always use proper position sizing based on user's risk tolerance
- Warn users about high-risk operations (high leverage, large positions)

Remember: You are a professional trading assistant. Users trust you with their trading operations. Be accurate, be helpful, and be responsible.".

(** [NewAgent]. *)
Definition NewAgent (client : AIClient) (cfg : AgentConfig) : Agent :=
  mkAgent client ∅ ∅ cfg DefaultTradingSystemPrompt.

(** [RegisterTools]. *)
Fixpoint Agent_RegisterTools (ts : list Tool) : M unit :=
  match ts with
  | [] => mret tt
  | tool :: rest => Agent_RegisterTool tool;; Agent_RegisterTools rest
  end.

(** [SetSystemPrompt]. *)
Definition Agent_SetSystemPrompt (prompt : string) : M unit :=
  modify (fun st => set_agent (set_systemPrompt prompt (agent st)) st).

(** [GetSession]: the session of that id, created when missing. A
    [*Session] is known by its id, under which the agent keeps it. *)
Definition Agent_GetSession (sessionID : string) : M string :=
  emit (ELock sessionsLock);;
  ss ← gets (fun st => sessions (agent st));
  match ss !! sessionID with
  | Some _ => emit (EUnlock sessionsLock);; mret sessionID
  | None =>
      t1 ← now;
      t2 ← now;
      modify (fun st =>
        let '(h1, s) := NewSession (mem st) sessionID
                          (MaxHistoryMessages (config (agent st))) t1 t2 in
        set_mem h1 (set_agent (set_sessions (<[sessionID := s]> (sessions (agent st)))
                                            (agent st)) st));;
      emit (EUnlock sessionsLock);;
      mret sessionID
  end.

(** The session a pointer refers to. *)
Definition deref (p : string) : M Session :=
  fun st => match sessions (agent st) !! p with
            | Some s => Some (s, st)
            | None => None
            end.

Definition store_session (p : string) (h : heap) (s : Session) : M unit :=
  modify (fun st =>
    set_mem h (set_agent (set_sessions (<[p := s]> (sessions (agent st))) (agent st)) st)).

(** [session.AddMessage(msg)] through the pointer, under the session's
    lock. *)
Definition AddMessage (p : string) (msg : Message) : M unit :=
  emit (ELock (Session_mu p));;
  s ← deref p;
  h ← gets mem;
  t ← now;
  match Session_AddMessage h s msg t with
  | None => panic
  | Some (h', s') => store_session p h' s';; emit (EUnlock (Session_mu p))
  end.

(** [session.GetMessages()] through the pointer: the copied messages. *)
Definition GetMessages (p : string) : M (list Message) :=
  emit (ERLock (Session_mu p));;
  s ← deref p;
  h ← gets mem;
  let '(h', result) := Session_GetMessages h s in
  modify (set_mem h');;
  emit (ERUnlock (Session_mu p));;
  mret (slice_view h' result).

(** The keys and values of a map in the order [range] visits them. *)
Definition range_map {A} (m : gmap string A) : list (string * A) :=
  omap (fun k => (fun v => (k, v)) <$> m !! k) (range_order (map_to_list m).*1).

Definition toolDef (tool : Tool) : string :=
  "- **" +:+ Tool_Name tool +:+ "**: " +:+ Tool_Description tool +:+ "
  Parameters: " +:+ Tool_ParameterSchema tool.

(** [buildSystemPromptWithTools]. *)
Definition buildSystemPromptWithTools : M string :=
  emit (ERLock toolsLock);;
  a ← gets agent;
  let toolDefs := (fun kv => toolDef kv.2) <$> range_map (tools a) in
  let toolsSection :=
    if decide (0 < length toolDefs)%nat
    then ("

## Available Tools

You can call tools by responding with JSON in this format:
{" +:+ dq +:+ "tool_calls" +:+ dq +:+ ": [{" +:+ dq +:+ "name" +:+ dq +:+ ": " +:+ dq +:+ "tool_name" +:+ dq +:+ ", " +:+ dq +:+ "arguments" +:+ dq +:+ ": {" +:+ dq +:+ "param" +:+ dq +:+ ": " +:+ dq +:+ "value" +:+ dq +:+ "}}]}

After receiving tool results, provide a natural language response to the user.

Tools:
") +:+ strings_Join toolDefs "
" +:+ "
"
    else "" in
  emit (ERUnlock toolsLock);;
  mret (systemPrompt a +:+ toolsSection).

(** [buildConversationPrompt]. *)
Definition buildConversationPrompt (session : string) : M string :=
  msgs ← GetMessages session;
  let parts := (fun msg => strings_Title (Role msg) +:+ ": " +:+ Content msg) <$> msgs in
  mret (strings_Join parts "

").

(** [parseResponse]: the tool calls, the text and the error (always nil). *)
Definition parseResponse (response : string)
  : list ToolCall * string * option string :=
  if strings_Contains response "tool_calls" then
    let start := strings_Index response "{" in
    let end_ := strings_LastIndex response "}" in
    if decide (start >= 0 ∧ end_ > start) then
      let jsonStr := str_range response start (end_ + 1) in
      match json_Unmarshal jsonStr with
      | Some parsed =>
          ((fun tc => mkToolCall tc.1 tc.2) <$> parsed,
           strings_TrimSpace (str_to response start +:+ str_from response (end_ + 1)),
           None)
      | None => ([], response, None)
      end
    else ([], response, None)
  else ([], response, None).

(** The body of the loop of [executeToolCalls]. *)
Fixpoint executeToolCalls_loop (ctx : GoContext) (calls : list ToolCall)
    (results : list ToolResult) : M (list ToolResult) :=
  match calls with
  | [] => mret results
  | call :: rest =>
      let name := ToolCall_Name call in
      ts ← gets (fun st => tools (agent st));
      match ts !! name with
      | None =>
          executeToolCalls_loop ctx rest
            (results ++ [mkToolResult name None ("unknown tool: " +:+ name)])
      | Some tool =>
          emit (ELog LInfo ("🔧 Executing tool: " +:+ name));;
          emit (EToolExec name (ToolCall_Arguments call));;
          '(result, err) ← call_handler name
                              (Tool_Execute tool ctx (ToolCall_Arguments call));
          match err with
          | Some e =>
              emit (ELog LError ("❌ Tool " +:+ name +:+ " failed: " +:+ e));;
              executeToolCalls_loop ctx rest (results ++ [mkToolResult name None e])
          | None =>
              emit (ELog LInfo ("✅ Tool " +:+ name +:+ " completed"));;
              executeToolCalls_loop ctx rest (results ++ [mkToolResult name result ""])
          end
      end
  end.

(** [executeToolCalls]: the registry's read lock is taken on entry and
    released on return ([defer]). *)
Definition executeToolCalls (ctx : GoContext) (calls : list ToolCall)
  : M (list ToolResult) :=
  emit (ERLock toolsLock);;
  results ← executeToolCalls_loop ctx calls [];
  emit (ERUnlock toolsLock);;
  mret results.

Definition formatToolCalls (calls : list ToolCall) : string :=
  strings_Join
    ((fun c => "- " +:+ ToolCall_Name c +:+ "(" +:+ ToolCall_Arguments c +:+ ")") <$> calls)
    "
".

Definition formatToolResults (results : list ToolResult) : string :=
  strings_Join
    ((fun r =>
        if decide (ToolResult_Error r ≠ "")
        then "- " +:+ ToolResult_Name r +:+ ": ERROR: " +:+ ToolResult_Error r
        else "- " +:+ ToolResult_Name r +:+ ": " +:+ json_Marshal (ToolResult_Result r))
     <$> results)
    "
".

(** ** The context builder *)

(** [strings.ToLower]. *)
Definition strings_ToLower (s : string) : string :=
  if is_ascii_string s
  then string_of_list_ascii (lower_byte <$> list_ascii_of_string s)
  else unicode_ToLower s.

(** The type assertions [pos[k].(string)], [.(float64)] and [.(int)]. *)
Definition get_string (m : gmap string (option Value)) (k : string) : option string :=
  match m !! k with Some (Some (VString s)) => Some s | _ => None end.

Definition get_float64 (m : gmap string (option Value)) (k : string) : option float :=
  match m !! k with Some (Some (VFloat64 f)) => Some f | _ => None end.

Definition get_int (m : gmap string (option Value)) (k : string) : option Z :=
  match m !! k with Some (Some (VInt n)) => Some n | _ => None end.

(** [x > 0] on float64. *)
Definition float_gt0 (x : float) : bool := PrimFloat.ltb 0 x.

(** [parsePosition]. *)
Definition parsePosition (pos : gmap string (option Value)) (traderID traderName : string)
  : PositionSummary :=
  let symbol := default "" (get_string pos "symbol") in
  let side := default "" (strings_ToLower <$> get_string pos "side") in
  let size := default 0%float (get_float64 pos "size") in
  let entry := default 0%float (get_float64 pos "entry_price") in
  let mark := default 0%float (get_float64 pos "mark_price") in
  let pnl := default 0%float (get_float64 pos "unrealized_pnl") in
  let lev := default 0 (get_int pos "leverage") in
  let liq := default 0%float (get_float64 pos "liquidation_price") in
  let pnlPercent :=
    if float_gt0 entry && float_gt0 size then
      if decide (side = "long")
      then (((mark - entry) / entry) * 100 * float64_of_int lev)%float
      else (((entry - mark) / entry) * 100 * float64_of_int lev)%float
    else 0%float in
  mkPositionSummary symbol side size entry mark pnl pnlPercent lev liq
                    traderID traderName.

Definition add_alert (a : Alert) (ctx : TradingContext) : TradingContext :=
  mkTradingContext (TotalEquity ctx) (AvailableBalance ctx) (ctx_UnrealizedPnL ctx)
    (Positions ctx) (MarketPrices ctx) (PriceChanges24h ctx) (ActiveTraders ctx)
    (Alerts ctx ++ [a]) (ctx_UpdatedAt ctx).

(** The distance to liquidation, in percent of the mark price. *)
Definition distancePercent (pos : PositionSummary) : float :=
  if decide (Side pos = "long")
  then (((MarkPrice pos - LiquidationPrice pos) / MarkPrice pos) * 100)%float
  else (((LiquidationPrice pos - MarkPrice pos) / MarkPrice pos) * 100)%float.

(** [checkPositionAlerts]: appends to the context's alerts. *)
Definition checkPositionAlerts (ctx : TradingContext) (pos : PositionSummary)
  : TradingContext :=
  let ctx1 :=
    if float_gt0 (LiquidationPrice pos) && float_gt0 (MarkPrice pos) then
      let d := distancePercent pos in
      if PrimFloat.ltb d 5 then
        add_alert (mkAlert "danger" "liquidation_risk"
          ("âš ï¸ " +:+ Symbol pos +:+ " " +:+ Side pos +:+ "ä»“ä½è·ç¦»å¼ºå¹³ä»… " +:+ fmt_f 1 (d) +:+ "%ï¼")) ctx
      else if PrimFloat.ltb d 10 then
        add_alert (mkAlert "warning" "liquidation_risk"
          ("âš¡ " +:+ Symbol pos +:+ " " +:+ Side pos +:+ "ä»“ä½è·ç¦»å¼ºå¹³ " +:+ fmt_f 1 (d) +:+ "%ï¼Œæ³¨æ„é£é™©")) ctx
      else ctx
    else ctx in
  let ctx2 :=
    if PrimFloat.ltb (PnLPercent pos) (-20) then
      add_alert (mkAlert "danger" "large_loss"
        ("ğŸ“‰ " +:+ Symbol pos +:+ " " +:+ Side pos +:+ "ä»“ä½äºæŸ " +:+ fmt_f 1 (PnLPercent pos) +:+ "%ï¼Œè€ƒè™‘æ­¢æŸ")) ctx1
    else if PrimFloat.ltb (PnLPercent pos) (-10) then
      add_alert (mkAlert "warning" "large_loss"
        ("ğŸ“‰ " +:+ Symbol pos +:+ " " +:+ Side pos +:+ "ä»“ä½äºæŸ " +:+ fmt_f 1 (PnLPercent pos) +:+ "%")) ctx1
    else ctx1 in
  if PrimFloat.ltb 50 (PnLPercent pos) then
    add_alert (mkAlert "info" "large_profit"
      ("ğŸ“ˆ " +:+ Symbol pos +:+ " " +:+ Side pos +:+ "ä»“ä½ç›ˆåˆ© " +:+ fmt_f 1 (PnLPercent pos) +:+ "%ï¼Œè€ƒè™‘éƒ¨åˆ†æ­¢ç›ˆ")) ctx2
  else ctx2.

(** One position of a trader, as the inner loop of [BuildContext]
    handles it. *)
Definition add_position (ctx : TradingContext) (pos : gmap string (option Value))
    (id name : string) : TradingContext :=
  let posSummary := parsePosition pos id name in
  let ctx1 :=
    mkTradingContext (TotalEquity ctx) (AvailableBalance ctx)
      (ctx_UnrealizedPnL ctx + UnrealizedPnL posSummary)%float
      (Positions ctx ++ [posSummary])
      (<[Symbol posSummary := MarkPrice posSummary]> (MarketPrices ctx))
      (PriceChanges24h ctx) (ActiveTraders ctx) (Alerts ctx) (ctx_UpdatedAt ctx) in
  checkPositionAlerts ctx1 posSummary.

(** The account figures of one trader. *)
Definition add_account (ctx : TradingContext) (summary : TraderSummary)
    (accountInfo : gmap string (option Value)) : TraderSummary * TradingContext :=
  let '(summary1, total) :=
    match get_float64 accountInfo "total_equity" with
    | Some equity =>
        (mkTraderSummary (TraderSummary_ID summary) (TraderSummary_Name summary)
           (Exchange summary) (IsRunning summary) equity (PositionCount summary)
           (TodayPnL summary),
         (TotalEquity ctx + equity)%float)
    | None => (summary, TotalEquity ctx)
    end in
  let avail :=
    match get_float64 accountInfo "available_balance" with
    | Some available => (AvailableBalance ctx + available)%float
    | None => AvailableBalance ctx
    end in
  (summary1,
   mkTradingContext total avail (ctx_UnrealizedPnL ctx) (Positions ctx)
     (MarketPrices ctx) (PriceChanges24h ctx) (ActiveTraders ctx) (Alerts ctx)
     (ctx_UpdatedAt ctx)).

Definition add_trader (summary : TraderSummary) (ctx : TradingContext) : TradingContext :=
  mkTradingContext (TotalEquity ctx) (AvailableBalance ctx) (ctx_UnrealizedPnL ctx)
    (Positions ctx) (MarketPrices ctx) (PriceChanges24h ctx)
    (ActiveTraders ctx ++ [summary]) (Alerts ctx) (ctx_UpdatedAt ctx).

(** The loop of [BuildContext] over the traders. *)
Fixpoint BuildContext_loop (traders : list (string * Trader)) (ctx : TradingContext)
  : M TradingContext :=
  match traders with
  | [] => mret ctx
  | (id, trader) :: rest =>
      let summary :=
        mkTraderSummary id (Trader_GetName trader) (Trader_GetExchange trader)
                        true 0%float 0 0%float in
      emit (EFetch "GetAccountInfo");;
      '(accountInfo, err) ← call_world (Trader_GetAccountInfo trader);
      let '(summary1, ctx1) :=
        match err with
        | None => add_account ctx summary accountInfo
        | Some _ => (summary, ctx)
        end in
      emit (EFetch "GetPositions");;
      '(positions, err) ← call_world (Trader_GetPositions trader);
      let '(summary2, ctx2) :=
        match err with
        | None =>
            (mkTraderSummary (TraderSummary_ID summary1) (TraderSummary_Name summary1)
               (Exchange summary1) (IsRunning summary1) (Equity summary1)
               (Z.of_nat (length positions)) (TodayPnL summary1),
             foldl (fun c pos => add_position c pos id (Trader_GetName trader))
                   ctx1 positions)
        | Some _ => (summary1, ctx1)
        end in
      BuildContext_loop rest (add_trader summary2 ctx2)
  end.

(** [BuildContext]. *)
Definition BuildContext : M TradingContext :=
  t ← now;
  tm ← gets traderManager;
  emit (EFetch "GetAllTraders");;
  allTraders ← call_world (GetAllTraders tm);
  BuildContext_loop allTraders (mkTradingContext 0%float 0%float 0%float [] ∅ ∅ [] [] t).

Definition concat_map {A} (f : A -> string) (l : list A) : string :=
  foldr (fun a acc => f a +:+ acc) "" l.

(** [FormatContextForPrompt]. *)
Definition FormatContextForPrompt (ctx : TradingContext) : string :=
  "

---
## ğŸ“Š å½“å‰äº¤æ˜“çŠ¶æ€ (å®æ—¶)

"
  +:+ ("**æ€»æƒç›Š:** $" +:+ fmt_f 2 (TotalEquity ctx) +:+ " | **å¯ç”¨ä½™é¢:** $" +:+ fmt_f 2 (AvailableBalance ctx) +:+ " | **æœªå®ç°ç›ˆäº:** $" +:+ fmt_f 2 (ctx_UnrealizedPnL ctx) +:+ "

")
  +:+ (if decide (0 < length (Alerts ctx))%nat
       then "### âš ï¸ è­¦æŠ¥
"
            +:+ concat_map (fun alert => "- " +:+ Message_ alert +:+ "
") (Alerts ctx)
            +:+ "
"
       else "")
  +:+ (if decide (0 < length (Positions ctx))%nat
       then "### ğŸ“ˆ æŒä»“
"
            +:+ "| äº¤æ˜“å¯¹ | æ–¹å‘ | æ•°é‡ | å…¥åœºä»· | ç°ä»· | ç›ˆäº | ç›ˆäº% | æ æ† | äº¤æ˜“å‘˜ |
"
            +:+ "|--------|------|------|--------|------|------|-------|------|--------|
"
            +:+ concat_map (fun pos =>
                  let pnlEmoji :=
                    if PrimFloat.ltb (UnrealizedPnL pos) 0 then "ğŸ”´" else "ğŸŸ¢" in
                  "| " +:+ Symbol pos +:+ " | " +:+ Side pos +:+ " | " +:+ fmt_f 4 (Size pos) +:+ " | " +:+ fmt_f 2 (EntryPrice pos) +:+ " | " +:+ fmt_f 2 (MarkPrice pos) +:+ " | " +:+ pnlEmoji +:+ "$" +:+ fmt_f 2 (UnrealizedPnL pos) +:+ " | " +:+ fmt_f 1 (PnLPercent pos) +:+ "% | " +:+ fmt_d (Leverage pos) +:+ "x | " +:+ TraderName pos +:+ " |
")
                (Positions ctx)
            +:+ "
"
       else "### ğŸ“ˆ æŒä»“
æ— æŒä»“

")
  +:+ (if decide (0 < length (ActiveTraders ctx))%nat
       then "### ğŸ¤– è¿è¡Œä¸­çš„äº¤æ˜“å‘˜
"
            +:+ concat_map (fun t =>
                  let status := if IsRunning t then "âœ… è¿è¡Œä¸­" else "âŒ å·²åœæ­¢" in
                  "- **" +:+ TraderSummary_Name t +:+ "** (" +:+ Exchange t +:+ ") " +:+ status +:+ " | æƒç›Š: $" +:+ fmt_f 2 (Equity t) +:+ " | æŒä»“: " +:+ fmt_d (PositionCount t) +:+ "
")
                (ActiveTraders ctx)
            +:+ "
"
       else "")
  +:+ ("*æ•°æ®æ›´æ–°æ—¶é—´: " +:+ time_Format (ctx_UpdatedAt ctx) +:+ "*
---
").

(** ** The monitor *)

(** [NewMonitor]. *)
Definition NewMonitor : Monitor :=
  mkMonitor [] false (30 * Second) ∅ ∅.

Definition set_alertCallbacks (cbs : list nat) (m : Monitor) : Monitor :=
  mkMonitor cbs (running m) (interval m) (lastPositions m) (lastAlerts m).

Definition set_running (b : bool) (m : Monitor) : Monitor :=
  mkMonitor (alertCallbacks m) b (interval m) (lastPositions m) (lastAlerts m).

Definition set_interval (d : Duration) (m : Monitor) : Monitor :=
  mkMonitor (alertCallbacks m) (running m) d (lastPositions m) (lastAlerts m).

Definition set_lastPositions (ps : gmap string PositionSummary) (m : Monitor) : Monitor :=
  mkMonitor (alertCallbacks m) (running m) (interval m) ps (lastAlerts m).

Definition set_lastAlerts (la : gmap string Time) (m : Monitor) : Monitor :=
  mkMonitor (alertCallbacks m) (running m) (interval m) (lastPositions m) la.

(** [OnAlert]: the new callback is appended. *)
Definition Monitor_OnAlert (callback : nat) : M unit :=
  emit (ELock Monitor_callbackMu);;
  modify (fun st =>
    set_monitor (set_alertCallbacks (alertCallbacks (monitor st) ++ [callback])
                                    (monitor st)) st);;
  emit (EUnlock Monitor_callbackMu).

(** [Start]: the loop runs as a goroutine of its own. *)
Definition Monitor_Start : M unit :=
  emit (ELock Monitor_mu);;
  m ← gets monitor;
  if running m then emit (EUnlock Monitor_mu)
  else
    modify (fun st => set_monitor (set_running true (monitor st)) st);;
    emit (EUnlock Monitor_mu);;
    emit (ELog LInfo "🔍 Starting trading monitor...");;
    emit EGoMonitorLoop.

(** [Stop]. *)
Definition Monitor_Stop : M unit :=
  emit (ELock Monitor_mu);;
  m ← gets monitor;
  if negb (running m) then emit (EUnlock Monitor_mu)
  else
    modify (fun st => set_monitor (set_running false (monitor st)) st);;
    emit (ELog LInfo "🔍 Trading monitor stopped");;
    emit (EUnlock Monitor_mu).

(** [SetInterval]. *)
Definition Monitor_SetInterval (d : Duration) : M unit :=
  emit (ELock Monitor_mu);;
  modify (fun st => set_monitor (set_interval d (monitor st)) st);;
  emit (EUnlock Monitor_mu).

(** [sendAlert]: one goroutine per registered callback. *)
Definition sendAlert (alert : Alert) : M unit :=
  emit (ERLock Monitor_callbackMu);;
  callbacks ← gets (fun st => alertCallbacks (monitor st));
  emit (ERUnlock Monitor_callbackMu);;
  emit_all ((fun cb => EGo cb alert) <$> callbacks).

Definition alert_key (alert : Alert) : string :=
  Type_ alert +:+ "_" +:+ Message_ alert.

(** [sendAlertIfNew]. [time.Since] reads the clock once, [time.Now] once
    more. *)
Definition sendAlertIfNew (alert : Alert) : M unit :=
  emit (ELock Monitor_mu);;
  let key := alert_key alert in
  la ← gets (fun st => lastAlerts (monitor st));
  recently ←
    match la !! key with
    | Some lastSent =>
        t ← now;
        mret (bool_decide (t - lastSent < 5 * Minute))
    | None => mret false
    end;
  if recently : bool then emit (EUnlock Monitor_mu)
  else
    t ← now;
    modify (fun st =>
      set_monitor (set_lastAlerts (<[key := t]> (lastAlerts (monitor st))) (monitor st)) st);;
    sendAlert alert;;
    emit (EUnlock Monitor_mu).

Definition position_key (pos : PositionSummary) : string :=
  TraderID pos +:+ "_" +:+ Symbol pos +:+ "_" +:+ Side pos.

(** First loop of [checkPositionChanges]. *)
Fixpoint checkPositionChanges_new (positions : list PositionSummary)
    (currentPositions : gmap string PositionSummary)
  : M (gmap string PositionSummary) :=
  match positions with
  | [] => mret currentPositions
  | pos :: rest =>
      let key := position_key pos in
      lp ← gets (fun st => lastPositions (monitor st));
      match lp !! key with
      | Some _ => mret tt
      | None =>
          sendAlert (mkAlert "info" "new_position"
            ("📍 新开仓位: " +:+ Symbol pos +:+ " " +:+ Side pos +:+ " " +:+ fmt_f 4 (Size pos) +:+ " @ " +:+ fmt_f 2 (EntryPrice pos) +:+ " (" +:+ fmt_d (Leverage pos) +:+ "x)"))
      end;;
      checkPositionChanges_new rest (<[key := pos]> currentPositions)
  end.

(** Second loop of [checkPositionChanges]. *)
Fixpoint checkPositionChanges_closed (olds : list (string * PositionSummary))
    (currentPositions : gmap string PositionSummary) : M unit :=
  match olds with
  | [] => mret tt
  | (key, oldPos) :: rest =>
      match currentPositions !! key with
      | Some _ => mret tt
      | None =>
          sendAlert (mkAlert "info" "position_closed"
            ("📍 仓位已平: " +:+ Symbol oldPos +:+ " " +:+ Side oldPos +:+ " (入场价: " +:+ fmt_f 2 (EntryPrice oldPos) +:+ ")"))
      end;;
      checkPositionChanges_closed rest currentPositions
  end.

(** [checkPositionChanges]. *)
Definition checkPositionChanges (ctx : TradingContext) : M unit :=
  emit (ELock Monitor_mu);;
  currentPositions ← checkPositionChanges_new (Positions ctx) ∅;
  lp ← gets (fun st => lastPositions (monitor st));
  checkPositionChanges_closed (range_map lp) currentPositions;;
  modify (fun st => set_monitor (set_lastPositions currentPositions (monitor st)) st);;
  emit (EUnlock Monitor_mu).

(** [checkMarketMovements] does nothing. *)
Definition checkMarketMovements (ctx : TradingContext) : M unit := mret tt.

Fixpoint sendAlertsIfNew (alerts : list Alert) : M unit :=
  match alerts with
  | [] => mret tt
  | alert :: rest => sendAlertIfNew alert;; sendAlertsIfNew rest
  end.

(** [checkAndAlert]: one tick of the monitor. *)
Definition checkAndAlert : M unit :=
  ctx ← BuildContext;
  sendAlertsIfNew (Alerts ctx);;
  checkPositionChanges ctx;;
  checkMarketMovements ctx.

(** ** The agent loop *)

(** How an iteration leaves the loop: [return nil, err] or [break]. *)
Inductive LoopExit :=
| LoopReturn (err : string)
| LoopBreak (finalResponse : string).

(** The two copies of the loop, [Agent.Chat] and [SmartAgent.Chat],
    differ in two string constants. *)
Inductive Variant := BaseAgent | Smart.

Definition max_calls_warning (v : Variant) (maxCalls : Z) : string :=
  match v with
  | BaseAgent => "⚠️ Max tool calls reached (" +:+ fmt_d (maxCalls) +:+ "), stopping agent loop"
  | Smart => "⚠️ Max tool calls reached (" +:+ fmt_d (maxCalls) +:+ ")"
  end.

Definition fold_back (v : Variant) (toolCalls : list ToolCall)
    (toolResults : list ToolResult) : string :=
  match v with
  | BaseAgent => "

Assistant called tools:
" +:+ formatToolCalls toolCalls +:+ "

Tool results:
" +:+ formatToolResults toolResults +:+ "

Based on the tool results, please provide your response to the user:"
  | Smart => "

Assistant called tools:
" +:+ formatToolCalls toolCalls +:+ "

Tool results:
" +:+ formatToolResults toolResults +:+ "

Based on the tool results, provide a helpful response:"
  end.

(** One AI completion. *)
Definition callAI (systemPrompt conversationPrompt : string)
  : M (string * option string) :=
  emit (EAICall systemPrompt conversationPrompt);;
  client ← gets (fun st => aiClient (agent st));
  call_world (client systemPrompt conversationPrompt).

(** The [for] loop of [Chat]; [fuel] bounds the iterations, [None] is
    fuel run out. *)
Fixpoint Chat_loop (v : Variant) (fuel : nat) (ctx : GoContext)
    (systemPrompt conversationPrompt finalResponse : string) (toolCallCount : Z)
  : M (option LoopExit) :=
  match fuel with
  | O => mret None
  | S fuel' =>
      w ← gets world;
      match ctx_Err ctx w with
      | Some e => mret (Some (LoopReturn e))
      | None =>
          maxCalls ← gets (fun st => MaxToolCalls (config (agent st)));
          if decide (toolCallCount >= maxCalls) then
            emit (ELog LWarn (max_calls_warning v maxCalls));;
            mret (Some (LoopBreak finalResponse))
          else
            '(response, err) ← callAI systemPrompt conversationPrompt;
            match err with
            | Some e => mret (Some (LoopReturn ("AI call failed: " +:+ e)))
            | None =>
                let '(toolCalls, textResponse, perr) := parseResponse response in
                match perr with
                | Some _ => mret (Some (LoopBreak response))
                | None =>
                    if decide (length toolCalls = 0%nat) then
                      mret (Some (LoopBreak textResponse))
                    else
                      toolResults ← executeToolCalls ctx toolCalls;
                      let toolCallCount' := toolCallCount + Z.of_nat (length toolCalls) in
                      let conversationPrompt' :=
                        conversationPrompt +:+ fold_back v toolCalls toolResults in
                      let finalResponse' :=
                        if decide (textResponse ≠ "") then textResponse
                        else finalResponse in
                      Chat_loop v fuel' ctx systemPrompt conversationPrompt'
                                finalResponse' toolCallCount'
                end
            end
      end
  end.

(** Iterations that always suffice: every iteration that goes on adds at
    least one to the counter. *)
Definition Chat_fuel (maxCalls : Z) : nat := S (Z.to_nat maxCalls).

(** What follows the loop: the assistant message and the response. *)
Definition Chat_finish (session sessionID : string) (exit : option LoopExit)
  : M (option AgentResponse * option string) :=
  match exit with
  | None => panic
  | Some (LoopReturn e) => mret (None, Some e)
  | Some (LoopBreak finalResponse) =>
      t ← now;
      AddMessage session (mkMessage "assistant" finalResponse t "" None);;
      mret (Some (mkAgentResponse finalResponse sessionID), None)
  end.

(** [Agent.Chat]. *)
Definition Agent_Chat (ctx : GoContext) (sessionID userMessage : string)
  : M (option AgentResponse * option string) :=
  session ← Agent_GetSession sessionID;
  t ← now;
  AddMessage session (mkMessage "user" userMessage t "" None);;
  systemPrompt ← buildSystemPromptWithTools;
  conversationPrompt ← buildConversationPrompt session;
  maxCalls ← gets (fun st => MaxToolCalls (config (agent st)));
  exit ← Chat_loop BaseAgent (Chat_fuel maxCalls) ctx systemPrompt conversationPrompt "" 0;
  Chat_finish session sessionID exit.

(** ** The smart agent *)

(** The smart system prompt (prompts file). *)
Definition SmartTradingPrompt : string :=
  "# 🧠 NOFX 智能交易助手

你是一个专业的 AI 交易助手，具备以下能力：

## 核心能力

### 1. 智能分析
- 分析用户意图，理解交易需求
- 在执行交易前，主动评估风险
- 结合市场数据给出建议

### 2. 主动提醒
- 发现持仓风险时主动警告
- 大额亏损时建议止损
- 接近强平时紧急提醒

### 3. 专业建议
- 根据仓位情况建议操作
- 评估杠杆和仓位大小是否合理
- 提供入场/出场时机建议

## 交易原则

1. **安全第一**：任何交易操作前必须确认，高风险操作要多次确认
2. **风险控制**：
   - 单笔交易不超过总资金的 10%
   - 杠杆建议：BTC/ETH ≤10x，山寨币 ≤5x
   - 发现强平风险立即警告
3. **理性决策**：不鼓励情绪化交易，亏损时建议冷静

## 回复风格

- 简洁专业，像交易员一样说话
- 数据说话，给出具体数字
- 风险提示放在显眼位置
- 支持中英文，根据用户语言回复

## 工具使用策略

当用户问到持仓、余额时：
1. 先调用 list_traders 获取交易员列表
2. 对运行中的交易员调用 get_balance 和 get_positions
3. 汇总数据后清晰展示

当用户想交易时：
1. 先获取当前持仓和余额
2. 评估这笔交易的风险
3. 明确告知风险后请求确认
4. 确认后执行交易

当用户问市场行情时：
1. 获取相关币种价格
2. 结合持仓情况分析
3. 给出操作建议（但声明不构成投资建议）

## 重要：响应格式

- 持仓展示用表格
- 重要警告用 ⚠️ 标注
- 盈利用 🟢，亏损用 🔴
- 操作建议用列表

记住：你的目标是帮助用户更好地管理交易，而不是鼓励频繁交易。稳健盈利比追求高收益更重要。".

(** [NewSmartAgent]: the agent with the smart prompt, a new monitor and
    context injection switched on. *)
Definition NewSmartAgent (w : World) (client : AIClient) (cfg : AgentConfig)
    (tm : TraderManager) : State :=
  mkState w ∅ (set_systemPrompt SmartTradingPrompt (NewAgent client cfg))
          true tm NewMonitor [].

(** [SetAutoInjectContext]. *)
Definition SmartAgent_SetAutoInjectContext (enabled : bool) : M unit :=
  modify (fun st =>
    mkState (world st) (mem st) (agent st) enabled (traderManager st)
            (monitor st) (trace st)).

(** [buildSmartSystemPrompt]. *)
Definition buildSmartSystemPrompt : M string :=
  emit (ERLock toolsLock);;
  a ← gets agent;
  let toolDefs := (fun kv => toolDef kv.2) <$> range_map (tools a) in
  let toolsSection :=
    if decide (0 < length toolDefs)%nat
    then ("

## 可用工具

调用工具时，使用以下 JSON 格式:
{" +:+ dq +:+ "tool_calls" +:+ dq +:+ ": [{" +:+ dq +:+ "name" +:+ dq +:+ ": " +:+ dq +:+ "工具名" +:+ dq +:+ ", " +:+ dq +:+ "arguments" +:+ dq +:+ ": {" +:+ dq +:+ "参数" +:+ dq +:+ ": " +:+ dq +:+ "值" +:+ dq +:+ "}}]}

收到工具结果后，用自然语言回复用户。

可用工具:
") +:+ strings_Join toolDefs "
" +:+ "
"
    else "" in
  emit (ERUnlock toolsLock);;
  mret (systemPrompt a +:+ toolsSection).

(** [buildSmartConversationPrompt]. *)
Definition buildSmartConversationPrompt (session currentMessage : string) : M string :=
  inject ← gets autoInjectContext;
  sb ←
    (if inject : bool then
       tradingCtx ← BuildContext;
       mret (FormatContextForPrompt tradingCtx)
     else mret "");
  msgs ← GetMessages session;
  mret (sb +:+ concat_map (fun msg => "
" +:+ strings_Title (Role msg) +:+ ": " +:+ Content msg +:+ "
") msgs).

(** [SmartAgent.Chat]. *)
Definition SmartAgent_Chat (ctx : GoContext) (sessionID userMessage : string)
  : M (option AgentResponse * option string) :=
  session ← Agent_GetSession sessionID;
  t ← now;
  AddMessage session (mkMessage "user" userMessage t "" None);;
  systemPrompt ← buildSmartSystemPrompt;
  conversationPrompt ← buildSmartConversationPrompt session userMessage;
  maxCalls ← gets (fun st => MaxToolCalls (config (agent st)));
  exit ← Chat_loop Smart (Chat_fuel maxCalls) ctx systemPrompt conversationPrompt "" 0;
  Chat_finish session sessionID exit.

End WithEnvironment.


(** [GetTopSymbols]: the symbols of the positions and the two major
    pairs, in the order [range] visits the set. *)
Definition GetTopSymbols `{GoRuntime} (ctx : TradingContext) : list string :=
  let symbolSet :=
    foldl (fun (m : gmap string bool) pos => <[Symbol pos := true]> m) ∅ (Positions ctx) in
  let symbolSet := <["ETHUSDT" := true]> (<["BTCUSDT" := true]> symbolSet) in
  (range_map symbolSet).*1.

(** * telegram/bot.go: the bot in front of the agent *)

(** [BotConfig]. *)
Record BotConfig := mkBotConfig {
  Token : string;
  UseWebhook : bool;
  WebhookURL : string;
  WebhookPort : Z;
  AllowedUserIDs : list Z;
  AdminUserIDs : list Z;
  MaxMessagesPerMinute : Z;
  DefaultLanguage : string
}.

Definition DefaultBotConfig : BotConfig :=
  mkBotConfig "" false "" 0 [] [] 30 "zh".

(** ** The rate limiter *)

Record RateLimiter := mkRateLimiter {
  maxPerMinute : Z;
  users : gmap Z (list Time)
}.

Definition NewRateLimiter (maxPerMinute : Z) : RateLimiter :=
  mkRateLimiter maxPerMinute ∅.

(** [RateLimiter.Allow]; [now] is what [time.Now()] returns. A user
    without an entry has the nil slice. *)
Definition RateLimiter_Allow (r : RateLimiter) (now : Time) (userID : Z)
  : bool * RateLimiter :=
  let cutoff := now - Minute in
  let timestamps := default [] (users r !! userID) in
  let recent := filter (fun t => cutoff < t) timestamps in
  if decide (Z.of_nat (length recent) >= maxPerMinute r) then (false, r)
  else (true, mkRateLimiter (maxPerMinute r) (<[userID := recent ++ [now]]> (users r))).

(** ** The bot *)

(** The bot's own fields; the agent is the one of the process state and
    the Telegram client is outside. *)
Record Bot := mkBot {
  Bot_config : BotConfig;
  allowedUsers : gmap Z bool;
  rateLimiter : RateLimiter
}.

(** [NewBot]; [teleErr] is the error [tele.NewBot] returns, if any
    (it is not called when the token is empty). *)
Definition NewBot (config : BotConfig) (teleErr : option string)
  : option Bot * option string :=
  if decide (Token config = "")
  then (None, Some "telegram bot token is required")
  else
    match teleErr with
    | Some err => (None, Some ("failed to create telegram bot: " +:+ err))
    | None =>
        (Some (mkBot config
                 (foldl (fun m uid => <[uid := true]> m) ∅ (AllowedUserIDs config))
                 (NewRateLimiter (MaxMessagesPerMinute config))),
         None)
    end.

(** [AddAllowedUser] and [RemoveAllowedUser]. *)
Definition AddAllowedUser (userID : Z) (b : Bot) : Bot :=
  mkBot (Bot_config b) (<[userID := true]> (allowedUsers b)) (rateLimiter b).

Definition RemoveAllowedUser (userID : Z) (b : Bot) : Bot :=
  mkBot (Bot_config b) (delete userID (allowedUsers b)) (rateLimiter b).

(** What a middleware does with an update: hands it on, or answers it
    itself. *)
Inductive Handled :=
  | Next
  | Reply (text : string).

(** [accessControlMiddleware], with the warning it logs. *)
Definition accessControlMiddleware (b : Bot) (userID : Z)
  : list (LogLevel * string) * Handled :=
  if decide (length (AllowedUserIDs (Bot_config b)) = 0%nat) then ([], Next)
  else
    let allowed := default false (allowedUsers b !! userID) in
    if negb allowed
    then ([(LWarn, "⚠️ Unauthorized access attempt from user " +:+ fmt_d (userID))],
          Reply "⛔ Sorry, you are not authorized to use this bot.

抱歉，您没有使用此机器人的权限。")
    else ([], Next).

(** [rateLimitMiddleware]. *)
Definition rateLimitMiddleware (b : Bot) (now : Time) (userID : Z) : Handled * Bot :=
  let '(ok, r) := RateLimiter_Allow (rateLimiter b) now userID in
  let b' := mkBot (Bot_config b) (allowedUsers b) r in
  if negb ok
  then (Reply "⏳ Please slow down. Too many messages.

请稍等，消息发送过于频繁。", b')
  else (Next, b').

(** [truncate]; [None] is the panic of [s[:maxLen]] for a negative
    [maxLen]. Lengths are in bytes. *)
Definition truncate (s : string) (maxLen : Z) : option string :=
  if decide (Z.of_nat (String.length s) <= maxLen) then Some s
  else if decide (0 <= maxLen) then Some (str_to s maxLen +:+ "...")
  else None.

(** [getSessionID], from the chat's id. *)
Definition getSessionID (chatID : Z) : string := "tg_" +:+ fmt_d chatID.

Section BotHandlers.
Context `{GoRuntime} `{Environment}.

(** The update a handler receives ([tele.Context]): its text, chat and
    sender, and the calls that reach Telegram. [tele_Send text markdown]
    returns the error of [c.Send], with [tele.ModeMarkdown] or
    without. *)
Record TeleContext := mkTeleContext {
  tele_Text : string;
  tele_ChatID : Z;
  tele_SenderID : Z;
  tele_Username : string;
  tele_Send : string -> bool -> World -> World * option string;
  tele_Notify : World -> World
}.

(** What [sendLongMessage] has done: the world after, the [Send] calls
    it made (text, with markdown or not), oldest first, and its
    error. *)
Definition Sent : Type := World * list (string * bool) * option string.

(** The limit of one message, in bytes. *)
Definition sendLongMessage_maxLen : Z := 4000.

(** The line feed. *)
Definition newline : string := String "010"%char EmptyString.

(** The next chunk and what is left of the text after it. *)
Definition next_chunk (text : string) : string * string :=
  if decide (Z.of_nat (String.length text) > sendLongMessage_maxLen) then
    let idx := strings_LastIndex (str_to text sendLongMessage_maxLen) newline in
    if decide (idx > 0)
    then (str_to text idx, str_from text (idx + 1))
    else (str_to text sendLongMessage_maxLen, str_from text sendLongMessage_maxLen)
  else (text, "").

(** The loop of [sendLongMessage]; [None] when the iterations allowed
    do not suffice. *)
Fixpoint sendLongMessage_loop (fuel : nat) (c : TeleContext) (text : string)
    (w : World) (sent : list (string * bool)) : option Sent :=
  if decide (0 < String.length text)%nat then
    match fuel with
    | O => None
    | S fuel' =>
        let '(chunk, text') := next_chunk text in
        let '(w1, err) := tele_Send c chunk true w in
        match err with
        | Some _ =>
            let '(w2, err2) := tele_Send c chunk false w1 in
            match err2 with
            | Some e => Some (w2, sent ++ [(chunk, true); (chunk, false)], Some e)
            | None =>
                sendLongMessage_loop fuel' c text' w2
                  (sent ++ [(chunk, true); (chunk, false)])
            end
        | None => sendLongMessage_loop fuel' c text' w1 (sent ++ [(chunk, true)])
        end
    end
  else Some (w, sent, None).

(** [sendLongMessage]: every iteration shortens the text. *)
Definition sendLongMessage (c : TeleContext) (text : string) (w : World)
  : option Sent :=
  if decide (Z.of_nat (String.length text) <= sendLongMessage_maxLen) then
    let '(w1, err) := tele_Send c text true w in
    Some (w1, [(text, true)], err)
  else sendLongMessage_loop (String.length text) c text w [].

(** [session.Clear()] and [session.SetUserInfo(...)] through the
    pointer, under the session's lock. *)
Definition Clear (p : string) : M unit :=
  emit (ELock (Session_mu p));;
  s ← deref p;
  h ← gets mem;
  let '(h1, ms) := go_make h 0 in
  t ← now;
  store_session p h1 (set_UpdatedAt t (set_messages ms s));;
  emit (EUnlock (Session_mu p)).

Definition SetUserInfo (p : string) (userID userName platform : string) : M unit :=
  emit (ELock (Session_mu p));;
  s ← deref p;
  h ← gets mem;
  store_session p h (Session_SetUserInfo s userID userName platform);;
  emit (EUnlock (Session_mu p)).

(** [session.GetRecentMessages(n)], [session.SetMetadata(key, value)]
    and [session.GetMetadata(key)] through the pointer, under the
    session's lock. *)
Definition GetRecentMessages (p : string) (n : Z) : M (list Message) :=
  emit (ERLock (Session_mu p));;
  s ← deref p;
  h ← gets mem;
  match Session_GetRecentMessages h s n with
  | None => panic
  | Some (h', result) =>
      modify (set_mem h');;
      emit (ERUnlock (Session_mu p));;
      mret (slice_view h' result)
  end.

Definition SetMetadata (p : string) (key : string) (v : option Value) : M unit :=
  emit (ELock (Session_mu p));;
  s ← deref p;
  h ← gets mem;
  store_session p h (Session_SetMetadata s key v);;
  emit (EUnlock (Session_mu p)).

Definition GetMetadata (p : string) (key : string) : M (option Value * bool) :=
  emit (ERLock (Session_mu p));;
  s ← deref p;
  emit (ERUnlock (Session_mu p));;
  mret (Session_GetMetadata s key).

(** [handleClear]: what it passes to [c.Send]. *)
Definition handleClear (chatID : Z) : M string :=
  let sessionID := getSessionID chatID in
  session ← Agent_GetSession sessionID;
  Clear session;;
  mret "🧹 Conversation history cleared.

对话历史已清除。".

(** [handleText]: the handler's error. [withTimeout] is the context
    [context.WithTimeout] makes of the background context and the 120
    seconds. *)
Definition handleText (c : TeleContext) (withTimeout : Duration -> GoContext)
  : M (option string) :=
  let text := strings_TrimSpace (tele_Text c) in
  if decide (text = "") then mret None
  else
    modify (fun st => set_world (tele_Notify c (world st)) st);;
    let ctx := withTimeout (120 * Second) in
    let sessionID := getSessionID (tele_ChatID c) in
    session ← Agent_GetSession sessionID;
    SetUserInfo session (fmt_d (tele_SenderID c)) (tele_Username c) "telegram";;
    emit (ELog LInfo ("💬 [" +:+ sessionID +:+ "] " +:+ tele_Username c +:+ ": " +:+ text));;
    '(response, err) ← Agent_Chat ctx sessionID text;
    match err, response with
    | Some err, _ =>
        emit (ELog LError ("Agent error: " +:+ err));;
        call_world (tele_Send c "❌ Sorry, something went wrong. Please try again.

抱歉，出现了问题，请重试。" false)
    | None, None => panic
    | None, Some response =>
        short ← (fun st => (fun s => (s, st)) <$> truncate (Text response) 100);
        emit (ELog LInfo ("🤖 [" +:+ sessionID +:+ "] Response: " +:+ short));;
        w ← gets world;
        match sendLongMessage c (Text response) w with
        | None => panic
        | Some (w', _, err) => modify (set_world w');; mret err
        end
    end.

End BotHandlers.

(** ** Stand-ins for the closed examples

    A world that is a clock and a counter, and a runtime whose JSON
    decoder knows the two blocks the examples use. *)

Record ExampleWorld := mkExampleWorld {
  ew_clock : Time;
  ew_tick : nat
}.

Definition example_env : Environment :=
  {| World := ExampleWorld;
     time_Now := fun w => (mkExampleWorld (ew_clock w + Second) (ew_tick w), ew_clock w) |}.

(** A response that asks for the tool [t] twice. *)
Definition two_calls_block : string :=
  ("{" +:+ dq +:+ "tool_calls" +:+ dq +:+ ":[{" +:+ dq +:+ "name" +:+ dq +:+ ":" +:+ dq +:+ "t" +:+ dq +:+ "," +:+ dq +:+ "arguments" +:+ dq +:+ ":{}},{" +:+ dq +:+ "name" +:+ dq +:+ ":" +:+ dq +:+ "t" +:+ dq +:+ "," +:+ dq +:+ "arguments" +:+ dq +:+ ":{}}]}").

Definition example_Unmarshal (s : string) : option (list (string * RawMessage)) :=
  if decide (s = "{}") then Some []
  else if decide (s = two_calls_block) then Some [("t", "{}"); ("t", "{}")]
  else None.

Definition example_Marshal (v : option Value) : string :=
  match v with
  | None => "null"
  | Some (VString s) => dq +:+ s +:+ dq
  | Some (VInt n) => fmt_d n
  | Some (VBool true) => "true"
  | Some (VBool false) => "false"
  | Some (VFloat64 f) => fmt_f 6 f
  | Some (VOpaque repr) => repr
  end.

(** Arguments that name a trader. *)
Definition trader_args (id : string) : RawMessage :=
  "{" +:+ dq +:+ "trader_id" +:+ dq +:+ ":" +:+ dq +:+ id +:+ dq +:+ "}".

Definition example_Unmarshal_params (args : RawMessage) : string + string :=
  if decide (args = trader_args "tr1") then inr "tr1"
  else inl "unexpected end of JSON input".

Definition example_runtime : GoRuntime :=
  {| growcap := fun c => (2 * c)%nat;
     json_Unmarshal := example_Unmarshal;
     json_Marshal := example_Marshal;
     json_Unmarshal_params := example_Unmarshal_params;
     repr_map := fun m => "map of " +:+ pretty (size m) +:+ " entries";
     repr_maps := fun l => "slice of " +:+ pretty (length l) +:+ " maps";
     strings_Title := fun s => s;
     unicode_ToLower := fun s => s;
     time_Format := fun t => fmt_d t;
     range_order := fun ks => ks;
     range_order_perm := fun ks => reflexivity ks |}.

Section StandIns.
#[local] Existing Instance example_env.
#[local] Existing Instance example_runtime.

(** A context that is never cancelled, and one that is. *)
Definition live_ctx : GoContext := mkGoContext (fun _ => None).

Definition cancelled_ctx : GoContext :=
  mkGoContext (fun _ => Some "context canceled").

(** A tool [t] that succeeds with a value, and a tool [noop] whose
    handler returns (nil, nil). *)
Definition tool_t : Tool :=
  NewTool "t" "a tool" "{}"
    (fun _ _ w => (mkExampleWorld (ew_clock w) (S (ew_tick w)), [],
                   (Some (VString "done"), None))).

Definition tool_noop : Tool :=
  NewTool "noop" "a tool without a result" "{}" (fun _ _ w => (w, [], (None, None))).

(** A client whose every response asks for [t] twice, and one whose
    every call fails. *)
Definition greedy_client : AIClient :=
  fun _ _ w => (w, (two_calls_block, None)).

Definition failing_client : AIClient :=
  fun _ _ w => (w, ("", Some "connection refused")).

Definition no_traders : TraderManager :=
  mkTraderManager (fun w => (w, [])) (fun id w => (w, inl ("trader " +:+ id +:+ " not found")))
                  (fun _ w => w) (fun _ _ w => (w, None)).

(** A new smart agent with the given client, configuration and tools. *)
Definition example_state (client : AIClient) (cfg : AgentConfig) (ts : list Tool)
  : State :=
  let st := NewSmartAgent (mkExampleWorld 0 0) client cfg no_traders in
  set_agent (set_tools (list_to_map ((fun t => (Tool_Name t, t)) <$> ts)) (agent st)) st.

(** A configuration that allows one tool call a turn. *)
Definition one_call_config : AgentConfig :=
  mkAgentConfig 1 50 (120 * Second) "deepseek-chat".

Definition call_t : ToolCall := mkToolCall "t" "{}".

Definition call_noop : ToolCall := mkToolCall "noop" "{}".

(** Three messages and the times of their [AddMessage] calls. *)
Definition three_messages : list (Message * Time) :=
  [(mkMessage "user" "one" 1 "" None, 1);
   (mkMessage "assistant" "two" 2 "" None, 2);
   (mkMessage "user" "three" 3 "" None, 3)].

(** A long position: entry 100, mark 110, leverage 5, and the same as a
    short position. *)
Definition position_of (side : string) : gmap string (option Value) :=
  list_to_map
    [("symbol", Some (VString "BTCUSDT")); ("side", Some (VString side));
     ("size", Some (VFloat64 1)); ("entry_price", Some (VFloat64 100));
     ("mark_price", Some (VFloat64 110)); ("leverage", Some (VInt 5))].

(** A long position 4 percent from liquidation and 25 percent down. *)
Definition risky_position : PositionSummary :=
  mkPositionSummary "ETHUSDT" "long" 1 125 100 (-25) (-25) 1 96 "tr1" "alpha".

Definition empty_context : TradingContext :=
  mkTradingContext 0 0 0 [] ∅ ∅ [] [] 0.

(** A trader whose one position is there on even ticks and gone on odd
    ones; every fetch of its positions takes 30 seconds. *)
Definition flapping_trader : Trader :=
  mkTrader "alpha" "binance"
    (fun w => (w, (∅, None)))
    (fun w => (mkExampleWorld (ew_clock w + 30 * Second) (S (ew_tick w)),
               (if Nat.even (ew_tick w) then [position_of "long"] else [], None)))
    (fun w => (w, {[ "is_running" := Some (VBool false) ]})).

Definition flapping_manager : TraderManager :=
  mkTraderManager (fun w => (w, [("tr1", flapping_trader)]))
    (fun id w => (w, if decide (id = "tr1") then inr flapping_trader
                     else inl ("trader " +:+ id +:+ " not found")))
    (fun _ w => w) (fun _ _ w => (w, None)).

(** The trading tools over that manager and a store that accepts every
    update; calls of [get_balance], [get_positions] and [start_trader]
    for its trader. *)
Definition example_tools : TradingTools :=
  mkTradingTools flapping_manager (mkStore (fun _ _ _ w => (w, None))).

Definition call_balance : ToolCall := mkToolCall "get_balance" (trader_args "tr1").

Definition call_positions : ToolCall := mkToolCall "get_positions" (trader_args "tr1").

Definition call_start : ToolCall := mkToolCall "start_trader" (trader_args "tr1").

(** A smart agent over that manager with the three tools registered. *)
Definition trading_state : State :=
  let st := NewSmartAgent (mkExampleWorld 0 0) greedy_client DefaultAgentConfig
                          flapping_manager in
  set_agent
    (set_tools (list_to_map ((fun t => (Tool_Name t, t))
                               <$> [GetBalanceTool example_tools;
                                    GetPositionsTool example_tools;
                                    StartTraderTool example_tools]))
               (agent st)) st.

(** A monitor with one subscriber, watching the flapping trader. *)
Definition watching_state : State :=
  let st := NewSmartAgent (mkExampleWorld 0 0) failing_client DefaultAgentConfig
                          flapping_manager in
  set_monitor (set_alertCallbacks [0%nat] (monitor st)) st.

(** Three ticks of the monitor. *)
Definition three_ticks : M unit :=
  checkAndAlert;; checkAndAlert;; checkAndAlert.

(** An alert, and a monitor that delivered it at time 0, read at a
    clock of 60 seconds. *)
Definition loss_alert : Alert := mkAlert "danger" "large_loss" "ETHUSDT long -25.0%".

Definition alerted_state : State :=
  let st := NewSmartAgent (mkExampleWorld (60 * Second) 0) failing_client
                          DefaultAgentConfig no_traders in
  set_monitor (set_lastAlerts {[alert_key loss_alert := 0]}
                 (set_alertCallbacks [0%nat] (monitor st))) st.

(** A session of capacity 5 that has received three messages. *)
Definition talked_session : heap * Session :=
  default (NewSession ∅ "s" 5 0 0)
    (Session_AddMessages (NewSession ∅ "s" 5 0 0).1 (NewSession ∅ "s" 5 0 0).2
                         three_messages).

(** A configuration with a negative history limit. *)
Definition negative_config : AgentConfig :=
  mkAgentConfig 10 (-1) (120 * Second) "deepseek-chat".

(** An update from chat 7 whose Telegram calls all succeed, and a
    context that is never done. *)
Definition example_update : TeleContext :=
  mkTeleContext "  hi  " 7 42 "alice" (fun _ _ w => (w, None)) (fun w => w).

Definition no_deadline : Duration -> GoContext := fun _ => live_ctx.

(** A bot configuration that allows the users 1 and 2. *)
Definition two_user_config : BotConfig :=
  mkBotConfig "token" false "" 0 [1; 2] [] 30 "zh".

End StandIns.

(** * Verification *)

(** ** Vocabulary of the statements *)

(** A slice is well formed in a heap when its window lies within its
    backing array. *)
Definition slice_wf (h : heap) (s : slice) : Prop :=
  ∃ a, h !! s_ptr s = Some a ∧
       (s_off s + s_cap s ≤ length a)%nat ∧ (s_len s ≤ s_cap s)%nat.

(** Arrays never move nor change length; a heap only grows. *)
Definition heap_le (h h' : heap) : Prop :=
  ∀ l a, h !! l = Some a → ∃ a', h' !! l = Some a' ∧ length a' = length a.

(** The last [k] elements of a list. *)
Definition lastn {A} (k : nat) (l : list A) : list A :=
  drop (length l - k) l.

#[global] Instance LockId_eq_dec : EqDecision LockId.
Proof. solve_decision. Defined.

(** The tool executions, AI calls and callback launches among events. *)
Definition tool_execs (evs : list Event) : list (string * RawMessage) :=
  omap (fun e => match e with EToolExec n a => Some (n, a) | _ => None end) evs.

Definition ai_calls (evs : list Event) : list (string * string) :=
  omap (fun e => match e with EAICall s u => Some (s, u) | _ => None end) evs.

Definition deliveries (evs : list Event) : list (nat * Alert) :=
  omap (fun e => match e with EGo cb a => Some (cb, a) | _ => None end) evs.

(** Calls that leave the process and may take long: a completion, a
    tool execution, a live-state fetch of the context builder, a call a
    tool handler makes on the trader manager, a trader or the store. *)
Definition is_external (e : Event) : bool :=
  match e with
  | EAICall _ _ | EToolExec _ _ | EFetch _ | EHandler _ (Call _) => true
  | _ => false
  end.

(** No lock is held at an external call. *)
Definition no_lock_policy (e : Event) (held : list LockId) : Prop :=
  is_external e = true → held = [].

(** What the code keeps to: completions and the context builder's
    live-state fetches run with no lock held; tool executions, and with
    them whatever their handlers call, start or log, run under the
    registry's read lock alone. *)
Definition registry_lock_policy (e : Event) (held : list LockId) : Prop :=
  match e with
  | EAICall _ _ | EFetch _ => held = []
  | EToolExec _ _ | EHandler _ _ => held = [toolsLock]
  | _ => True
  end.

(** Following the locks through a sequence of events: the locks held
    after it, or [None] when an unlock does not match the lock taken
    last. *)
Definition lock_step (held : list LockId) (e : Event) : option (list LockId) :=
  match e with
  | ELock l | ERLock l => Some (l :: held)
  | EUnlock l | ERUnlock l =>
      match held with
      | l' :: rest => if decide (l = l') then Some rest else None
      | [] => None
      end
  | _ => Some held
  end.

Fixpoint locks_after (held : list LockId) (evs : list Event) : option (list LockId) :=
  match evs with
  | [] => Some held
  | e :: rest => held' ← lock_step held e; locks_after held' rest
  end.

(** Every event of the sequence meets the policy with the locks held
    when it happens. *)
Fixpoint respects (policy : Event → list LockId → Prop) (held : list LockId)
    (evs : list Event) : Prop :=
  match evs with
  | [] => True
  | e :: rest =>
      policy e held ∧
      match lock_step held e with
      | Some held' => respects policy held' rest
      | None => False
      end
  end.

(** The events of a run after those of [st]. *)
Definition new_events `{Environment} (st st' : State) (evs : list Event) : Prop :=
  trace st' = trace st ++ evs.

(** What one call leaves in the result list. *)
Definition result_of (name : string) (out : option Value * option string) : ToolResult :=
  match out.2 with
  | Some e => mkToolResult name None e
  | None => mkToolResult name out.1 ""
  end.

Definition unknown_tool (name : string) : ToolResult :=
  mkToolResult name None ("unknown tool: " +:+ name).

(** A batch of tool calls as a function of the registry and the world:
    the results, the world left behind and the events, in order. *)
Fixpoint run_calls `{Environment} (ctx : GoContext) (ts : gmap string Tool)
    (calls : list ToolCall) (w : World) : list ToolResult * World * list Event :=
  match calls with
  | [] => ([], w, [])
  | call :: rest =>
      let name := ToolCall_Name call in
      match ts !! name with
      | None =>
          let '(rs, w', evs) := run_calls ctx ts rest w in
          (unknown_tool name :: rs, w', evs)
      | Some tool =>
          let '(w1, effects, out) := Tool_Execute tool ctx (ToolCall_Arguments call) w in
          let '(rs, w', evs) := run_calls ctx ts rest w1 in
          (result_of name out :: rs, w',
           ELog LInfo ("🔧 Executing tool: " +:+ name)
           :: EToolExec name (ToolCall_Arguments call)
           :: (EHandler name <$> effects)
           ++ match out.2 with
              | Some e => ELog LError ("❌ Tool " +:+ name +:+ " failed: " +:+ e)
              | None => ELog LInfo ("✅ Tool " +:+ name +:+ " completed")
              end
           :: evs)
      end
  end.

(** The calls of a batch whose tool is registered. *)
Definition registered_calls `{Environment} (ts : gmap string Tool)
    (calls : list ToolCall) : list ToolCall :=
  filter (fun c => is_Some (ts !! ToolCall_Name c)) calls.

(** A run of [m] that starts with the locks [held] keeps to the
    registry-lock policy and ends with the locks [held']. *)
Definition lock_ok `{Environment} {A} (held held' : list LockId) (m : M A) : Prop :=
  ∀ st a st', m st = Some (a, st') →
    ∃ evs, new_events st st' evs ∧
           respects registry_lock_policy held evs ∧
           locks_after held evs = Some held'.

(** The history of the session [p], as [GetMessages] would copy it. *)
Definition history `{Environment} (st : State) (p : string) : list Message :=
  match sessions (agent st) !! p with
  | Some s => slice_view (mem st) (messages s)
  | None => []
  end.

(** The capacity the session [p] has, or will be created with. *)
Definition capacity `{Environment} (st : State) (p : string) : Z :=
  match sessions (agent st) !! p with
  | Some s => maxMessages s
  | None => MaxHistoryMessages (config (agent st))
  end.

(** States the package reaches: capacities are not negative and every
    session's slice lies within its array. *)
Definition state_wf `{Environment} (st : State) : Prop :=
  0 <= MaxHistoryMessages (config (agent st)) ∧
  ∀ p s, sessions (agent st) !! p = Some s →
         slice_wf (mem st) (messages s) ∧ 0 <= maxMessages s.

(** The agent is as it was and the heap has only gained arrays. *)
Definition frame `{Environment} (st st' : State) : Prop :=
  agent st' = agent st ∧ mem st ⊆ mem st'.

(** From a state that meets [P], [m] returns, and leaves the agent and
    the old arrays alone. *)
Definition runs `{Environment} {A} (P : State → Prop) (m : M A) : Prop :=
  ∀ st, P st → ∃ a st', m st = Some (a, st') ∧ frame st st'.

(** A property of states that [frame] steps keep. *)
Definition stable `{Environment} (P : State → Prop) : Prop :=
  ∀ st st', frame st st' → P st → P st'.

(** The state after one AI completion. *)
Definition after_ai `{Environment} (sys conv : string) (w1 : World) (st : State) : State :=
  set_world w1 (set_trace (trace st ++ [EAICall sys conv]) st).

(** The state after a batch of tool calls. *)
Definition after_tools `{Environment} (evs : list Event) (w2 : World) (st : State) : State :=
  set_trace (trace st ++ ERLock toolsLock :: evs ++ [ERUnlock toolsLock])
            (set_world w2 st).

(** The runs of the loop of [Chat], iteration by iteration: from the
    prompt, the captured text, the counter and the state at the head of
    an iteration to the way the loop is left and the state then. *)
Inductive loop_run `{GoRuntime} `{Environment} (v : Variant) (ctx : GoContext)
    (sys : string) : string → string → Z → State → option LoopExit → State → Prop :=
| run_no_fuel conv final count st :
    loop_run v ctx sys conv final count st None st
| run_cancelled conv final count st e :
    ctx_Err ctx (world st) = Some e →
    loop_run v ctx sys conv final count st (Some (LoopReturn e)) st
| run_capped conv final count st :
    ctx_Err ctx (world st) = None →
    count >= MaxToolCalls (config (agent st)) →
    loop_run v ctx sys conv final count st (Some (LoopBreak final))
      (set_trace (trace st ++ [ELog LWarn
         (max_calls_warning v (MaxToolCalls (config (agent st))))]) st)
| run_ai_failed conv final count st w1 response e :
    ctx_Err ctx (world st) = None →
    count < MaxToolCalls (config (agent st)) →
    aiClient (agent st) sys conv (world st) = (w1, (response, Some e)) →
    loop_run v ctx sys conv final count st
      (Some (LoopReturn ("AI call failed: " +:+ e))) (after_ai sys conv w1 st)
| run_answer conv final count st w1 response :
    ctx_Err ctx (world st) = None →
    count < MaxToolCalls (config (agent st)) →
    aiClient (agent st) sys conv (world st) = (w1, (response, None)) →
    length (parseResponse response).1.1 = 0%nat →
    loop_run v ctx sys conv final count st
      (Some (LoopBreak (parseResponse response).1.2)) (after_ai sys conv w1 st)
| run_tools conv final count st w1 response rs w2 evs exit st' :
    ctx_Err ctx (world st) = None →
    count < MaxToolCalls (config (agent st)) →
    aiClient (agent st) sys conv (world st) = (w1, (response, None)) →
    length (parseResponse response).1.1 ≠ 0%nat →
    run_calls ctx (tools (agent st)) (parseResponse response).1.1 w1 = (rs, w2, evs) →
    loop_run v ctx sys
      (conv +:+ fold_back v (parseResponse response).1.1 rs)
      (if decide ((parseResponse response).1.2 ≠ "")
       then (parseResponse response).1.2 else final)
      (count + Z.of_nat (length (parseResponse response).1.1))
      (after_tools evs w2 (after_ai sys conv w1 st)) exit st' →
    loop_run v ctx sys conv final count st exit st'.

(** The shape the two [Chat] methods share: they differ in the builders
    of the two prompts and in the constants of the loop. *)
Definition Chat_with `{GoRuntime} `{Environment} (v : Variant) (buildSystem : M string)
    (buildConversation : string → M string)
    (ctx : GoContext) (sessionID userMessage : string)
  : M (option AgentResponse * option string) :=
  session ← Agent_GetSession sessionID;
  t ← now;
  AddMessage session (mkMessage "user" userMessage t "" None);;
  systemPrompt ← buildSystem;
  conversationPrompt ← buildConversation session;
  maxCalls ← gets (fun st => MaxToolCalls (config (agent st)));
  exit ← Chat_loop v (Chat_fuel maxCalls) ctx systemPrompt conversationPrompt "" 0;
  Chat_finish session sessionID exit.

(** The agent's collaborators and configuration are those of [st]. *)
Definition same_setup `{Environment} (st st' : State) : Prop :=
  config (agent st') = config (agent st) ∧
  aiClient (agent st') = aiClient (agent st) ∧
  tools (agent st') = tools (agent st).

(** The extraction as the specification words it: the text from the
    first opening brace to the last closing brace is decoded; when that
    succeeds the block is cut out and what surrounds it is the text,
    otherwise the whole response is. *)
Definition extract_as_worded `{GoRuntime} (response : string)
  : list ToolCall * string :=
  let start := strings_Index response "{" in
  let end_ := strings_LastIndex response "}" in
  if decide (start >= 0 ∧ end_ > start) then
    match json_Unmarshal (str_range response start (end_ + 1)) with
    | Some parsed =>
        ((fun tc => mkToolCall tc.1 tc.2) <$> parsed,
         str_to response start +:+ str_from response (end_ + 1))
    | None => ([], response)
    end
  else ([], response).

(** The alerts one position adds to a context. *)
Definition new_alerts `{GoRuntime} (ctx : TradingContext) (pos : PositionSummary)
  : list Alert :=
  drop (length (Alerts ctx)) (Alerts (checkPositionAlerts ctx pos)).

(** The levels of the alerts of one type, in order. *)
Definition levels_of (ty : string) (alerts : list Alert) : list string :=
  Level <$> filter (fun a => Type_ a = ty) alerts.

(** Every run of [m] leaves the monitor's record of delivery times as
    it is. *)
Definition keeps_lastAlerts `{Environment} {A} (m : M A) : Prop :=
  ∀ st a st', m st = Some (a, st') →
    lastAlerts (monitor st') = lastAlerts (monitor st).

(** The launches of an alert, one per registered callback. *)
Definition fan_out (callbacks : list nat) (alert : Alert) : list (nat * Alert) :=
  (fun cb => (cb, alert)) <$> callbacks.

(** A [ToolResult] carries exactly one of result and error. *)
Definition exactly_one (r : ToolResult) : Prop :=
  (ToolResult_Result r ≠ None ∧ ToolResult_Error r = "") ∨
  (ToolResult_Error r ≠ "" ∧ ToolResult_Result r = None).

(** *** Events of a turn *)

(** Locks and logs. *)
Definition bookkeeping (e : Event) : Prop :=
  match e with
  | ELock _ | EUnlock _ | ERLock _ | ERUnlock _ | ELog _ _ => True
  | _ => False
  end.

(** What no operation of a turn changes: the configuration and the
    context-injection switch. *)
Definition switches `{Environment} (st : State) : AgentConfig * bool :=
  (config (agent st), autoInjectContext st).

(** Every event a run of [m] records meets [P], and the run leaves the
    switches alone. *)
Definition emits `{Environment} {A} (P : Event → Prop) (m : M A) : Prop :=
  ∀ st a st', m st = Some (a, st') →
    switches st' = switches st ∧
    ∃ evs, new_events st st' evs ∧ Forall P evs.

(** Neither an AI completion nor a tool execution, nor anything a
    handler records. *)
Definition quiet (e : Event) : Prop :=
  match e with
  | EAICall _ _ | EToolExec _ _ | EHandler _ _ => False
  | _ => True
  end.



(** The locks held when event [i] of a sequence that starts with no
    lock held happens. *)
Definition held_at (evs : list Event) (i : nat) : option (list LockId) :=
  locks_after [] (take i evs).

(** *** The monitor *)

(** The two alerts of [checkPositionChanges]. *)
Definition new_position_alert (pos : PositionSummary) : Alert :=
  (mkAlert "info" "new_position"
            ("📍 新开仓位: " +:+ Symbol pos +:+ " " +:+ Side pos +:+ " " +:+ fmt_f 4 (Size pos) +:+ " @ " +:+ fmt_f 2 (EntryPrice pos) +:+ " (" +:+ fmt_d (Leverage pos) +:+ "x)")).

Definition position_closed_alert (oldPos : PositionSummary) : Alert :=
  (mkAlert "info" "position_closed"
            ("📍 仓位已平: " +:+ Symbol oldPos +:+ " " +:+ Side oldPos +:+ " (入场价: " +:+ fmt_f 2 (EntryPrice oldPos) +:+ ")")).

(** The positions of a tick under their keys; a later position replaces
    an earlier one of the same key. *)
Definition keyed (positions : list PositionSummary) (m : gmap string PositionSummary)
  : gmap string PositionSummary :=
  foldl (fun m pos => <[position_key pos := pos]> m) m positions.

(** The calls of [Start] and [Stop] made on a monitor. *)
Inductive MonitorCall := CallStart | CallStop.

Fixpoint Monitor_calls `{Environment} (cs : list MonitorCall) : M unit :=
  match cs with
  | [] => mret tt
  | CallStart :: rest => Monitor_Start;; Monitor_calls rest
  | CallStop :: rest => Monitor_Stop;; Monitor_calls rest
  end.

(** The loops launched and the stops carried out among events. *)
Definition launches (evs : list Event) : nat :=
  length (omap (fun e => match e with EGoMonitorLoop => Some tt | _ => None end) evs).

Definition stops (evs : list Event) : nat :=
  length (omap (fun e => match e with
                         | ELog LInfo s =>
                             if decide (s = "🔍 Trading monitor stopped")
                             then Some tt else None
                         | _ => None
                         end) evs).

(** *** The trading context *)

(** The five kinds of alert the context builder raises. *)
Definition alert_kind (a : Alert) : Prop :=
  (Level a, Type_ a) ∈ [("danger", "liquidation_risk"); ("warning", "liquidation_risk");
                        ("danger", "large_loss"); ("warning", "large_loss");
                        ("info", "large_profit")].

(** What [BuildContext] keeps true of the context it fills. *)
Definition context_ok (ctx : TradingContext) : Prop :=
  Forall alert_kind (Alerts ctx) ∧
  (length (Alerts ctx) ≤ 3 * length (Positions ctx))%nat ∧
  (∀ s, is_Some (MarketPrices ctx !! s) ↔ s ∈ Symbol <$> Positions ctx) ∧
  PriceChanges24h ctx = ∅ ∧
  Forall (fun t => IsRunning t = true) (ActiveTraders ctx).

(** The identity of a listed trader. *)
Definition listed (t : TraderSummary) : string * string * string :=
  (TraderSummary_ID t, TraderSummary_Name t, Exchange t).

(** The positions the listed traders report to hold. *)
Definition reported_positions (ctx : TradingContext) : Z :=
  foldr Z.add 0 (PositionCount <$> ActiveTraders ctx).

(** *** The bot *)

(** A run of [Allow] calls, each with its clock reading and user: the
    verdicts and the limiter after. *)
Fixpoint Allow_calls (r : RateLimiter) (calls : list (Time * Z))
  : list bool * RateLimiter :=
  match calls with
  | [] => ([], r)
  | (now, userID) :: rest =>
      let '(ok, r1) := RateLimiter_Allow r now userID in
      let '(oks, r2) := Allow_calls r1 rest in
      (ok :: oks, r2)
  end.

(** The times after [cutoff] at which [userID] was let through, among
    calls paired with their verdicts. *)
Definition granted_since (cutoff : Time) (userID : Z) (log : list (Time * Z * bool))
  : list Time :=
  (fun x => x.1.1) <$> filter (fun x => x.2 = true ∧ x.1.2 = userID ∧ cutoff < x.1.1) log.

(** The calls that change the allow-list. *)
Inductive AclCall :=
  | AclAdd (userID : Z)
  | AclRemove (userID : Z).

Definition AclCall_user (c : AclCall) : Z :=
  match c with AclAdd u | AclRemove u => u end.

Definition acl_call (b : Bot) (c : AclCall) : Bot :=
  match c with
  | AclAdd u => AddAllowedUser u b
  | AclRemove u => RemoveAllowedUser u b
  end.

(** What the limiter has stored for a user. *)
Definition stored (r : RateLimiter) (userID : Z) : list Time :=
  default [] (users r !! userID).

(** The stored times agree with the log on every window that starts at
    [B] or later. *)
Definition window_ok (B : Time) (r : RateLimiter) (log : list (Time * Z * bool)) : Prop :=
  ∀ u c, B <= c → filter (λ t, c < t) (stored r u) = granted_since c u log.

(** [text] is the chunks in order, each followed by a line feed or by
    nothing. *)
Inductive rebuilt : list string → string → Prop :=
  | rebuilt_nil : rebuilt [] ""
  | rebuilt_cut chunk chunks rest :
      rebuilt chunks rest → rebuilt (chunk :: chunks) (chunk +:+ rest)
  | rebuilt_line chunk chunks rest :
      rebuilt chunks rest → rebuilt (chunk :: chunks) (chunk +:+ newline +:+ rest).

(** The chunks among [Send] calls: each is tried with markdown first. *)
Definition chunks_of (sent : list (string * bool)) : list string :=
  (filter (fun x => x.2 = true) sent).*1.

(** A chunk fits one message. *)
Definition fits (x : string * bool) : Prop :=
  (0 < String.length x.1)%nat ∧ Z.of_nat (String.length x.1) <= sendLongMessage_maxLen.

(** [handleText] up to the turn, for a text that is not empty: the
    typing notice, the chat's session with the sender as its user, the
    log line. *)
Definition handleText_before `{GoRuntime} `{Environment} (c : TeleContext)
    (text : string) : M unit :=
  modify (fun st => set_world (tele_Notify c (world st)) st);;
  session ← Agent_GetSession (getSessionID (tele_ChatID c));
  SetUserInfo session (fmt_d (tele_SenderID c)) (tele_Username c) "telegram";;
  emit (ELog LInfo ("💬 [" +:+ getSessionID (tele_ChatID c) +:+ "] "
                      +:+ tele_Username c +:+ ": " +:+ text)).

(** What [handleText] sends when the turn fails. *)
Definition handleText_apology : string :=
  "❌ Sorry, something went wrong. Please try again.

抱歉，出现了问题，请重试。".


Section SliceFacts.
Context `{GoRuntime}.

Lemma heap_le_refl h : heap_le h h.
Proof. intros l a Hl. eauto. Qed.

Lemma heap_le_trans h1 h2 h3 : heap_le h1 h2 → heap_le h2 h3 → heap_le h1 h3.
Proof.
  intros H12 H23 l a Hl.
  destruct (H12 _ _ Hl) as (a2 & Hl2 & Hlen2).
  destruct (H23 _ _ Hl2) as (a3 & Hl3 & Hlen3).
  exists a3. split; [done | congruence].
Qed.

Lemma heap_le_dom h h' l : heap_le h h' → l ∈ dom h → l ∈ dom h'.
Proof.
  intros Hle [a Ha]%elem_of_dom. destruct (Hle _ _ Ha) as (a' & Ha' & _).
  apply elem_of_dom. eauto.
Qed.

Lemma slice_wf_heap_le h h' s : heap_le h h' → slice_wf h s → slice_wf h' s.
Proof.
  intros Hle (a & Ha & Hcap & Hlen).
  destruct (Hle _ _ Ha) as (a' & Ha' & Hl).
  exists a'. rewrite Hl. done.
Qed.

Lemma slice_wf_dom h s : slice_wf h s → s_ptr s ∈ dom h.
Proof. intros (a & Ha & _). apply elem_of_dom. eauto. Qed.

Lemma fresh_loc_fresh h : fresh_loc h ∉ dom h.
Proof. unfold fresh_loc. apply is_fresh. Qed.

Lemma fresh_loc_None h : h !! fresh_loc h = None.
Proof. apply not_elem_of_dom, fresh_loc_fresh. Qed.

Lemma heap_le_alloc h a : heap_le h (<[fresh_loc h := a]> h).
Proof.
  intros l b Hl. exists b. split; [|done].
  rewrite lookup_insert_ne; [done|].
  intros <-. rewrite fresh_loc_None in Hl. done.
Qed.

Lemma array_at_Some (h : heap) l a : h !! l = Some a → array_at h l = a.
Proof. intros Hl. unfold array_at. by rewrite Hl. Qed.

Lemma array_at_insert_eq (h : heap) l a : array_at (<[l := a]> h) l = a.
Proof. apply array_at_Some, lookup_insert_eq. Qed.

Lemma array_at_alloc h a l :
  l ∈ dom h → array_at (<[fresh_loc h := a]> h) l = array_at h l.
Proof.
  intros Hl. unfold array_at. rewrite lookup_insert_ne; [done|].
  intros <-. by apply fresh_loc_fresh in Hl.
Qed.

Lemma slice_view_alloc h a s :
  s_ptr s ∈ dom h → slice_view (<[fresh_loc h := a]> h) s = slice_view h s.
Proof. intros Hs. unfold slice_view. by rewrite array_at_alloc. Qed.

Lemma array_at_write_eq h l i xs :
  array_at (array_write h l i xs) l
  = take i (array_at h l) ++ xs ++ drop (i + length xs) (array_at h l).
Proof. unfold array_write, array_at at 1. by rewrite lookup_insert_eq. Qed.

Lemma array_at_write_ne h l l' i xs :
  l ≠ l' → array_at (array_write h l i xs) l' = array_at h l'.
Proof.
  intros Hne. unfold array_write, array_at at 1.
  by rewrite lookup_insert_ne.
Qed.

Lemma slice_view_write_ne h l i xs s :
  l ≠ s_ptr s → slice_view (array_write h l i xs) s = slice_view h s.
Proof. intros Hne. unfold slice_view. by rewrite array_at_write_ne. Qed.

Lemma array_write_length (i : nat) (xs a : list Message) :
  (i + length xs ≤ length a)%nat →
  length (take i a ++ xs ++ drop (i + length xs) a) = length a.
Proof.
  intros Hle. rewrite !length_app, length_take, length_drop. lia.
Qed.

Lemma heap_le_write h l i xs :
  (i + length xs ≤ length (array_at h l))%nat → l ∈ dom h →
  heap_le h (array_write h l i xs).
Proof.
  intros Hle [a Ha]%elem_of_dom l' b Hb. unfold array_write.
  destruct (decide (l = l')) as [<-|Hne].
  - rewrite lookup_insert_eq. eexists; split; [done|].
    rewrite (array_at_Some _ _ _ Ha) in *.
    assert (b = a) as -> by congruence.
    by apply array_write_length.
  - rewrite lookup_insert_ne by done. eauto.
Qed.

Lemma slice_view_length h s : slice_wf h s → length (slice_view h s) = s_len s.
Proof.
  intros (a & Ha & Hcap & Hlen). unfold slice_view.
  rewrite (array_at_Some _ _ _ Ha), length_take, length_drop. lia.
Qed.

Lemma window_overwrite (a v : list Message) (off : nat) :
  (off + length v ≤ length a)%nat →
  take (length v) (drop off (take off a ++ v ++ drop (off + length v) a)) = v.
Proof.
  intros Hle.
  rewrite drop_app_ge by (rewrite length_take; lia).
  rewrite length_take, Nat.min_l by lia.
  rewrite Nat.sub_diag, drop_0. by rewrite take_app_length.
Qed.

Lemma window_extend (a : list Message) (off len : nat) (m : Message) :
  (off + len < length a)%nat →
  take (S len) (drop off (take (off + len) a ++ [m] ++ drop (off + len + length [m]) a))
  = take len (drop off a) ++ [m].
Proof.
  intros Hlt.
  rewrite drop_app_le by (rewrite length_take; lia).
  rewrite <- take_drop_commute.
  rewrite take_app.
  rewrite length_take, length_drop, Nat.min_l by lia.
  rewrite take_take, Nat.min_r by lia.
  replace (S len - len)%nat with 1%nat by lia. done.
Qed.

Lemma go_append_spec h s m h' s' :
  slice_wf h s → go_append h s m = (h', s') →
  slice_view h' s' = slice_view h s ++ [m] ∧
  s_len s' = S (s_len s) ∧
  slice_wf h' s' ∧ heap_le h h' ∧
  (∀ t, s_ptr t ∈ dom h → s_ptr t ≠ s_ptr s → slice_view h' t = slice_view h t).
Proof.
  intros Hwf Happ. pose proof Hwf as (a & Ha & Hcap & Hlen).
  unfold go_append in Happ. case_decide as Hroom.
  - injection Happ as <- <-. simpl.
    assert (Harr : array_at h (s_ptr s) = a) by by apply array_at_Some.
    split_and!.
    + unfold slice_view at 1. simpl. rewrite array_at_write_eq, Harr.
      unfold slice_view. rewrite Harr. apply window_extend. lia.
    + done.
    + unfold array_write. eexists. cbn [s_ptr s_off s_len s_cap].
      rewrite lookup_insert_eq.
      split_and!; [done| |lia].
      rewrite Harr, array_write_length; simpl; lia.
    + apply heap_le_write; [rewrite Harr; simpl; lia|].
      apply elem_of_dom; eauto.
    + intros t _ Hne. by apply slice_view_write_ne.
  - injection Happ as <- <-. simpl.
    pose proof (slice_view_length _ _ Hwf) as Hvl.
    split_and!.
    + unfold slice_view at 1. cbn [s_ptr s_off s_len s_cap].
      rewrite array_at_insert_eq, drop_0, take_app, Hvl.
      rewrite take_ge by lia.
      replace (S (s_len s) - s_len s)%nat with 1%nat by lia. done.
    + done.
    + eexists. simpl. rewrite lookup_insert_eq. split_and!; [done| |lia].
      rewrite length_app. simpl. rewrite length_replicate, Hvl. lia.
    + apply heap_le_alloc.
    + intros t Ht _. by apply slice_view_alloc.
Qed.

Lemma go_slice_from_spec h s lo s' :
  slice_wf h s → go_slice_from s lo = Some s' →
  slice_view h s' = drop (Z.to_nat lo) (slice_view h s) ∧
  s_ptr s' = s_ptr s ∧ slice_wf h s'.
Proof.
  intros (a & Ha & Hcap & Hlen) Hs. unfold go_slice_from in Hs.
  case_decide as Hlo; [|done]. injection Hs as <-. simpl.
  split_and!; [|done|].
  - unfold slice_view. cbn [s_ptr s_off s_len s_cap].
    rewrite <- drop_drop, take_drop_commute.
    replace (Z.to_nat lo + (s_len s - Z.to_nat lo))%nat with (s_len s) by lia.
    done.
  - exists a. simpl. split_and!; [done|lia|lia].
Qed.

Lemma go_make_spec h n h' r :
  go_make h n = (h', r) →
  slice_view h' r = replicate n zeroMessage ∧ s_len r = n ∧
  (s_ptr r ∉ dom h) ∧ slice_wf h' r ∧ heap_le h h' ∧
  (∀ t, s_ptr t ∈ dom h → slice_view h' t = slice_view h t).
Proof.
  unfold go_make. intros [= <- <-]. simpl. split_and!.
  - unfold slice_view. cbn [s_ptr s_off s_len s_cap].
    rewrite array_at_insert_eq, drop_0, take_ge; [done|]. by rewrite length_replicate.
  - done.
  - apply fresh_loc_fresh.
  - eexists. simpl. rewrite lookup_insert_eq. split_and!; [done| |done].
    by rewrite length_replicate.
  - apply heap_le_alloc.
  - intros t Ht. by apply slice_view_alloc.
Qed.

Lemma go_copy_spec h dst src :
  slice_wf h dst → slice_wf h src →
  s_ptr dst ≠ s_ptr src → s_len dst = s_len src →
  slice_view (go_copy h dst src) dst = slice_view h src ∧
  heap_le h (go_copy h dst src) ∧
  (∀ t, s_ptr t ≠ s_ptr dst → slice_view (go_copy h dst src) t = slice_view h t).
Proof.
  intros Hd Hs Hne Hlen. pose proof (slice_view_length _ _ Hs) as Hvl.
  pose proof Hd as (a & Ha & Hcap & Hl).
  assert (Harr : array_at h (s_ptr dst) = a) by by apply array_at_Some.
  unfold go_copy. rewrite Hlen, Nat.min_id.
  rewrite (take_ge (slice_view h src)) by lia.
  split_and!.
  - unfold slice_view at 1. rewrite array_at_write_eq, Harr.
    rewrite Hlen, <- Hvl. apply window_overwrite. lia.
  - apply heap_le_write; [rewrite Harr; lia|]. by apply slice_wf_dom.
  - intros t Ht. by apply slice_view_write_ne.
Qed.

Lemma go_store_frame h s i m h' t :
  go_store h s i m = Some h' → s_ptr t ≠ s_ptr s →
  slice_view h' t = slice_view h t.
Proof.
  unfold go_store. case_decide; [|done]. intros [= <-] Hne.
  by apply slice_view_write_ne.
Qed.

End SliceFacts.

(** ** session.go: the bounded history *)

Section SessionFacts.
Context `{GoRuntime}.

Lemma lastn_length {A} (k : nat) (l : list A) :
  length (lastn k l) = Nat.min (length l) k.
Proof. unfold lastn. rewrite length_drop. lia. Qed.

Lemma lastn_all {A} (k : nat) (l : list A) :
  (length l ≤ k)%nat → lastn k l = l.
Proof.
  intros Hle. unfold lastn.
  replace (length l - k)%nat with 0%nat by lia. apply drop_0.
Qed.

Lemma lastn_snoc {A} (k : nat) (l : list A) (x : A) :
  lastn k (lastn k l ++ [x]) = lastn k (l ++ [x]).
Proof.
  unfold lastn. rewrite !length_app, length_drop. simpl.
  rewrite !drop_app, drop_drop, length_drop.
  f_equal; f_equal; lia.
Qed.

Lemma lastn_lastn_app {A} (k : nat) (l1 l2 : list A) :
  lastn k (lastn k l1 ++ l2) = lastn k (l1 ++ l2).
Proof.
  revert l1. induction l2 as [|x l2 IH]; intros l1.
  - rewrite !app_nil_r. unfold lastn at 1. rewrite lastn_length.
    replace (length l1 `min` k - k)%nat with 0%nat by lia. apply drop_0.
  - rewrite !(cons_middle x), !app_assoc.
    rewrite <- (IH (lastn k l1 ++ [x])), <- (IH (l1 ++ [x])).
    by rewrite lastn_snoc.
Qed.

(** One [AddMessage]: the new history is the old one with the message
    appended, cut to its last [maxMessages] entries. Other arrays of the
    heap are left alone. *)
Lemma Session_AddMessage_spec h s msg now :
  slice_wf h (messages s) → 0 <= maxMessages s →
  ∃ h' s',
    Session_AddMessage h s msg now = Some (h', s') ∧
    slice_view h' (messages s')
      = lastn (Z.to_nat (maxMessages s)) (slice_view h (messages s) ++ [msg]) ∧
    slice_wf h' (messages s') ∧
    maxMessages s' = maxMessages s ∧ ID s' = ID s ∧
    heap_le h h' ∧
    (∀ t, s_ptr t ∈ dom h → s_ptr t ≠ s_ptr (messages s) →
          slice_view h' t = slice_view h t).
Proof.
  intros Hwf Hmax. unfold Session_AddMessage.
  destruct (go_append h (messages s) msg) as [h1 ms] eqn:Happ.
  destruct (go_append_spec _ _ _ _ _ Hwf Happ) as (Hview & Hlen & Hwf1 & Hle & Hframe).
  pose proof (slice_view_length _ _ Hwf) as Hvl.
  case_decide as Hover.
  - destruct (go_slice_from ms (Z.of_nat (s_len ms) - maxMessages s)) as [ms'|] eqn:Hsl.
    2:{ unfold go_slice_from in Hsl. case_decide; [done|lia]. }
    destruct (go_slice_from_spec _ _ _ _ Hwf1 Hsl) as (Hv' & Hp' & Hwf').
    exists h1, (set_messages ms' (set_UpdatedAt now (set_messages ms s))).
    simpl. split_and!; try done.
    rewrite Hv', Hview. unfold lastn. rewrite length_app, Hvl. simpl.
    f_equal. lia.
  - exists h1, (set_UpdatedAt now (set_messages ms s)).
    simpl. split_and!; try done.
    rewrite Hview, lastn_all; [done|]. rewrite length_app, Hvl. simpl. lia.
Qed.

(** Any number of [AddMessage] calls on a session within its capacity. *)
Lemma Session_AddMessages_spec msgs : ∀ h s,
  slice_wf h (messages s) → 0 <= maxMessages s →
  Z.of_nat (s_len (messages s)) <= maxMessages s →
  ∃ h' s',
    Session_AddMessages h s msgs = Some (h', s') ∧
    slice_view h' (messages s')
      = lastn (Z.to_nat (maxMessages s)) (slice_view h (messages s) ++ msgs.*1) ∧
    slice_wf h' (messages s') ∧
    maxMessages s' = maxMessages s ∧ heap_le h h'.
Proof.
  induction msgs as [|[m t] rest IH]; intros h s Hwf Hmax Hlen.
  - exists h, s. simpl. rewrite app_nil_r. split_and!; try done.
    + rewrite lastn_all; [done|]. rewrite slice_view_length by done. lia.
    + apply heap_le_refl.
  - destruct (Session_AddMessage_spec h s m t Hwf Hmax)
      as (h1 & s1 & Hadd & Hview1 & Hwf1 & Hmax1 & _ & Hle1 & _).
    destruct (IH h1 s1) as (h2 & s2 & Hadds & Hview2 & Hwf2 & Hmax2 & Hle2).
    + done.
    + lia.
    + rewrite <- (slice_view_length h1) by done.
      rewrite Hview1, lastn_length, Hmax1. lia.
    + exists h2, s2. simpl. rewrite Hadd. simpl. split_and!; try done.
      * rewrite Hview2, Hview1, Hmax1, lastn_lastn_app.
        by rewrite <- app_assoc.
      * congruence.
      * by eapply heap_le_trans.
Qed.

Lemma NewSession_spec h id maxMsgs t1 t2 h0 s0 :
  NewSession h id maxMsgs t1 t2 = (h0, s0) →
  slice_view h0 (messages s0) = [] ∧ s_len (messages s0) = 0%nat ∧
  slice_wf h0 (messages s0) ∧ maxMessages s0 = maxMsgs ∧ ID s0 = id ∧
  heap_le h h0.
Proof.
  unfold NewSession. destruct (go_make h 0) as [h1 ms] eqn:Hmk.
  intros [= <- <-]. simpl.
  destruct (go_make_spec _ _ _ _ Hmk) as (Hv & Hl & _ & Hwf & Hle & _).
  split_and!; done.
Qed.

(** [GetMessages] hands out the history on an array of its own. *)
Lemma Session_GetMessages_spec h s h' r :
  slice_wf h (messages s) → Session_GetMessages h s = (h', r) →
  slice_view h' r = slice_view h (messages s) ∧
  (s_ptr r ∉ dom h) ∧ s_ptr r ≠ s_ptr (messages s) ∧
  slice_view h' (messages s) = slice_view h (messages s) ∧
  slice_wf h' r ∧ heap_le h h' ∧
  (∀ t, s_ptr t ∈ dom h → slice_view h' t = slice_view h t).
Proof.
  intros Hwf. unfold Session_GetMessages.
  destruct (go_make h (s_len (messages s))) as [h1 res] eqn:Hmk.
  intros [= <- <-].
  destruct (go_make_spec _ _ _ _ Hmk) as (Hv & Hl & Hfresh & Hwfr & Hle & Hframe).
  assert (Hne : s_ptr res ≠ s_ptr (messages s)).
  { intros Heq. apply Hfresh. rewrite Heq. by apply slice_wf_dom. }
  destruct (go_copy_spec h1 res (messages s)) as (Hcv & Hcle & Hcframe); try done.
  { by eapply slice_wf_heap_le. }
  split_and!; try done.
  - rewrite Hcv. apply Hframe. by apply slice_wf_dom.
  - rewrite Hcframe by done. apply Hframe. by apply slice_wf_dom.
  - by eapply slice_wf_heap_le.
  - by eapply heap_le_trans.
  - intros t Ht. rewrite Hcframe; [by apply Hframe|].
    intros Heq. apply Hfresh. by rewrite <- Heq.
Qed.

(** C3. A session created with capacity [M >= 0] that has received the
    messages [msgs] by sequential [AddMessage] calls answers
    [GetMessages] with the last [min N M] of them, in insertion order
    ([N] their number); the answer lives on a newly allocated array, so
    storing into it leaves the session's history as it is, and a later
    [AddMessage] leaves the answer as it is. *)
Theorem Session_history_last_M (h : heap) (id : string) (M : Z) (t1 t2 : Time)
    (msgs : list (Message * Time)) (h0 : heap) (s0 : Session) :
  0 <= M →
  NewSession h id M t1 t2 = (h0, s0) →
  ∃ h1 s1 h2 r,
    Session_AddMessages h0 s0 msgs = Some (h1, s1) ∧
    Session_GetMessages h1 s1 = (h2, r) ∧
    length (slice_view h2 r) = Nat.min (length msgs) (Z.to_nat M) ∧
    slice_view h2 r = lastn (Nat.min (length msgs) (Z.to_nat M)) (msgs.*1) ∧
    (s_ptr r ∉ dom h1) ∧ s_ptr r ≠ s_ptr (messages s1) ∧
    (∀ i x h3, go_store h2 r i x = Some h3 →
               slice_view h3 (messages s1) = slice_view h2 (messages s1)) ∧
    (∀ m t h3 s3, Session_AddMessage h2 s1 m t = Some (h3, s3) →
                  slice_view h3 r = slice_view h2 r).
Proof.
  intros HM Hnew.
  destruct (NewSession_spec _ _ _ _ _ _ _ Hnew) as (Hv0 & Hl0 & Hwf0 & Hmax0 & _ & _).
  destruct (Session_AddMessages_spec msgs h0 s0) as (h1 & s1 & Hadd & Hv1 & Hwf1 & Hmax1 & _);
    [done|lia|lia|].
  destruct (Session_GetMessages h1 s1) as [h2 r] eqn:Hget.
  destruct (Session_GetMessages_spec _ _ _ _ Hwf1 Hget)
    as (Hvr & Hfresh & Hne & Hvs & Hwfr & Hle & _).
  exists h1, s1, h2, r.
  assert (Hlast : slice_view h2 r = lastn (Z.to_nat M) (msgs.*1)).
  { rewrite Hvr, Hv1, Hv0, Hmax0. done. }
  split_and!; try done.
  - rewrite Hlast, lastn_length, length_fmap. done.
  - rewrite Hlast. unfold lastn. rewrite length_fmap. f_equal. lia.
  - intros i x h3 Hst. eapply go_store_frame; [done|]. congruence.
  - intros m t h3 s3 Hadd3.
    destruct (Session_AddMessage_spec h2 s1 m t) as (h3' & s3' & Hadd3' & _ & _ & _ & _ & _ & Hfr).
    + by eapply slice_wf_heap_le.
    + lia.
    + rewrite Hadd3 in Hadd3'. injection Hadd3' as <- <-.
      apply Hfr; [by apply slice_wf_dom|done].
Qed.

End SessionFacts.

(** ** Strings *)

Section StringFacts.

Lemma append_cons c s t : String c s +:+ t = String c (s +:+ t).
Proof. reflexivity. Qed.

Lemma str_take_drop n s : str_take n s +:+ str_drop n s = s.
Proof.
  revert s. induction n as [|n IH]; intros [|c s]; simpl; try done.
  by rewrite append_cons, IH.
Qed.

Lemma str_drop_drop a b s : str_drop a (str_drop b s) = str_drop (b + a) s.
Proof.
  revert s. induction b as [|b IH]; intros s; [done|].
  destruct s as [|c s]; simpl; [by destruct a|apply IH].
Qed.

Lemma get_drop n k s : String.get n (str_drop k s) = String.get (k + n) s.
Proof.
  revert s. induction k as [|k IH]; intros s; [done|].
  destruct s as [|c s]; simpl; [by destruct n|apply IH].
Qed.

Lemma get_take n m s : (n < m)%nat → String.get n (str_take m s) = String.get n s.
Proof.
  revert n s. induction m as [|m IH]; intros n s Hlt; [lia|].
  destruct s as [|c s]; simpl; [done|].
  destruct n as [|n]; [done|]. apply IH. lia.
Qed.

Lemma get_Some_length n s c : String.get n s = Some c → (n < String.length s)%nat.
Proof.
  revert n. induction s as [|a s IH]; intros n; simpl; [done|].
  destruct n as [|n]; [lia|]. intros Hg. apply IH in Hg. lia.
Qed.

Lemma length_str_take n s : String.length (str_take n s) = Nat.min n (String.length s).
Proof.
  revert s. induction n as [|n IH]; intros [|c s]; simpl; try done.
  by rewrite IH.
Qed.

Lemma length_str_drop n s : String.length (str_drop n s) = (String.length s - n)%nat.
Proof.
  revert s. induction n as [|n IH]; intros [|c s]; simpl; done.
Qed.

Lemma prefix_char c s :
  String.prefix (String c EmptyString) s = true ↔ String.get 0 s = Some c.
Proof.
  destruct s as [|a s]; simpl; [done|].
  destruct (ascii_dec c a) as [->|Hne]; [by destruct s|].
  split; [done|]. intros [= ->]. done.
Qed.

(** [strings.Index] of a one-byte string finds the first such byte. *)
Lemma index_from_char c s : ∀ k, 0 <= k →
  let i := index_from (String c EmptyString) s k in
  (i = -1 ∧ ∀ n, String.get n s ≠ Some c) ∨
  (k <= i ∧ String.get (Z.to_nat (i - k)) s = Some c ∧
   ∀ n, (n < Z.to_nat (i - k))%nat → String.get n s ≠ Some c).
Proof.
  induction s as [|a s IH]; intros k Hk; cbn zeta.
  - left. done.
  - cbn [index_from].
    destruct (String.prefix (String c EmptyString) (String a s)) eqn:Hp.
    + right. apply prefix_char in Hp. rewrite Z.sub_diag. split_and!; [lia|done|].
      intros n Hn. simpl in Hn. lia.
    + assert (Hne : a ≠ c).
      { intros ->. assert (Ht : String.prefix (String c EmptyString) (String c s) = true)
          by by apply prefix_char. congruence. }
      destruct (IH (k + 1) ltac:(lia)) as [[Hi Hnone]|(Hle & Hget & Hmin)].
      * left. split; [done|]. intros [|n]; simpl; [congruence|apply Hnone].
      * right. split_and!; [lia| |].
        -- replace (Z.to_nat (index_from (String c EmptyString) s (k + 1) - k))
             with (S (Z.to_nat (index_from (String c EmptyString) s (k + 1) - (k + 1))))
             by lia.
           done.
        -- intros [|n] Hn; simpl; [congruence|]. apply Hmin. lia.
Qed.

(** [strings.LastIndex] of a one-byte string finds the last such byte. *)
Lemma last_index_from_char c s : ∀ k, 0 <= k →
  let j := last_index_from (String c EmptyString) s k in
  (j = -1 ∧ ∀ n, String.get n s ≠ Some c) ∨
  (k <= j ∧ String.get (Z.to_nat (j - k)) s = Some c ∧
   ∀ n, (Z.to_nat (j - k) < n)%nat → String.get n s ≠ Some c).
Proof.
  induction s as [|a s IH]; intros k Hk; cbn zeta.
  - left. done.
  - cbn [last_index_from].
    destruct (IH (k + 1) ltac:(lia)) as [[Hj Hnone]|(Hle & Hget & Hmax)].
    + rewrite Hj. rewrite bool_decide_eq_false_2 by lia.
      destruct (String.prefix (String c EmptyString) (String a s)) eqn:Hp.
      * right. apply prefix_char in Hp. rewrite Z.sub_diag.
        split_and!; [lia|done|]. intros [|n] Hn; [simpl in Hn; lia|]. apply Hnone.
      * left. split; [done|]. intros [|n]; [|apply Hnone]. simpl. intros [= ->].
        assert (Ht : String.prefix (String c EmptyString) (String c s) = true)
          by by apply prefix_char. congruence.
    + rewrite bool_decide_eq_true_2 by lia. right. split_and!; [lia| |].
      * replace (Z.to_nat (last_index_from (String c EmptyString) s (k + 1) - k))
          with (S (Z.to_nat (last_index_from (String c EmptyString) s (k + 1) - (k + 1))))
          by lia.
        done.
      * intros [|n] Hn; [lia|]. simpl. apply Hmax. lia.
Qed.

(** Cutting a string at two offsets loses nothing. *)
Lemma str_cut s lo hi :
  0 <= lo <= hi → str_to s lo +:+ str_range s lo hi +:+ str_from s hi = s.
Proof.
  intros Hr. unfold str_to, str_range, str_from.
  replace (Z.to_nat hi) with (Z.to_nat lo + (Z.to_nat hi - Z.to_nat lo))%nat at 2 by lia.
  rewrite <- str_drop_drop, str_take_drop. apply str_take_drop.
Qed.

End StringFacts.

(** ** The context builder: P&L percent and alerts *)

Section ContextFacts.
Context `{GoRuntime}.

Lemma SFcompare_antisym x y c :
  SFcompare x y = Some c → SFcompare y x = Some (CompOpp c).
Proof.
  destruct x as [sx|sx| |sx mx ex], y as [sy|sy| |sy my ey]; simpl;
    try discriminate; intros [= <-]; try (by destruct sx); try (by destruct sy);
    try (by destruct sx, sy).
  f_equal. rewrite (Z.compare_antisym ex ey).
  destruct sx, sy; try done.
  - destruct (ex ?= ey)%Z; simpl; try done.
    rewrite (ZC4 my mx). by destruct (Pos.compare_cont Eq mx my).
  - destruct (ex ?= ey)%Z; simpl; try done.
    rewrite (ZC4 my mx). by destruct (Pos.compare_cont Eq mx my).
Qed.

(** [y <= x] rules out [x < y]. *)
Lemma float_leb_not_ltb (x y : float) :
  PrimFloat.leb y x = true → PrimFloat.ltb x y = false.
Proof.
  rewrite FloatAxioms.leb_spec, FloatAxioms.ltb_spec. unfold SFleb, SFltb.
  destruct (SFcompare (Prim2SF y) (Prim2SF x)) as [c|] eqn:Hc; [|done].
  rewrite (SFcompare_antisym _ _ _ Hc). by destruct c.
Qed.


Lemma Alerts_add_alert a ctx : Alerts (add_alert a ctx) = Alerts ctx ++ [a].
Proof. done. Qed.

Lemma at_least_10_not_below_5 (d : float) :
  PrimFloat.leb 10 d = true → PrimFloat.ltb d 5 = false.
Proof.
  rewrite !FloatAxioms.leb_spec, !FloatAxioms.ltb_spec. unfold SFleb, SFltb.
  change (Prim2SF 10) with (S754_finite false 5629499534213120 (-49)).
  change (Prim2SF 5) with (S754_finite false 5629499534213120 (-50)).
  destruct (Prim2SF d) as [s|s| |s m e]; unfold SFcompare;
    try (destruct s; congruence); try congruence.
  destruct s; [congruence|].
  destruct (Z.compare_spec (-49) e), (Z.compare_spec e (-50)); try lia; congruence.
Qed.

Lemma at_least_minus_10_not_below_minus_20 (x : float) :
  PrimFloat.leb (-10) x = true → PrimFloat.ltb x (-20) = false.
Proof.
  rewrite !FloatAxioms.leb_spec, !FloatAxioms.ltb_spec. unfold SFleb, SFltb.
  change (Prim2SF (-10)) with (S754_finite true 5629499534213120 (-49)).
  change (Prim2SF (-20)) with (S754_finite true 5629499534213120 (-48)).
  destruct (Prim2SF x) as [s|s| |s m e]; unfold SFcompare;
    try (destruct s; congruence); try congruence.
  destruct s; [|congruence].
  destruct (Z.compare_spec (-49) e), (Z.compare_spec e (-48)); try lia; congruence.
Qed.

(** The alerts of one position: at most one per kind, liquidation first,
    then loss, then profit. *)
Lemma new_alerts_shape ctx pos :
  ∃ m1 m2 m3 m4 m5,
    new_alerts ctx pos
    = (if float_gt0 (LiquidationPrice pos) && float_gt0 (MarkPrice pos) then
         if PrimFloat.ltb (distancePercent pos) 5
         then [mkAlert "danger" "liquidation_risk" m1]
         else if PrimFloat.ltb (distancePercent pos) 10
              then [mkAlert "warning" "liquidation_risk" m2]
              else []
       else [])
      ++ (if PrimFloat.ltb (PnLPercent pos) (-20)
          then [mkAlert "danger" "large_loss" m3]
          else if PrimFloat.ltb (PnLPercent pos) (-10)
               then [mkAlert "warning" "large_loss" m4]
               else [])
      ++ (if PrimFloat.ltb 50 (PnLPercent pos)
          then [mkAlert "info" "large_profit" m5]
          else []).
Proof.
  unfold new_alerts, checkPositionAlerts.
  destruct (float_gt0 (LiquidationPrice pos) && float_gt0 (MarkPrice pos));
  destruct (PrimFloat.ltb (distancePercent pos) 5);
  destruct (PrimFloat.ltb (distancePercent pos) 10);
  destruct (PrimFloat.ltb (PnLPercent pos) (-20));
  destruct (PrimFloat.ltb (PnLPercent pos) (-10));
  destruct (PrimFloat.ltb 50 (PnLPercent pos));
  rewrite ?Alerts_add_alert, <- ?app_assoc, ?drop_app_length;
  eexists _, _, _, _, _; try reflexivity;
  rewrite <- (app_nil_r (Alerts ctx)) at 2; by rewrite drop_app_length.
  Unshelve. all: exact EmptyString.
Qed.

Lemma levels_of_cons_eq ty lvl msg rest :
  levels_of ty (mkAlert lvl ty msg :: rest) = lvl :: levels_of ty rest.
Proof. unfold levels_of. rewrite filter_cons. by rewrite decide_True. Qed.

Lemma levels_of_cons_ne ty ty' lvl msg rest :
  ty' ≠ ty → levels_of ty (mkAlert lvl ty' msg :: rest) = levels_of ty rest.
Proof. intros Hne. unfold levels_of. rewrite filter_cons. by rewrite decide_False. Qed.

Lemma levels_of_app ty l1 l2 : levels_of ty (l1 ++ l2) = levels_of ty l1 ++ levels_of ty l2.
Proof. unfold levels_of. by rewrite filter_app, fmap_app. Qed.

(** C5. What one position adds to the alerts of a context, by type:
    with mark and liquidation price above zero, one danger alert of type
    liquidation_risk when the distance is below 5, one warning when it
    is at least 5 and below 10, none when it is at least 10; one danger
    alert of type large_loss when the P&L percent is below -20, one
    warning when it is at least -20 and below -10, none when it is at
    least -10; one info alert of type large_profit when it is above 50. *)
Theorem checkPositionAlerts_thresholds (ctx : TradingContext) (pos : PositionSummary) :
  let new := new_alerts ctx pos in
  let d := distancePercent pos in
  let pnl := PnLPercent pos in
  let liq := levels_of "liquidation_risk" new in
  let loss := levels_of "large_loss" new in
  let profit := levels_of "large_profit" new in
  Alerts (checkPositionAlerts ctx pos) = Alerts ctx ++ new ∧
  (Side pos = "long" →
     d = (((MarkPrice pos - LiquidationPrice pos) / MarkPrice pos) * 100)%float) ∧
  (Side pos ≠ "long" →
     d = (((LiquidationPrice pos - MarkPrice pos) / MarkPrice pos) * 100)%float) ∧
  (float_gt0 (MarkPrice pos) = true → float_gt0 (LiquidationPrice pos) = true →
     (PrimFloat.ltb d 5 = true → liq = ["danger"]) ∧
     (PrimFloat.leb 5 d = true → PrimFloat.ltb d 10 = true → liq = ["warning"]) ∧
     (PrimFloat.leb 10 d = true → liq = [])) ∧
  (PrimFloat.ltb pnl (-20) = true → loss = ["danger"]) ∧
  (PrimFloat.leb (-20) pnl = true → PrimFloat.ltb pnl (-10) = true →
     loss = ["warning"]) ∧
  (PrimFloat.leb (-10) pnl = true → loss = []) ∧
  (PrimFloat.ltb 50 pnl = true → profit = ["info"]).
Proof.
  cbn zeta. destruct (new_alerts_shape ctx pos) as (m1 & m2 & m3 & m4 & m5 & Hnew).
  split.
  { unfold new_alerts. rewrite <- (take_drop (length (Alerts ctx))
      (Alerts (checkPositionAlerts ctx pos))) at 1.
    f_equal. unfold checkPositionAlerts.
    repeat match goal with
           | |- context [if ?b then _ else _] => destruct b
           end;
    rewrite ?Alerts_add_alert, <- ?app_assoc; try apply take_app_length;
    apply take_ge; lia. }
  rewrite Hnew, !levels_of_app.
  split_and!.
  - intros Hl. unfold distancePercent. by rewrite decide_True.
  - intros Hl. unfold distancePercent. by rewrite decide_False.
  - intros Hmark Hliq. rewrite Hliq, Hmark. cbn [andb]. split_and!.
    + intros ->. rewrite levels_of_cons_eq.
      repeat case_match; rewrite ?levels_of_cons_ne by done; done.
    + intros H5%float_leb_not_ltb ->. rewrite H5, levels_of_cons_eq.
      repeat case_match; rewrite ?levels_of_cons_ne by done; done.
    + intros H10. rewrite (at_least_10_not_below_5 _ H10).
      rewrite (float_leb_not_ltb _ _ H10).
      repeat case_match; rewrite ?levels_of_cons_ne by done; done.
  - intros ->. rewrite levels_of_cons_eq.
    repeat case_match; rewrite ?levels_of_cons_ne by done; done.
  - intros H20%float_leb_not_ltb ->. rewrite H20, levels_of_cons_eq.
    repeat case_match; rewrite ?levels_of_cons_ne by done; done.
  - intros H10. rewrite (at_least_minus_10_not_below_minus_20 _ H10).
    rewrite (float_leb_not_ltb _ _ H10).
    repeat case_match; rewrite ?levels_of_cons_ne by done; done.
  - intros ->. rewrite levels_of_cons_eq.
    repeat case_match; rewrite ?levels_of_cons_ne by done; done.
Qed.

End ContextFacts.

(** ** The monad *)

(** Projections of explicit states. *)
Ltac st_simpl :=
  cbn [world mem agent autoInjectContext traderManager monitor trace
       set_world set_mem set_agent set_monitor set_trace
       aiClient tools sessions config systemPrompt
       set_tools set_sessions set_systemPrompt
       alertCallbacks running interval lastPositions lastAlerts
       set_alertCallbacks set_running set_interval set_lastPositions set_lastAlerts
       fst snd] in *.

(** Unfold the monad's operations. *)
Ltac m_unfold :=
  unfold mbind, mret, M_bind, M_ret, bind, ret, gets, modify, emit, emit_all,
         call_world, now, panic in *.

Section MonadFacts.
Context `{GoRuntime} `{Environment}.

Lemma bind_Some {A B} (m : M A) (k : A → M B) st b st'' :
  (m ≫= k) st = Some (b, st'') ↔
  ∃ a st', m st = Some (a, st') ∧ k a st' = Some (b, st'').
Proof.
  unfold mbind, M_bind, bind. split.
  - destruct (m st) as [[a st']|]; [eauto|done].
  - intros (a & st' & -> & Hk). done.
Qed.

Lemma bind_eq {A B} (m : M A) (k : A → M B) st a st' :
  m st = Some (a, st') → (m ≫= k) st = k a st'.
Proof. unfold mbind, M_bind, bind. by intros ->. Qed.

Lemma emit_eq e st : emit e st = Some (tt, set_trace (trace st ++ [e]) st).
Proof. done. Qed.

End MonadFacts.

(** ** What a handler records *)

Lemma ai_calls_app e1 e2 : ai_calls (e1 ++ e2) = ai_calls e1 ++ ai_calls e2.
Proof. unfold ai_calls. apply omap_app. Qed.

Lemma tool_execs_app e1 e2 : tool_execs (e1 ++ e2) = tool_execs e1 ++ tool_execs e2.
Proof. unfold tool_execs. apply omap_app. Qed.

Lemma tool_execs_started msg name args rest :
  tool_execs (ELog LInfo msg :: EToolExec name args :: rest)
  = (name, args) :: tool_execs rest.
Proof. done. Qed.

Lemma tool_execs_handler name effects rest :
  tool_execs ((EHandler name <$> effects) ++ rest) = tool_execs rest.
Proof. induction effects as [|eff effects IH]; [done|exact IH]. Qed.

Lemma ai_calls_handler name effects rest :
  ai_calls ((EHandler name <$> effects) ++ rest) = ai_calls rest.
Proof. induction effects as [|eff effects IH]; [done|exact IH]. Qed.

Lemma locks_after_handler held name effects rest :
  locks_after held ((EHandler name <$> effects) ++ rest) = locks_after held rest.
Proof. induction effects as [|eff effects IH]; [done|exact IH]. Qed.

Lemma respects_handler name effects rest :
  respects registry_lock_policy [toolsLock] rest →
  respects registry_lock_policy [toolsLock] ((EHandler name <$> effects) ++ rest).
Proof. intros Hrest. induction effects as [|eff effects IH]; [done|]. by split. Qed.

(** ** agent.go: the dispatcher *)

Section DispatcherFacts.
Context `{GoRuntime} `{Environment}.

Lemma executeToolCalls_loop_run ctx calls : ∀ acc st,
  executeToolCalls_loop ctx calls acc st
  = let '(rs, w', evs) := run_calls ctx (tools (agent st)) calls (world st) in
    Some (acc ++ rs, set_trace (trace st ++ evs) (set_world w' st)).
Proof.
  induction calls as [|call rest IH]; intros acc st.
  - simpl. rewrite !app_nil_r. by destruct st.
  - cbn [executeToolCalls_loop run_calls].
    rewrite (bind_eq _ _ st (tools (agent st)) st) by done.
    destruct (tools (agent st) !! ToolCall_Name call) as [tool|] eqn:Hts.
    + destruct (Tool_Execute tool ctx (ToolCall_Arguments call) (world st))
        as [[w1 effects] [result err]] eqn:Hex.
      m_unfold. unfold call_handler. st_simpl. rewrite Hex.
      destruct err as [e|]; rewrite IH; st_simpl;
        destruct (run_calls ctx (tools (agent st)) rest w1) as [[rs w'] evs];
        rewrite <- !app_assoc; done.
    + rewrite IH.
      destruct (run_calls ctx (tools (agent st)) rest (world st)) as [[rs w'] evs].
      by rewrite <- app_assoc.
Qed.

Lemma executeToolCalls_run ctx calls st :
  executeToolCalls ctx calls st
  = let '(rs, w', evs) := run_calls ctx (tools (agent st)) calls (world st) in
    Some (rs, set_trace (trace st ++ ERLock toolsLock :: evs ++ [ERUnlock toolsLock])
                        (set_world w' st)).
Proof.
  unfold executeToolCalls.
  rewrite (bind_eq _ _ st tt (set_trace (trace st ++ [ERLock toolsLock]) st)) by done.
  unfold mbind at 1, M_bind, bind. rewrite executeToolCalls_loop_run. st_simpl.
  destruct (run_calls ctx (tools (agent st)) calls (world st)) as [[rs w'] evs].
  m_unfold. st_simpl. rewrite <- !app_assoc. done.
Qed.

Lemma executeToolCalls_eq ctx calls st :
  executeToolCalls ctx calls st
  = Some ((run_calls ctx (tools (agent st)) calls (world st)).1.1,
          after_tools (run_calls ctx (tools (agent st)) calls (world st)).2
                      (run_calls ctx (tools (agent st)) calls (world st)).1.2 st).
Proof.
  rewrite executeToolCalls_run.
  by destruct (run_calls ctx (tools (agent st)) calls (world st)) as [[rs w'] evs].
Qed.

Lemma run_calls_length ctx ts calls : ∀ w,
  length (run_calls ctx ts calls w).1.1 = length calls.
Proof.
  induction calls as [|call rest IH]; intros w; [done|].
  cbn [run_calls]. destruct (ts !! ToolCall_Name call) as [tool|].
  - destruct (Tool_Execute tool ctx (ToolCall_Arguments call) w) as [[w1 effects] out].
    specialize (IH w1). destruct (run_calls ctx ts rest w1) as [[rs w'] evs].
    simpl in *. by rewrite IH.
  - specialize (IH w). destruct (run_calls ctx ts rest w) as [[rs w'] evs].
    simpl in *. by rewrite IH.
Qed.

Lemma result_of_name name out : ToolResult_Name (result_of name out) = name.
Proof. unfold result_of. by destruct (out.2). Qed.

Lemma run_calls_names ctx ts calls : ∀ w,
  ToolResult_Name <$> (run_calls ctx ts calls w).1.1 = ToolCall_Name <$> calls.
Proof.
  induction calls as [|call rest IH]; intros w; [done|].
  cbn [run_calls]. destruct (ts !! ToolCall_Name call) as [tool|].
  - destruct (Tool_Execute tool ctx (ToolCall_Arguments call) w) as [[w1 effects] out].
    specialize (IH w1). destruct (run_calls ctx ts rest w1) as [[rs w'] evs].
    cbn [fst snd] in *. by rewrite !fmap_cons, IH, result_of_name.
  - specialize (IH w). destruct (run_calls ctx ts rest w) as [[rs w'] evs].
    cbn [fst snd] in *. by rewrite !fmap_cons, IH.
Qed.

Lemma run_calls_execs ctx ts calls : ∀ w,
  tool_execs (run_calls ctx ts calls w).2
  = (λ c, (ToolCall_Name c, ToolCall_Arguments c)) <$> registered_calls ts calls.
Proof.
  induction calls as [|call rest IH]; intros w; [done|].
  cbn [run_calls]. unfold registered_calls. rewrite filter_cons.
  destruct (ts !! ToolCall_Name call) as [tool|] eqn:Hts.
  - destruct (Tool_Execute tool ctx (ToolCall_Arguments call) w) as [[w1 effects] out].
    specialize (IH w1). destruct (run_calls ctx ts rest w1) as [[rs w'] evs].
    rewrite decide_True by eauto.
    cbn [fst snd] in *. rewrite fmap_cons. unfold registered_calls in IH.
    rewrite <- IH.
    rewrite tool_execs_started, (tool_execs_handler _ _ (_ :: evs)).
    by destruct (out.2).
  - specialize (IH w). destruct (run_calls ctx ts rest w) as [[rs w'] evs].
    rewrite decide_False by (by intros [? ?]).
    cbn [fst snd] in *. done.
Qed.

(** A batch in two parts: the second part runs on the world the first
    leaves. *)
Lemma run_calls_app ctx ts l1 l2 : ∀ w,
  run_calls ctx ts (l1 ++ l2) w
  = let '(r1, w1, e1) := run_calls ctx ts l1 w in
    let '(r2, w2, e2) := run_calls ctx ts l2 w1 in
    (r1 ++ r2, w2, e1 ++ e2).
Proof.
  induction l1 as [|call rest IH]; intros w.
  - simpl. by destruct (run_calls ctx ts l2 w) as [[r2 w2] e2].
  - cbn [app run_calls]. destruct (ts !! ToolCall_Name call) as [tool|].
    + destruct (Tool_Execute tool ctx (ToolCall_Arguments call) w) as [[w1 effects] out].
      rewrite IH. destruct (run_calls ctx ts rest w1) as [[r1 w1'] e1].
      destruct (run_calls ctx ts l2 w1') as [[r2 w2] e2].
      cbn [app]. by rewrite <- app_assoc.
    + rewrite IH. destruct (run_calls ctx ts rest w) as [[r1 w1'] e1].
      by destruct (run_calls ctx ts l2 w1') as [[r2 w2] e2].
Qed.

(** The result at position [i] is the outcome of call [i] on the world
    the calls before it leave. *)
Lemma run_calls_lookup ctx ts calls w i call :
  calls !! i = Some call →
  (run_calls ctx ts calls w).1.1 !! i
  = Some match ts !! ToolCall_Name call with
         | None => unknown_tool (ToolCall_Name call)
         | Some tool =>
             result_of (ToolCall_Name call)
               (Tool_Execute tool ctx (ToolCall_Arguments call)
                  (run_calls ctx ts (take i calls) w).1.2).2
         end.
Proof.
  intros Hi. rewrite <- (take_drop_middle calls i call Hi) at 1.
  rewrite run_calls_app.
  pose proof (run_calls_length ctx ts (take i calls) w) as Hlen.
  destruct (run_calls ctx ts (take i calls) w) as [[r1 w1] e1]. simpl in Hlen.
  assert (Hl : length r1 = i).
  { rewrite Hlen, length_take. apply lookup_lt_Some in Hi. lia. }
  cbn [run_calls fst snd]. destruct (ts !! ToolCall_Name call) as [tool|].
  - destruct (Tool_Execute tool ctx (ToolCall_Arguments call) w1) as [[w2 effects] out].
    destruct (run_calls ctx ts (drop (S i) calls) w2) as [[r2 w3] e2].
    cbn [fst snd]. rewrite lookup_app_r by lia. by rewrite Hl, Nat.sub_diag.
  - destruct (run_calls ctx ts (drop (S i) calls) w1) as [[r2 w3] e2].
    cbn [fst snd]. rewrite lookup_app_r by lia. by rewrite Hl, Nat.sub_diag.
Qed.

(** C7. The dispatcher always returns; it hands back one result per
    requested call, under the call's name and at the call's position;
    the handlers it runs are those of the registered calls, in request
    order, each on the world its predecessors left; a call to an unknown
    tool yields the error result and the batch goes on. *)
Theorem executeToolCalls_in_request_order (ctx : GoContext) (calls : list ToolCall)
    (st : State) :
  ∃ results st' evs,
    executeToolCalls ctx calls st = Some (results, st') ∧
    new_events st st' evs ∧
    length results = length calls ∧
    ToolResult_Name <$> results = ToolCall_Name <$> calls ∧
    tool_execs evs
    = (λ c, (ToolCall_Name c, ToolCall_Arguments c))
        <$> registered_calls (tools (agent st)) calls ∧
    ∀ i call, calls !! i = Some call →
      results !! i
      = Some match tools (agent st) !! ToolCall_Name call with
             | None =>
                 mkToolResult (ToolCall_Name call) None
                              ("unknown tool: " +:+ ToolCall_Name call)
             | Some tool =>
                 result_of (ToolCall_Name call)
                   (Tool_Execute tool ctx (ToolCall_Arguments call)
                      (run_calls ctx (tools (agent st)) (take i calls) (world st)).1.2).2
             end.
Proof.
  rewrite executeToolCalls_run.
  pose proof (run_calls_length ctx (tools (agent st)) calls (world st)) as Hlen.
  pose proof (run_calls_names ctx (tools (agent st)) calls (world st)) as Hnames.
  pose proof (run_calls_execs ctx (tools (agent st)) calls (world st)) as Hexecs.
  pose proof (λ i call, run_calls_lookup ctx (tools (agent st)) calls (world st) i call)
    as Hlook.
  destruct (run_calls ctx (tools (agent st)) calls (world st)) as [[rs w'] evs].
  simpl in *. eexists _, _, _. split; [done|]. split; [done|].
  split_and!; try done.
  unfold tool_execs in *. simpl. rewrite omap_app. simpl.
  by rewrite app_nil_r.
Qed.

Lemma run_calls_Forall (P : ToolResult → Prop) ctx ts calls :
  (∀ name, P (unknown_tool name)) →
  (∀ name tool args w, ts !! name = Some tool →
     P (result_of name (Tool_Execute tool ctx args w).2)) →
  ∀ w, Forall P (run_calls ctx ts calls w).1.1.
Proof.
  intros Hunk Hreg. induction calls as [|call rest IH]; intros w.
  - constructor.
  - cbn [run_calls]. destruct (ts !! ToolCall_Name call) as [tool|] eqn:Hts.
    + pose proof (Hreg _ _ (ToolCall_Arguments call) w Hts) as Hp.
      destruct (Tool_Execute tool ctx (ToolCall_Arguments call) w) as [[w1 effects] out].
      specialize (IH w1). destruct (run_calls ctx ts rest w1) as [[rs w'] evs].
      by constructor.
    + specialize (IH w). destruct (run_calls ctx ts rest w) as [[rs w'] evs].
      by constructor.
Qed.

(** C8, as amended. A [ToolResult] of the dispatcher never carries both:
    when its error is set its result is absent. It carries exactly one
    of the two when every registered handler returns a non-nil value on
    success and an error with a non-empty message on failure. *)
Theorem ToolResult_never_both (ctx : GoContext) (calls : list ToolCall)
    (st : State) (results : list ToolResult) (st' : State) :
  executeToolCalls ctx calls st = Some (results, st') →
  Forall (λ r, ToolResult_Error r ≠ "" → ToolResult_Result r = None) results ∧
  ((∀ name tool args w, tools (agent st) !! name = Some tool →
      match (Tool_Execute tool ctx args w).2 with
      | (_, Some e) => e ≠ ""
      | (result, None) => result ≠ None
      end) →
   Forall exactly_one results).
Proof.
  rewrite executeToolCalls_run. intros Hrun.
  assert (Hres : results = (run_calls ctx (tools (agent st)) calls (world st)).1.1).
  { destruct (run_calls ctx (tools (agent st)) calls (world st)) as [[rs w'] evs].
    by injection Hrun as <- _. }
  subst results. split.
  - apply run_calls_Forall.
    + done.
    + intros name tool args w _. unfold result_of.
      destruct (Tool_Execute tool ctx args w).2 as [result [e|]]; simpl; done.
  - intros Hgood. apply run_calls_Forall.
    + intros name. right. done.
    + intros name tool args w Hts. specialize (Hgood name tool args w Hts).
      unfold result_of, exactly_one.
      destruct (Tool_Execute tool ctx args w).2 as [result [e|]]; simpl; auto.
Qed.

End DispatcherFacts.

(** ** Locks *)

Section LockRules.
Context `{GoRuntime} `{Environment}.

Lemma locks_after_app h e1 e2 :
  locks_after h (e1 ++ e2) = h1 ← locks_after h e1; locks_after h1 e2.
Proof.
  revert h. induction e1 as [|e e1 IH]; intros h; [done|].
  simpl. destruct (lock_step h e) as [h'|]; simpl; [apply IH|done].
Qed.

Lemma respects_app P h h1 e1 e2 :
  respects P h e1 → locks_after h e1 = Some h1 → respects P h1 e2 →
  respects P h (e1 ++ e2).
Proof.
  revert h. induction e1 as [|e e1 IH]; intros h Hr Hl Hr2.
  - simpl in *. by injection Hl as ->.
  - simpl in *. destruct Hr as [Hp Hr]. split; [done|].
    destruct (lock_step h e) as [h'|]; [|done]. simpl in Hl. by apply IH.
Qed.

Lemma lock_ok_ret {A} h (a : A) : lock_ok h h (mret a).
Proof.
  intros st a' st' [= <- <-]. exists []. unfold new_events.
  rewrite app_nil_r. done.
Qed.

Lemma lock_ok_bind {A B} h h1 h2 (m : M A) (k : A → M B) :
  lock_ok h h1 m → (∀ a, lock_ok h1 h2 (k a)) → lock_ok h h2 (m ≫= k).
Proof.
  intros Hm Hk st b st'' (a & st' & Hma & Hkb)%bind_Some.
  destruct (Hm _ _ _ Hma) as (e1 & Ht1 & Hr1 & Hl1).
  destruct (Hk a _ _ _ Hkb) as (e2 & Ht2 & Hr2 & Hl2).
  exists (e1 ++ e2). unfold new_events in *. split_and!.
  - by rewrite Ht2, Ht1, app_assoc.
  - by eapply respects_app.
  - rewrite locks_after_app, Hl1. done.
Qed.

(** An operation that records no event. *)
Lemma lock_ok_silent {A} h (m : M A) :
  (∀ st a st', m st = Some (a, st') → trace st' = trace st) → lock_ok h h m.
Proof.
  intros Hm st a st' Hrun. exists []. unfold new_events.
  rewrite app_nil_r. split_and!; [by eapply Hm|done|done].
Qed.

Lemma lock_ok_gets {A} h (f : State → A) : lock_ok h h (gets f).
Proof. apply lock_ok_silent. by intros st a st' [= _ <-]. Qed.

Lemma lock_ok_now h : lock_ok h h now.
Proof.
  apply lock_ok_silent. intros st a st'. unfold now.
  destruct (time_Now (world st)). by intros [= _ <-].
Qed.

Lemma lock_ok_call_world {A} h (f : World → World * A) : lock_ok h h (call_world f).
Proof.
  apply lock_ok_silent. intros st a st'. unfold call_world.
  destruct (f (world st)). by intros [= _ <-].
Qed.

Lemma lock_ok_panic {A} h h' : lock_ok h h' (@panic _ A).
Proof. by intros st a st'. Qed.

Lemma lock_ok_modify h (f : State → State) :
  (∀ st, trace (f st) = trace st) → lock_ok h h (modify f).
Proof. intros Hf. apply lock_ok_silent. intros st a st' [= _ <-]. apply Hf. Qed.

Lemma lock_ok_emit h h' e :
  registry_lock_policy e h → lock_step h e = Some h' → lock_ok h h' (emit e).
Proof.
  intros Hp Hs st a st' [= _ <-]. exists [e]. unfold new_events. simpl.
  rewrite Hs. done.
Qed.

Lemma lock_ok_lock h l : lock_ok h (l :: h) (emit (ELock l)).
Proof. by apply lock_ok_emit. Qed.

Lemma lock_ok_rlock h l : lock_ok h (l :: h) (emit (ERLock l)).
Proof. by apply lock_ok_emit. Qed.

Lemma lock_ok_unlock h l : lock_ok (l :: h) h (emit (EUnlock l)).
Proof. apply lock_ok_emit; [done|]. simpl. by rewrite decide_True. Qed.

Lemma lock_ok_runlock h l : lock_ok (l :: h) h (emit (ERUnlock l)).
Proof. apply lock_ok_emit; [done|]. simpl. by rewrite decide_True. Qed.

Lemma lock_ok_log h lvl msg : lock_ok h h (emit (ELog lvl msg)).
Proof. by apply lock_ok_emit. Qed.

Lemma lock_ok_fetch what : lock_ok [] [] (emit (EFetch what)).
Proof. by apply lock_ok_emit. Qed.

Lemma lock_ok_deref h p : lock_ok h h (deref p).
Proof.
  apply lock_ok_silent. intros st a st'. unfold deref.
  destruct (sessions (agent st) !! p); [|done]. by intros [= _ <-].
Qed.

Lemma lock_ok_store_session h p hp s : lock_ok h h (store_session p hp s).
Proof. by apply lock_ok_modify. Qed.

Lemma lock_ok_go h alert cbs :
  lock_ok h h (emit_all ((λ cb, EGo cb alert) <$> cbs)).
Proof.
  intros st a st' [= _ <-]. eexists. split; [done|].
  induction cbs as [|cb cbs IH]; simpl; [done|]. destruct IH. done.
Qed.

End LockRules.

(** One step of a lock argument: an operation of the monad, or a bind
    whose first operation is settled next. *)
Ltac lock_prim :=
  first
    [ apply lock_ok_ret | apply lock_ok_gets | apply lock_ok_now
    | apply lock_ok_call_world | apply lock_ok_panic
    | apply lock_ok_lock | apply lock_ok_rlock
    | apply lock_ok_unlock | apply lock_ok_runlock
    | apply lock_ok_log | apply lock_ok_fetch
    | apply lock_ok_deref | apply lock_ok_store_session | apply lock_ok_go
    | (apply lock_ok_modify; done) ].

Ltac lock_go :=
  repeat first
    [ lock_prim
    | (eapply lock_ok_bind; [lock_prim | intros ?])
    | match goal with
      | |- lock_ok _ _ (let '(_, _) := ?x in _) => destruct x
      | |- lock_ok _ _ (match ?x with _ => _ end) => destruct x
      end ].

Section LockFacts.
Context `{GoRuntime} `{Environment}.

Lemma lock_ok_RegisterTool h tool : lock_ok h h (Agent_RegisterTool tool).
Proof. unfold Agent_RegisterTool. lock_go. Qed.

Lemma lock_ok_GetSession h sessionID : lock_ok h h (Agent_GetSession sessionID).
Proof.
  unfold Agent_GetSession. lock_go.
Qed.

Lemma lock_ok_AddMessage h p msg : lock_ok h h (AddMessage p msg).
Proof. unfold AddMessage. lock_go. Qed.

Lemma lock_ok_GetMessages h p : lock_ok h h (GetMessages p).
Proof. unfold GetMessages. lock_go. Qed.

Lemma lock_ok_buildSystemPromptWithTools h : lock_ok h h buildSystemPromptWithTools.
Proof. unfold buildSystemPromptWithTools. lock_go. Qed.

Lemma lock_ok_buildSmartSystemPrompt h : lock_ok h h buildSmartSystemPrompt.
Proof. unfold buildSmartSystemPrompt. lock_go. Qed.

Lemma lock_ok_buildConversationPrompt h p : lock_ok h h (buildConversationPrompt p).
Proof.
  unfold buildConversationPrompt.
  eapply lock_ok_bind; [apply lock_ok_GetMessages|intros ?]. lock_go.
Qed.

Lemma lock_ok_callAI sys conv : lock_ok [] [] (callAI sys conv).
Proof.
  unfold callAI. eapply lock_ok_bind; [by apply lock_ok_emit|intros ?]. lock_go.
Qed.

(** The events of a batch are log lines, tool executions and what the
    handlers record. *)
Lemma run_calls_locks ctx ts calls : ∀ w,
  respects registry_lock_policy [toolsLock] (run_calls ctx ts calls w).2 ∧
  locks_after [toolsLock] (run_calls ctx ts calls w).2 = Some [toolsLock].
Proof.
  induction calls as [|call rest IH]; intros w; [done|].
  cbn [run_calls]. destruct (ts !! ToolCall_Name call) as [tool|].
  - destruct (Tool_Execute tool ctx (ToolCall_Arguments call) w) as [[w1 effects] out].
    specialize (IH w1). destruct (run_calls ctx ts rest w1) as [[rs w'] evs].
    cbn [fst snd] in *. destruct IH as [Hr Hl]. split.
    + do 2 (split; [done|]; cbn [lock_step]).
      apply respects_handler. by destruct (out.2).
    + cbn [locks_after lock_step mbind option_bind].
      rewrite locks_after_handler. by destruct (out.2).
  - specialize (IH w). by destruct (run_calls ctx ts rest w) as [[rs w'] evs].
Qed.

Lemma lock_ok_executeToolCalls ctx calls : lock_ok [] [] (executeToolCalls ctx calls).
Proof.
  intros st rs st'. rewrite executeToolCalls_run.
  pose proof (run_calls_locks ctx (tools (agent st)) calls (world st)) as [Hr Hl].
  destruct (run_calls ctx (tools (agent st)) calls (world st)) as [[rs' w'] evs].
  cbn [fst snd] in *. intros [= _ <-]. eexists. split; [done|].
  split.
  - simpl. split; [done|].
    eapply respects_app; [done..|]. by simpl.
  - simpl. rewrite locks_after_app, Hl. by simpl.
Qed.

Lemma lock_ok_Chat_loop v fuel ctx sys : ∀ conv final count,
  lock_ok [] [] (Chat_loop v fuel ctx sys conv final count).
Proof.
  induction fuel as [|fuel IH]; intros conv final count; cbn [Chat_loop].
  - lock_go.
  - eapply lock_ok_bind; [lock_prim|intros w].
    destruct (ctx_Err ctx w); [lock_go|].
    eapply lock_ok_bind; [lock_prim|intros maxCalls].
    case_decide; [lock_go|].
    eapply lock_ok_bind; [apply lock_ok_callAI|intros [response err]].
    destruct err; [lock_go|].
    destruct (parseResponse response) as [[toolCalls textResponse] perr].
    destruct perr; [lock_go|].
    case_decide; [lock_go|].
    eapply lock_ok_bind; [apply lock_ok_executeToolCalls|intros toolResults].
    apply IH.
Qed.

Lemma lock_ok_Chat_finish session sessionID exit :
  lock_ok [] [] (Chat_finish session sessionID exit).
Proof.
  unfold Chat_finish. destruct exit as [[e|final]|]; [lock_go| |lock_go].
  eapply lock_ok_bind; [lock_prim|intros t].
  eapply lock_ok_bind; [apply lock_ok_AddMessage|intros ?]. lock_go.
Qed.

Lemma lock_ok_Agent_Chat ctx sessionID userMessage :
  lock_ok [] [] (Agent_Chat ctx sessionID userMessage).
Proof.
  unfold Agent_Chat.
  eapply lock_ok_bind; [apply lock_ok_GetSession|intros session].
  eapply lock_ok_bind; [lock_prim|intros t].
  eapply lock_ok_bind; [apply lock_ok_AddMessage|intros ?].
  eapply lock_ok_bind; [apply lock_ok_buildSystemPromptWithTools|intros sys].
  eapply lock_ok_bind; [apply lock_ok_buildConversationPrompt|intros conv].
  eapply lock_ok_bind; [lock_prim|intros maxCalls].
  eapply lock_ok_bind; [apply lock_ok_Chat_loop|intros exit].
  apply lock_ok_Chat_finish.
Qed.

Lemma lock_ok_BuildContext_loop traders : ∀ ctx,
  lock_ok [] [] (BuildContext_loop traders ctx).
Proof.
  induction traders as [|[id trader] rest IH]; intros ctx; cbn [BuildContext_loop].
  - lock_go.
  - eapply lock_ok_bind; [lock_prim|intros ?].
    eapply lock_ok_bind; [lock_prim|intros [accountInfo err]].
    destruct (match err with None => _ | Some _ => _ end) as [summary1 ctx1].
    eapply lock_ok_bind; [lock_prim|intros ?].
    eapply lock_ok_bind; [lock_prim|intros [positions err']].
    destruct (match err' with None => _ | Some _ => _ end) as [summary2 ctx2].
    apply IH.
Qed.

Lemma lock_ok_BuildContext : lock_ok [] [] BuildContext.
Proof.
  unfold BuildContext.
  eapply lock_ok_bind; [lock_prim|intros t].
  eapply lock_ok_bind; [lock_prim|intros tm].
  eapply lock_ok_bind; [lock_prim|intros ?].
  eapply lock_ok_bind; [lock_prim|intros traders].
  apply lock_ok_BuildContext_loop.
Qed.

Lemma lock_ok_buildSmartConversationPrompt session msg :
  lock_ok [] [] (buildSmartConversationPrompt session msg).
Proof.
  unfold buildSmartConversationPrompt.
  eapply lock_ok_bind; [lock_prim|intros inject].
  eapply lock_ok_bind.
  - destruct inject; [|lock_go].
    eapply lock_ok_bind; [apply lock_ok_BuildContext|intros ?]. lock_go.
  - intros sb. eapply lock_ok_bind; [apply lock_ok_GetMessages|intros ?]. lock_go.
Qed.

Lemma lock_ok_SmartAgent_Chat ctx sessionID userMessage :
  lock_ok [] [] (SmartAgent_Chat ctx sessionID userMessage).
Proof.
  unfold SmartAgent_Chat.
  eapply lock_ok_bind; [apply lock_ok_GetSession|intros session].
  eapply lock_ok_bind; [lock_prim|intros t].
  eapply lock_ok_bind; [apply lock_ok_AddMessage|intros ?].
  eapply lock_ok_bind; [apply lock_ok_buildSmartSystemPrompt|intros sys].
  eapply lock_ok_bind; [apply lock_ok_buildSmartConversationPrompt|intros conv].
  eapply lock_ok_bind; [lock_prim|intros maxCalls].
  eapply lock_ok_bind; [apply lock_ok_Chat_loop|intros exit].
  apply lock_ok_Chat_finish.
Qed.

Lemma lock_ok_sendAlert h alert : lock_ok h h (sendAlert alert).
Proof. unfold sendAlert. lock_go. Qed.

Lemma lock_ok_sendAlertIfNew h alert : lock_ok h h (sendAlertIfNew alert).
Proof.
  unfold sendAlertIfNew.
  eapply lock_ok_bind; [lock_prim|intros ?].
  eapply lock_ok_bind; [lock_prim|intros la].
  eapply lock_ok_bind; [lock_go|intros recently].
  destruct recently; [lock_go|].
  eapply lock_ok_bind; [lock_prim|intros t].
  eapply lock_ok_bind; [lock_prim|intros ?].
  eapply lock_ok_bind; [apply lock_ok_sendAlert|intros ?]. lock_go.
Qed.

Lemma lock_ok_sendAlertsIfNew h alerts : lock_ok h h (sendAlertsIfNew alerts).
Proof.
  induction alerts as [|alert rest IH]; cbn [sendAlertsIfNew]; [lock_go|].
  eapply lock_ok_bind; [apply lock_ok_sendAlertIfNew|intros ?]. apply IH.
Qed.

Lemma lock_ok_checkPositionChanges_new h positions : ∀ current,
  lock_ok h h (checkPositionChanges_new positions current).
Proof.
  induction positions as [|pos rest IH]; intros current;
    cbn [checkPositionChanges_new]; [lock_go|].
  eapply lock_ok_bind; [lock_prim|intros lp].
  eapply lock_ok_bind; [|intros ?; apply IH].
  destruct (lp !! position_key pos); [lock_go|apply lock_ok_sendAlert].
Qed.

Lemma lock_ok_checkPositionChanges_closed h olds current :
  lock_ok h h (checkPositionChanges_closed olds current).
Proof.
  induction olds as [|[key oldPos] rest IH];
    cbn [checkPositionChanges_closed]; [lock_go|].
  eapply lock_ok_bind; [|intros ?; apply IH].
  destruct (current !! key); [lock_go|apply lock_ok_sendAlert].
Qed.

Lemma lock_ok_checkPositionChanges h ctx : lock_ok h h (checkPositionChanges ctx).
Proof.
  unfold checkPositionChanges.
  eapply lock_ok_bind; [lock_prim|intros ?].
  eapply lock_ok_bind; [apply lock_ok_checkPositionChanges_new|intros current].
  eapply lock_ok_bind; [lock_prim|intros lp].
  eapply lock_ok_bind; [apply lock_ok_checkPositionChanges_closed|intros ?].
  lock_go.
Qed.

Lemma lock_ok_checkAndAlert : lock_ok [] [] checkAndAlert.
Proof.
  unfold checkAndAlert, checkMarketMovements.
  eapply lock_ok_bind; [apply lock_ok_BuildContext|intros ctx].
  eapply lock_ok_bind; [apply lock_ok_sendAlertsIfNew|intros ?].
  eapply lock_ok_bind; [apply lock_ok_checkPositionChanges|intros ?].
  lock_go.
Qed.

Lemma lock_ok_Monitor_ops h cb d :
  lock_ok h h (Monitor_OnAlert cb) ∧ lock_ok h h Monitor_Start ∧
  lock_ok h h Monitor_Stop ∧ lock_ok h h (Monitor_SetInterval d).
Proof.
  unfold Monitor_OnAlert, Monitor_Start, Monitor_Stop, Monitor_SetInterval.
  split_and!; lock_go. by apply lock_ok_emit.
Qed.

(** No event of a batch takes or releases a lock. *)
Lemma run_calls_steady ctx ts calls : ∀ w,
  Forall (λ e, (∀ h, lock_step h e = Some h) ∧ registry_lock_policy e [toolsLock])
         (run_calls ctx ts calls w).2.
Proof.
  induction calls as [|call rest IH]; intros w; [by constructor|].
  cbn [run_calls]. destruct (ts !! ToolCall_Name call) as [tool|].
  - destruct (Tool_Execute tool ctx (ToolCall_Arguments call) w) as [[w1 effects] out].
    specialize (IH w1). destruct (run_calls ctx ts rest w1) as [[rs w'] evs].
    cbn [fst snd] in *. do 2 (constructor; [done|]).
    apply Forall_app. split.
    + apply Forall_fmap, Forall_forall. by intros eff _.
    + constructor; [by destruct (out.2)|done].
  - specialize (IH w). by destruct (run_calls ctx ts rest w) as [[rs w'] evs].
Qed.

Lemma locks_after_steady h evs :
  Forall (λ e, ∀ h, lock_step h e = Some h) evs → locks_after h evs = Some h.
Proof.
  induction 1 as [|e evs He _ IH]; [done|]. cbn [locks_after]. by rewrite He.
Qed.

Lemma lock_ok_RegisterTools h ts : lock_ok h h (Agent_RegisterTools ts).
Proof.
  induction ts as [|tool rest IH]; cbn [Agent_RegisterTools]; [lock_go|].
  eapply lock_ok_bind; [apply lock_ok_RegisterTool|intros ?]. apply IH.
Qed.

Lemma lock_ok_switches h prompt enabled :
  lock_ok h h (Agent_SetSystemPrompt prompt) ∧
  lock_ok h h (SmartAgent_SetAutoInjectContext enabled).
Proof.
  unfold Agent_SetSystemPrompt, SmartAgent_SetAutoInjectContext. split; lock_go.
Qed.

Lemma lock_ok_Session_ops h p n userID userName platform key v :
  lock_ok h h (GetRecentMessages p n) ∧ lock_ok h h (Clear p) ∧
  lock_ok h h (SetUserInfo p userID userName platform) ∧
  lock_ok h h (SetMetadata p key v) ∧ lock_ok h h (GetMetadata p key).
Proof.
  unfold GetRecentMessages, Clear, SetUserInfo, SetMetadata, GetMetadata.
  split_and!; lock_go.
Qed.

Lemma lock_ok_bot_handlers chatID c withTimeout :
  lock_ok [] [] (handleClear chatID) ∧ lock_ok [] [] (handleText c withTimeout).
Proof.
  split.
  - unfold handleClear. cbn zeta.
    eapply lock_ok_bind; [apply lock_ok_GetSession|intros session].
    eapply lock_ok_bind; [|intros ?; lock_go].
    by destruct (lock_ok_Session_ops [] session 0 "" "" "" "" None) as (_ & ? & _).
  - unfold handleText. cbn zeta. case_decide; [lock_go|].
    eapply lock_ok_bind; [lock_prim|intros ?].
    eapply lock_ok_bind; [apply lock_ok_GetSession|intros session].
    eapply lock_ok_bind.
    { by destruct (lock_ok_Session_ops [] session 0 (fmt_d (tele_SenderID c))
                     (tele_Username c) "telegram" "" None) as (_ & _ & ? & _). }
    intros ?. eapply lock_ok_bind; [lock_prim|intros ?].
    eapply lock_ok_bind; [apply lock_ok_Agent_Chat|intros [response err]].
    destruct err as [err|]; [lock_go|]. destruct response as [response|]; [|lock_go].
    eapply lock_ok_bind.
    { apply lock_ok_silent. intros s0 short s0'.
      destruct (truncate (Text response) 100); [|done]. by intros [= _ <-]. }
    intros short. eapply lock_ok_bind; [lock_prim|intros ?].
    eapply lock_ok_bind; [lock_prim|intros w].
    destruct (sendLongMessage c (Text response) w) as [[[w' sends] err]|]; lock_go.
Qed.

(** C9, as amended. Every operation of the session store, the agent,
    the smart agent with its context builder, the monitor, and the two
    handlers of the Telegram bot that reach them, started with no lock
    held, releases every lock it takes before it returns,
    in the reverse order of taking, and keeps to [registry_lock_policy]
    on the way: AI completions and the context builder's live-state
    fetches happen with no lock held, while tool executions, and the
    calls, goroutine launches and log lines of their handlers, happen
    with the registry's read lock held and no other. A batch of tool
    calls is bracketed by the registry's read lock: [executeToolCalls]
    takes it first and releases it last, and nothing in between touches
    a lock, so it is held at every execution and at everything the
    handlers do. *)
Theorem locks_released_and_registry_lock_policy :
  (∀ p msg n userID userName platform key v,
     lock_ok [] [] (AddMessage p msg) ∧ lock_ok [] [] (GetMessages p) ∧
     lock_ok [] [] (GetRecentMessages p n) ∧ lock_ok [] [] (Clear p) ∧
     lock_ok [] [] (SetUserInfo p userID userName platform) ∧
     lock_ok [] [] (SetMetadata p key v) ∧ lock_ok [] [] (GetMetadata p key)) ∧
  (∀ tool ts prompt sessionID session ctx calls userMessage,
     lock_ok [] [] (Agent_RegisterTool tool) ∧ lock_ok [] [] (Agent_RegisterTools ts) ∧
     lock_ok [] [] (Agent_SetSystemPrompt prompt) ∧
     lock_ok [] [] (Agent_GetSession sessionID) ∧
     lock_ok [] [] buildSystemPromptWithTools ∧
     lock_ok [] [] (buildConversationPrompt session) ∧
     lock_ok [] [] (executeToolCalls ctx calls) ∧
     lock_ok [] [] (Agent_Chat ctx sessionID userMessage)) ∧
  (∀ enabled session ctx sessionID userMessage,
     lock_ok [] [] (SmartAgent_SetAutoInjectContext enabled) ∧
     lock_ok [] [] buildSmartSystemPrompt ∧
     lock_ok [] [] (buildSmartConversationPrompt session userMessage) ∧
     lock_ok [] [] BuildContext ∧
     lock_ok [] [] (SmartAgent_Chat ctx sessionID userMessage)) ∧
  (∀ callback d alert ctx,
     lock_ok [] [] (Monitor_OnAlert callback) ∧ lock_ok [] [] Monitor_Start ∧
     lock_ok [] [] Monitor_Stop ∧ lock_ok [] [] (Monitor_SetInterval d) ∧
     lock_ok [] [] (sendAlert alert) ∧ lock_ok [] [] (sendAlertIfNew alert) ∧
     lock_ok [] [] (checkPositionChanges ctx) ∧ lock_ok [] [] checkAndAlert) ∧
  (∀ chatID c withTimeout,
     lock_ok [] [] (handleClear chatID) ∧ lock_ok [] [] (handleText c withTimeout)) ∧
  (∀ ctx calls st results st' evs,
      executeToolCalls ctx calls st = Some (results, st') →
      new_events st st' evs →
      let batch := (run_calls ctx (tools (agent st)) calls (world st)).2 in
      evs = ERLock toolsLock :: batch ++ [ERUnlock toolsLock] ∧
      ∀ i e, batch !! i = Some e →
        held_at evs (S i) = Some [toolsLock] ∧ registry_lock_policy e [toolsLock]).
Proof.
  split_and!.
  - intros p msg n userID userName platform key v.
    destruct (lock_ok_Session_ops [] p n userID userName platform key v)
      as (? & ? & ? & ? & ?).
    split_and!; try done; [apply lock_ok_AddMessage|apply lock_ok_GetMessages].
  - intros tool ts prompt sessionID session ctx calls userMessage.
    destruct (lock_ok_switches [] prompt true) as [? _]. split_and!; try done.
    + apply lock_ok_RegisterTool.
    + apply lock_ok_RegisterTools.
    + apply lock_ok_GetSession.
    + apply lock_ok_buildSystemPromptWithTools.
    + apply lock_ok_buildConversationPrompt.
    + apply lock_ok_executeToolCalls.
    + apply lock_ok_Agent_Chat.
  - intros enabled session ctx sessionID userMessage.
    destruct (lock_ok_switches [] "" enabled) as [_ ?]. split_and!; try done.
    + apply lock_ok_buildSmartSystemPrompt.
    + apply lock_ok_buildSmartConversationPrompt.
    + apply lock_ok_BuildContext.
    + apply lock_ok_SmartAgent_Chat.
  - intros callback d alert ctx.
    destruct (lock_ok_Monitor_ops [] callback d) as (? & ? & ? & ?).
    split_and!; try done.
    + apply lock_ok_sendAlert.
    + apply lock_ok_sendAlertIfNew.
    + apply lock_ok_checkPositionChanges.
    + apply lock_ok_checkAndAlert.
  - apply lock_ok_bot_handlers.
  - intros ctx calls st results st' evs. rewrite executeToolCalls_run.
    pose proof (run_calls_steady ctx (tools (agent st)) calls (world st)) as Hsteady.
    destruct (run_calls ctx (tools (agent st)) calls (world st)) as [[rs w'] batch].
    intros [= _ <-]. unfold new_events. st_simpl. intros <-%app_inv_head.
    cbn [snd] in *. split; [done|]. intros i e Hi. split.
    + unfold held_at. cbn [take locks_after lock_step mbind option_bind].
      rewrite take_app_le by (apply lookup_lt_Some in Hi; lia).
      apply locks_after_steady, Forall_take.
      eapply Forall_impl; [exact Hsteady|]. by intros ? [? _].
    + by destruct (proj1 (Forall_lookup _ _) Hsteady i e Hi).
Qed.

End LockFacts.

(** ** Frames: what a turn leaves alone *)

Section FrameRules.
Context `{GoRuntime} `{Environment}.

Lemma frame_refl st : frame st st.
Proof. by split. Qed.

Lemma frame_trans st1 st2 st3 : frame st1 st2 → frame st2 st3 → frame st1 st3.
Proof.
  intros [Ha1 Hm1] [Ha2 Hm2]. split; [congruence|].
  by etrans.
Qed.

Lemma runs_ret {A} P (a : A) : runs P (mret a).
Proof. intros st _. exists a, st. split; [done|apply frame_refl]. Qed.

Lemma runs_bind {A B} P (m : M A) (k : A → M B) :
  stable P → runs P m → (∀ a, runs P (k a)) → runs P (m ≫= k).
Proof.
  intros HP Hm Hk st Hst.
  destruct (Hm st Hst) as (a & st1 & Hma & Hf1).
  destruct (Hk a st1 (HP _ _ Hf1 Hst)) as (b & st2 & Hkb & Hf2).
  exists b, st2. split; [|by eapply frame_trans].
  by rewrite (bind_eq _ _ _ _ _ Hma).
Qed.

Lemma runs_weaken {A} (P Q : State → Prop) (m : M A) :
  (∀ st, P st → Q st) → runs Q m → runs P m.
Proof. intros HPQ Hm st Hst. apply Hm, HPQ, Hst. Qed.

Lemma runs_gets {A} P (f : State → A) : runs P (gets f).
Proof. intros st _. exists (f st), st. split; [done|apply frame_refl]. Qed.

Lemma runs_now P : runs P now.
Proof.
  intros st _. unfold now. destruct (time_Now (world st)) as [w t].
  eexists _, _. split; [done|]. by split.
Qed.

Lemma runs_call_world {A} P (f : World → World * A) : runs P (call_world f).
Proof.
  intros st _. unfold call_world. destruct (f (world st)) as [w a].
  eexists _, _. split; [done|]. by split.
Qed.

Lemma runs_emit_all P evs : runs P (emit_all evs).
Proof. intros st _. eexists _, _. split; [done|]. by split. Qed.

Lemma runs_emit P e : runs P (emit e).
Proof. apply runs_emit_all. Qed.

Lemma stable_True : stable (λ _, True).
Proof. done. Qed.

Lemma stable_has_session p : stable (λ st, is_Some (sessions (agent st) !! p)).
Proof. intros st st' [Ha _]. by rewrite Ha. Qed.

End FrameRules.

Ltac runs_prim :=
  first
    [ apply runs_ret | apply runs_gets | apply runs_now | apply runs_call_world
    | apply runs_emit | apply runs_emit_all ].

Ltac runs_go :=
  repeat first
    [ runs_prim
    | (apply runs_bind; [solve [apply stable_True | apply stable_has_session]
                        | runs_prim | intros ?])
    | match goal with
      | |- runs _ (let '(_, _) := ?x in _) => destruct x
      | |- runs _ (match ?x with _ => _ end) => destruct x
      end ].

Section FrameFacts.
Context `{GoRuntime} `{Environment}.

Lemma slice_view_subseteq (h h' : heap) s :
  slice_wf h s → h ⊆ h' → slice_view h' s = slice_view h s ∧ slice_wf h' s.
Proof.
  intros (a & Ha & Hcap & Hlen) Hsub.
  pose proof (lookup_weaken _ _ _ _ Ha Hsub) as Ha'.
  split.
  - unfold slice_view. by rewrite (array_at_Some _ _ _ Ha), (array_at_Some _ _ _ Ha').
  - by exists a.
Qed.

Lemma history_frame st st' p :
  state_wf st → frame st st' → history st' p = history st p.
Proof.
  intros [_ Hwf] [Ha Hm]. unfold history. rewrite Ha.
  destruct (sessions (agent st) !! p) as [s|] eqn:Hs; [|done].
  destruct (Hwf _ _ Hs) as [Hs_wf _].
  by destruct (slice_view_subseteq _ _ _ Hs_wf Hm).
Qed.

Lemma capacity_frame st st' p : frame st st' → capacity st' p = capacity st p.
Proof. intros [Ha _]. unfold capacity. by rewrite Ha. Qed.

Lemma state_wf_frame st st' : state_wf st → frame st st' → state_wf st'.
Proof.
  intros [Hcfg Hwf] [Ha Hm]. split; rewrite Ha; [done|].
  intros p s Hs. destruct (Hwf _ _ Hs) as [Hs_wf Hmax]. split; [|done].
  by destruct (slice_view_subseteq _ _ _ Hs_wf Hm).
Qed.

Lemma Session_GetMessages_subseteq (h : heap) s h' r :
  Session_GetMessages h s = (h', r) → h ⊆ h'.
Proof.
  unfold Session_GetMessages, go_make, go_copy, array_write.
  intros [= <- <-]. cbn [s_ptr s_off s_len].
  rewrite insert_insert_eq. apply insert_subseteq, fresh_loc_None.
Qed.

Lemma runs_GetMessages p :
  runs (λ st, is_Some (sessions (agent st) !! p)) (GetMessages p).
Proof.
  intros st [s Hs]. unfold GetMessages. m_unfold. unfold deref. st_simpl.
  rewrite Hs. destruct (Session_GetMessages (mem st) s) as [h' r] eqn:Hget.
  st_simpl. eexists _, _. split; [done|]. split; [done|]. st_simpl.
  by eapply Session_GetMessages_subseteq.
Qed.

Lemma runs_buildSystemPromptWithTools P : runs P buildSystemPromptWithTools.
Proof. unfold buildSystemPromptWithTools. intros st _. eexists _, _. split; [done|]. by split. Qed.

Lemma runs_buildSmartSystemPrompt P : runs P buildSmartSystemPrompt.
Proof. unfold buildSmartSystemPrompt. intros st _. eexists _, _. split; [done|]. by split. Qed.

Lemma runs_buildConversationPrompt p :
  runs (λ st, is_Some (sessions (agent st) !! p)) (buildConversationPrompt p).
Proof.
  unfold buildConversationPrompt.
  apply runs_bind; [apply stable_has_session|apply runs_GetMessages|intros ?].
  runs_go.
Qed.

Lemma runs_callAI P sys conv : runs P (callAI sys conv).
Proof.
  intros st _. unfold callAI. m_unfold. st_simpl.
  destruct (aiClient (agent st) sys conv (world st)) as [w out].
  eexists _, _. split; [done|]. by split.
Qed.

Lemma runs_executeToolCalls P ctx calls : runs P (executeToolCalls ctx calls).
Proof.
  intros st _. rewrite executeToolCalls_run.
  destruct (run_calls ctx (tools (agent st)) calls (world st)) as [[rs w'] evs].
  eexists _, _. split; [done|]. by split.
Qed.

Lemma runs_BuildContext_loop traders : ∀ ctx,
  runs (λ _, True) (BuildContext_loop traders ctx).
Proof.
  induction traders as [|[id trader] rest IH]; intros ctx st _; cbn [BuildContext_loop].
  - eexists _, _. split; [done|apply frame_refl].
  - m_unfold. st_simpl.
    destruct (Trader_GetAccountInfo trader (world st)) as [w1 [accountInfo err]].
    st_simpl.
    set (p1 := match err with None => _ | Some _ => _ end).
    destruct p1 as [summary1 ctx1]. st_simpl.
    destruct (Trader_GetPositions trader w1) as [w2 [positions err']]. st_simpl.
    destruct err' as [e'|];
      (edestruct IH as (a & st' & Hrun & Ha & Hm); [done|];
       rewrite Hrun; st_simpl; eexists _, _; split; [done|]; by split).
Qed.

Lemma runs_BuildContext P : runs P BuildContext.
Proof.
  intros st _. unfold BuildContext. m_unfold.
  destruct (time_Now (world st)) as [w t]. st_simpl.
  destruct (GetAllTraders (traderManager st) w) as [w1 traders]. st_simpl.
  edestruct (runs_BuildContext_loop traders) as (a & st' & Hrun & Ha & Hm);
    [done|].
  rewrite Hrun. st_simpl. eexists _, _. split; [done|]. by split.
Qed.

Lemma runs_buildSmartConversationPrompt p msg :
  runs (λ st, is_Some (sessions (agent st) !! p)) (buildSmartConversationPrompt p msg).
Proof.
  unfold buildSmartConversationPrompt.
  apply runs_bind; [apply stable_has_session|runs_prim|intros inject].
  apply runs_bind; [apply stable_has_session| |intros sb].
  - destruct inject; [|runs_go].
    apply runs_bind; [apply stable_has_session|apply runs_BuildContext|intros ?].
    runs_go.
  - apply runs_bind; [apply stable_has_session|apply runs_GetMessages|intros ?].
    runs_go.
Qed.

End FrameFacts.

(** ** agent.go: the loop of [Chat] *)

Section ChatFacts.
Context `{GoRuntime} `{Environment}.

Lemma parseResponse_no_error response : (parseResponse response).2 = None.
Proof.
  unfold parseResponse. repeat case_match; done.
Qed.

Lemma callAI_eq sys conv st :
  callAI sys conv st
  = let '(w1, out) := aiClient (agent st) sys conv (world st) in
    Some (out, set_world w1 (set_trace (trace st ++ [EAICall sys conv]) st)).
Proof.
  unfold callAI. m_unfold. st_simpl.
  by destruct (aiClient (agent st) sys conv (world st)).
Qed.

(** One iteration of the loop, on explicit states. *)
Lemma Chat_loop_S v fuel ctx sys conv final count st :
  Chat_loop v (S fuel) ctx sys conv final count st =
  match ctx_Err ctx (world st) with
  | Some e => Some (Some (LoopReturn e), st)
  | None =>
      let maxCalls := MaxToolCalls (config (agent st)) in
      if decide (count >= maxCalls) then
        Some (Some (LoopBreak final),
              set_trace (trace st ++ [ELog LWarn (max_calls_warning v maxCalls)]) st)
      else
        let '(w1, (response, err)) := aiClient (agent st) sys conv (world st) in
        let st1 := after_ai sys conv w1 st in
        match err with
        | Some e => Some (Some (LoopReturn ("AI call failed: " +:+ e)), st1)
        | None =>
            let toolCalls := (parseResponse response).1.1 in
            let textResponse := (parseResponse response).1.2 in
            if decide (length toolCalls = 0%nat) then
              Some (Some (LoopBreak textResponse), st1)
            else
              let '(rs, w2, evs) := run_calls ctx (tools (agent st)) toolCalls w1 in
              Chat_loop v fuel ctx sys (conv +:+ fold_back v toolCalls rs)
                (if decide (textResponse ≠ "") then textResponse else final)
                (count + Z.of_nat (length toolCalls))
                (after_tools evs w2 st1)
        end
  end.
Proof.
  cbn [Chat_loop]. rewrite (bind_eq _ _ st (world st) st) by done.
  destruct (ctx_Err ctx (world st)) as [e|]; [done|].
  rewrite (bind_eq _ _ st (MaxToolCalls (config (agent st))) st) by done.
  cbn zeta. case_decide; [done|].
  pose proof (callAI_eq sys conv st) as Hcall.
  destruct (aiClient (agent st) sys conv (world st)) as [w1 [response err]].
  rewrite (bind_eq _ _ _ _ _ Hcall).
  destruct err as [e|]; [done|].
  pose proof (parseResponse_no_error response) as Hperr.
  destruct (parseResponse response) as [[toolCalls textResponse] perr].
  simpl in Hperr. subst perr. cbn [fst snd].
  case_decide; [done|].
  unfold mbind, M_bind, bind. rewrite executeToolCalls_run. st_simpl.
  by destruct (run_calls ctx (tools (agent st)) toolCalls w1) as [[rs w2] evs].
Qed.

(** The loop always returns, and what it returns is a run. *)
Lemma Chat_loop_run v fuel ctx sys : ∀ conv final count st,
  ∃ exit st',
    Chat_loop v fuel ctx sys conv final count st = Some (exit, st') ∧
    loop_run v ctx sys conv final count st exit st'.
Proof.
  induction fuel as [|fuel IH]; intros conv final count st.
  - eexists _, _. split; [done|]. constructor.
  - rewrite Chat_loop_S.
    destruct (ctx_Err ctx (world st)) as [e|] eqn:Hctx.
    { eexists _, _. split; [done|]. by constructor. }
    cbn zeta. case_decide as Hcap.
    { eexists _, _. split; [done|]. by constructor. }
    destruct (aiClient (agent st) sys conv (world st)) as [w1 [response err]] eqn:Hai.
    destruct err as [e|].
    { eexists _, _. split; [done|]. eapply run_ai_failed; [done|lia|done]. }
    case_decide as Hlen.
    { eexists _, _. split; [done|]. apply run_answer; [done|lia|done|done]. }
    destruct (run_calls ctx (tools (agent st)) (parseResponse response).1.1 w1)
      as [[rs w2] evs] eqn:Hrun.
    edestruct IH as (exit & st' & Hloop & Hr).
    eexists _, _. split; [exact Hloop|].
    eapply run_tools; [done|lia|done|done|done|done].
Qed.

(** A run only records events; the agent and the heap stay as they are. *)
Lemma loop_run_frame v ctx sys conv final count st exit st' :
  loop_run v ctx sys conv final count st exit st' →
  agent st' = agent st ∧ mem st' = mem st ∧
  ∃ evs, new_events st st' evs.
Proof.
  unfold new_events.
  induction 1 as [| | | | |????????????????? IH]; try (split_and!; [done..|]).
  - exists []. by rewrite app_nil_r.
  - exists []. by rewrite app_nil_r.
  - by eexists.
  - by eexists.
  - by eexists.
  - destruct IH as (Ha & Hm & evs' & Hev). st_simpl. split_and!; [done..|].
    unfold after_tools, after_ai in Hev. st_simpl.
    eexists. rewrite Hev, <- !app_assoc. done.
Qed.

(** The fuel [Chat] gives the loop never runs out: every iteration that
    goes on has added to a counter that was below the maximum. *)
Lemma Chat_loop_enough_fuel v fuel ctx sys : ∀ conv final count st exit st',
  (Z.to_nat (MaxToolCalls (config (agent st)) - count) < fuel)%nat →
  Chat_loop v fuel ctx sys conv final count st = Some (exit, st') →
  exit ≠ None.
Proof.
  induction fuel as [|fuel IH]; intros conv final count st exit st' Hfuel; [lia|].
  rewrite Chat_loop_S.
  destruct (ctx_Err ctx (world st)) as [e|]; [by intros [= <- _]|].
  cbn zeta. case_decide as Hcap; [by intros [= <- _]|].
  destruct (aiClient (agent st) sys conv (world st)) as [w1 [response err]].
  destruct err as [e|]; [by intros [= <- _]|].
  case_decide as Hlen; [by intros [= <- _]|].
  destruct (run_calls ctx (tools (agent st)) (parseResponse response).1.1 w1)
    as [[rs w2] evs].
  apply IH. unfold after_tools, after_ai. st_simpl. lia.
Qed.

(** An error the loop returns is the context's or the AI client's. *)
Lemma loop_run_error v ctx sys conv final count st exit st' :
  loop_run v ctx sys conv final count st exit st' →
  ∀ err, exit = Some (LoopReturn err) →
    (∃ w, ctx_Err ctx w = Some err) ∨
    (∃ conv' w w1 response e,
        aiClient (agent st) sys conv' w = (w1, (response, Some e)) ∧
        err = "AI call failed: " +:+ e).
Proof.
  induction 1 as [| | | | |????????????????? IH]; intros err' Hexit; try done.
  - injection Hexit as <-. eauto.
  - injection Hexit as <-. right. eauto 10.
  - apply IH in Hexit. unfold after_tools, after_ai in Hexit. st_simpl. done.
Qed.

Lemma run_calls_no_ai ctx ts calls : ∀ w, ai_calls (run_calls ctx ts calls w).2 = [].
Proof.
  induction calls as [|call rest IH]; intros w; [done|].
  cbn [run_calls]. destruct (ts !! ToolCall_Name call) as [tool|].
  - destruct (Tool_Execute tool ctx (ToolCall_Arguments call) w) as [[w1 effects] out].
    specialize (IH w1). destruct (run_calls ctx ts rest w1) as [[rs w'] evs].
    cbn [fst snd] in *.
    change (ai_calls ((EHandler (ToolCall_Name call) <$> effects) ++
              match out.2 with
              | Some e => ELog LError ("❌ Tool " +:+ ToolCall_Name call +:+ " failed: " +:+ e)
              | None => ELog LInfo ("✅ Tool " +:+ ToolCall_Name call +:+ " completed")
              end :: evs) = []).
    rewrite ai_calls_handler. by destruct (out.2).
  - specialize (IH w). by destruct (run_calls ctx ts rest w) as [[rs w'] evs].
Qed.

(** The cap bounds the completions of a turn: each one is requested with
    the counter below the maximum, and each but the last raises it. *)
Lemma loop_run_ai_calls v ctx sys conv final count st exit st' :
  loop_run v ctx sys conv final count st exit st' →
  ∀ evs, new_events st st' evs →
    (length (ai_calls evs) ≤ Z.to_nat (MaxToolCalls (config (agent st)) - count))%nat.
Proof.
  unfold new_events.
  induction 1; intros evs' Hev; unfold after_tools, after_ai in *; st_simpl.
  - rewrite <- (app_nil_r (trace st)) in Hev at 1.
    apply app_inv_head in Hev. subst. simpl. lia.
  - rewrite <- (app_nil_r (trace st)) in Hev at 1.
    apply app_inv_head in Hev. subst. simpl. lia.
  - apply app_inv_head in Hev. subst. simpl. lia.
  - apply app_inv_head in Hev. subst. simpl. lia.
  - apply app_inv_head in Hev. subst. simpl. lia.
  - match goal with Hl : loop_run _ _ _ _ _ _ _ _ _ |- _ =>
      destruct (loop_run_frame _ _ _ _ _ _ _ _ _ Hl) as (_ & _ & evs2 & Hev2)
    end.
    specialize (IHloop_run evs2 Hev2). unfold new_events in *. st_simpl.
    rewrite Hev2, <- !app_assoc in Hev.
    apply app_inv_head in Hev. subst evs'.
    pose proof (run_calls_no_ai ctx (tools (agent st)) (parseResponse response).1.1 w1)
      as Hno.
    match goal with Hr : run_calls _ _ _ _ = _ |- _ => rewrite Hr in Hno end.
    cbn [snd] in Hno.
    unfold ai_calls in *. simpl. rewrite !omap_app, Hno. simpl. lia.
Qed.

(** At the cap the loop stops at once, with the text captured so far and
    without a completion. *)
Lemma Chat_loop_at_cap v fuel ctx sys conv final count st :
  ctx_Err ctx (world st) = None →
  count >= MaxToolCalls (config (agent st)) →
  ∃ st' evs,
    Chat_loop v (S fuel) ctx sys conv final count st
    = Some (Some (LoopBreak final), st') ∧
    new_events st st' evs ∧ ai_calls evs = [] ∧ tool_execs evs = [].
Proof.
  intros Hctx Hcap. rewrite Chat_loop_S, Hctx. cbn zeta.
  rewrite decide_True by done. eexists _, _. split; [done|]. by split.
Qed.

(** [parseResponse] keeps its slice expressions within the response. *)
Lemma brace_block_in_range response :
  let start := strings_Index response "{" in
  let end_ := strings_LastIndex response "}" in
  start >= 0 → end_ > start →
  String.get (Z.to_nat start) response = Some "{"%char ∧
  (∀ n, (n < Z.to_nat start)%nat → String.get n response ≠ Some "{"%char) ∧
  String.get (Z.to_nat end_) response = Some "}"%char ∧
  (∀ n, (Z.to_nat end_ < n)%nat → String.get n response ≠ Some "}"%char) ∧
  end_ + 1 <= Z.of_nat (String.length response).
Proof.
  cbn zeta. unfold strings_Index, strings_LastIndex. intros Hs He.
  destruct (index_from_char "{"%char response 0 ltac:(lia)) as [[Hi _]|(_ & Hg & Hmin)];
    [lia|].
  destruct (last_index_from_char "}"%char response 0 ltac:(lia))
    as [[Hj _]|(_ & Hg' & Hmax)]; [lia|].
  rewrite Z.sub_0_r in *. split_and!; try done.
  apply get_Some_length in Hg'. lia.
Qed.

(** C6, as amended. A response that holds the text tool_calls and an
    opening brace before its last closing brace is cut at the first
    opening and the last closing brace; the block between is decoded,
    and when that succeeds the calls are the decoded ones and the text
    is what surrounds the block, white space trimmed at both ends. In
    every other case (no tool_calls in the response, no such pair of
    braces, decoding fails) there are no calls and the text is the whole
    response. A completion without tool calls ends the loop with that
    text, after the one completion and nothing else. *)
Theorem parseResponse_brace_block (response : string) :
  let start := strings_Index response "{" in
  let end_ := strings_LastIndex response "}" in
  let pre := str_to response start in
  let block := str_range response start (end_ + 1) in
  let post := str_from response (end_ + 1) in
  (strings_Contains response "tool_calls" = true → start >= 0 → end_ > start →
     response = pre +:+ block +:+ post ∧
     String.get (Z.to_nat start) response = Some "{"%char ∧
     (∀ n, (n < Z.to_nat start)%nat → String.get n response ≠ Some "{"%char) ∧
     String.get (Z.to_nat end_) response = Some "}"%char ∧
     (∀ n, (Z.to_nat end_ < n)%nat → String.get n response ≠ Some "}"%char) ∧
     parseResponse response
     = match json_Unmarshal block with
       | Some parsed =>
           ((λ tc, mkToolCall tc.1 tc.2) <$> parsed,
            strings_TrimSpace (pre +:+ post), None)
       | None => ([], response, None)
       end) ∧
  (strings_Contains response "tool_calls" = false ∨ start < 0 ∨ end_ <= start →
     parseResponse response = ([], response, None)) ∧
  (∀ v fuel ctx sys conv final count st w1,
     ctx_Err ctx (world st) = None →
     count < MaxToolCalls (config (agent st)) →
     aiClient (agent st) sys conv (world st) = (w1, (response, None)) →
     (parseResponse response).1.1 = [] →
     Chat_loop v (S fuel) ctx sys conv final count st
     = Some (Some (LoopBreak (parseResponse response).1.2), after_ai sys conv w1 st)).
Proof.
  cbn zeta. split_and!.
  - intros Hgate Hs He.
    destruct (brace_block_in_range response Hs He) as (H1 & H2 & H3 & H4 & _).
    split_and!; try done.
    + symmetry. apply str_cut. lia.
    + unfold parseResponse. rewrite Hgate. rewrite decide_True by done. done.
  - intros Hno. unfold parseResponse.
    destruct (strings_Contains response "tool_calls"); [|done].
    rewrite decide_False; [done|]. destruct Hno as [?|[?|?]]; [done|lia|lia].
  - intros v fuel ctx sys conv final count st w1 Hctx Hcount Hai Hnil.
    rewrite Chat_loop_S, Hctx. cbn zeta. rewrite decide_False by lia.
    rewrite Hai. rewrite decide_True; [done|]. by rewrite Hnil.
Qed.

Lemma same_setup_refl st : same_setup st st.
Proof. done. Qed.

Lemma same_setup_trans st1 st2 st3 :
  same_setup st1 st2 → same_setup st2 st3 → same_setup st1 st3.
Proof. intros (?&?&?) (?&?&?). split_and!; congruence. Qed.

Lemma frame_same_setup st st' : frame st st' → same_setup st st'.
Proof. intros [Ha _]. unfold same_setup. by rewrite Ha. Qed.

(** [GetSession]: the session is there afterwards, with the history and
    the capacity it had, or empty and with the configured capacity when
    it is new. *)
Lemma Agent_GetSession_spec sessionID st :
  state_wf st →
  ∃ st',
    Agent_GetSession sessionID st = Some (sessionID, st') ∧
    state_wf st' ∧ is_Some (sessions (agent st') !! sessionID) ∧
    history st' sessionID = history st sessionID ∧
    capacity st' sessionID = capacity st sessionID ∧
    same_setup st st'.
Proof.
  intros [Hcfg Hwf]. unfold Agent_GetSession. m_unfold. st_simpl.
  unfold history, capacity.
  destruct (sessions (agent st) !! sessionID) as [s|] eqn:Hs.
  - eexists. split; [done|]. st_simpl. rewrite Hs.
    split_and!; [by split|eauto|done|done|done].
  - st_simpl. destruct (time_Now (world st)) as [w1 t1]. st_simpl.
    destruct (time_Now w1) as [w2 t2]. st_simpl.
    destruct (NewSession (mem st) sessionID (MaxHistoryMessages (config (agent st))) t1 t2)
      as [h1 s] eqn:Hnew.
    destruct (NewSession_spec _ _ _ _ _ _ _ Hnew) as (Hv & Hl & Hswf & Hmax & Hid & Hle).
    st_simpl. eexists. split; [done|]. st_simpl.
    rewrite lookup_insert_eq. split_and!; [|eauto|done|done|done].
    split; [done|]. st_simpl. intros p s' Hp.
    destruct (decide (sessionID = p)) as [<-|Hne].
    + rewrite lookup_insert_eq in Hp. injection Hp as <-. split; [done|lia].
    + rewrite lookup_insert_ne in Hp by done. destruct (Hwf _ _ Hp) as [Hp_wf Hp_max].
      split; [|done]. by eapply slice_wf_heap_le.
Qed.

(** [AddMessage] through the pointer: the history gains the message and
    is cut to the capacity. *)
Lemma AddMessage_spec p msg st :
  state_wf st → is_Some (sessions (agent st) !! p) →
  ∃ st',
    AddMessage p msg st = Some (tt, st') ∧
    state_wf st' ∧ is_Some (sessions (agent st') !! p) ∧
    history st' p = lastn (Z.to_nat (capacity st p)) (history st p ++ [msg]) ∧
    capacity st' p = capacity st p ∧
    same_setup st st'.
Proof.
  intros [Hcfg Hwf] [s Hs]. unfold AddMessage, deref, store_session. m_unfold. st_simpl.
  unfold history, capacity. rewrite Hs. st_simpl.
  destruct (time_Now (world st)) as [w1 t1]. st_simpl.
  destruct (Hwf _ _ Hs) as [Hs_wf Hs_max].
  destruct (Session_AddMessage_spec (mem st) s msg t1 Hs_wf Hs_max)
    as (h' & s' & Hadd & Hview & Hwf' & Hmax' & _ & Hle & _).
  rewrite Hadd. st_simpl. eexists. split; [done|]. st_simpl.
  rewrite lookup_insert_eq. split_and!; [|eauto|done|done|done].
  split; [done|]. st_simpl. intros q sq Hq.
  destruct (decide (p = q)) as [<-|Hne].
  - rewrite lookup_insert_eq in Hq. injection Hq as <-. split; [done|lia].
  - rewrite lookup_insert_ne in Hq by done. destruct (Hwf _ _ Hq) as [Hq_wf Hq_max].
    split; [|done]. by eapply slice_wf_heap_le.
Qed.

Lemma now_frame st : ∃ t st', now st = Some (t, st') ∧ frame st st'.
Proof.
  unfold now. destruct (time_Now (world st)) as [w t].
  eexists _, _. split; [done|]. by split.
Qed.

Lemma frame_has_session st st' p :
  frame st st' → is_Some (sessions (agent st) !! p) → is_Some (sessions (agent st') !! p).
Proof. intros [Ha _]. by rewrite Ha. Qed.

Lemma loop_run_is_frame v ctx sys conv final count st exit st' :
  loop_run v ctx sys conv final count st exit st' → frame st st'.
Proof.
  intros Hrun. destruct (loop_run_frame _ _ _ _ _ _ _ _ _ Hrun) as (Ha & Hm & _).
  split; [done|]. by rewrite Hm.
Qed.

(** A whole turn, for either [Chat]: it returns, and the session holds
    the user message and, unless the turn ended in an error, the
    assistant's answer after it, each append cut to the capacity. *)
Lemma Chat_with_spec v buildSystem buildConversation ctx sessionID userMessage st :
  state_wf st →
  runs (λ st, is_Some (sessions (agent st) !! sessionID)) buildSystem →
  runs (λ st, is_Some (sessions (agent st) !! sessionID))
       (buildConversation sessionID) →
  ∃ r st' t,
    Chat_with v buildSystem buildConversation ctx sessionID userMessage st
    = Some (r, st') ∧
    state_wf st' ∧ same_setup st st' ∧
    let hist1 :=
      lastn (Z.to_nat (capacity st sessionID))
            (history st sessionID ++ [mkMessage "user" userMessage t "" None]) in
    match r with
    | (None, Some err) =>
        history st' sessionID = hist1 ∧
        ((∃ w, ctx_Err ctx w = Some err) ∨
         (∃ sys conv w w1 response e,
             aiClient (agent st) sys conv w = (w1, (response, Some e)) ∧
             err = "AI call failed: " +:+ e))
    | (Some resp, None) =>
        SessionID resp = sessionID ∧
        ∃ t', history st' sessionID
              = lastn (Z.to_nat (capacity st sessionID))
                      (hist1 ++ [mkMessage "assistant" (Text resp) t' "" None])
    | _ => False
    end.
Proof.
  intros Hwf HA HB. unfold Chat_with.
  destruct (Agent_GetSession_spec sessionID st Hwf)
    as (st1 & Hget & Hwf1 & Hhas1 & Hhist1 & Hcap1 & Hset1).
  rewrite (bind_eq _ _ _ _ _ Hget).
  destruct (now_frame st1) as (t & st1' & Hnow & Hf1).
  rewrite (bind_eq _ _ _ _ _ Hnow).
  pose proof (state_wf_frame _ _ Hwf1 Hf1) as Hwf1'.
  pose proof (frame_has_session _ _ _ Hf1 Hhas1) as Hhas1'.
  destruct (AddMessage_spec sessionID (mkMessage "user" userMessage t "" None) st1' Hwf1' Hhas1')
    as (st2 & Hadd & Hwf2 & Hhas2 & Hhist2 & Hcap2 & Hset2).
  rewrite (bind_eq _ _ _ _ _ Hadd).
  destruct (HA st2 Hhas2) as (sys & st3 & HrunA & Hf3).
  rewrite (bind_eq _ _ _ _ _ HrunA).
  pose proof (state_wf_frame _ _ Hwf2 Hf3) as Hwf3.
  pose proof (frame_has_session _ _ _ Hf3 Hhas2) as Hhas3.
  destruct (HB st3 Hhas3) as (conv & st4 & HrunB & Hf4).
  rewrite (bind_eq _ _ _ _ _ HrunB).
  pose proof (state_wf_frame _ _ Hwf3 Hf4) as Hwf4.
  pose proof (frame_has_session _ _ _ Hf4 Hhas3) as Hhas4.
  rewrite (bind_eq _ _ st4 (MaxToolCalls (config (agent st4))) st4) by done.
  destruct (Chat_loop_run v (Chat_fuel (MaxToolCalls (config (agent st4)))) ctx sys conv "" 0 st4)
    as (exit & st5 & Hloop & Hrun).
  rewrite (bind_eq _ _ _ _ _ Hloop).
  assert (Hexit : exit ≠ None).
  { eapply Chat_loop_enough_fuel; [|exact Hloop]. unfold Chat_fuel. lia. }
  pose proof (loop_run_is_frame _ _ _ _ _ _ _ _ _ Hrun) as Hf5.
  pose proof (state_wf_frame _ _ Hwf4 Hf5) as Hwf5.
  pose proof (frame_has_session _ _ _ Hf5 Hhas4) as Hhas5.
  assert (Hf25 : frame st2 st5).
  { eapply frame_trans; [exact Hf3|]. eapply frame_trans; [exact Hf4|exact Hf5]. }
  assert (Hset5 : same_setup st st5).
  { eapply same_setup_trans; [exact Hset1|].
    eapply same_setup_trans; [apply frame_same_setup, Hf1|].
    eapply same_setup_trans; [exact Hset2|]. by apply frame_same_setup. }
  assert (Hh5 : history st5 sessionID
                = lastn (Z.to_nat (capacity st sessionID))
                    (history st sessionID ++ [mkMessage "user" userMessage t "" None])).
  { rewrite (history_frame _ _ _ Hwf2 Hf25), Hhist2.
    rewrite (capacity_frame _ _ _ Hf1), Hcap1.
    by rewrite (history_frame _ _ _ Hwf1 Hf1), Hhist1. }
  assert (Hc5 : capacity st5 sessionID = capacity st sessionID).
  { rewrite (capacity_frame _ _ _ Hf25), Hcap2, (capacity_frame _ _ _ Hf1). done. }
  destruct exit as [[err|final]|]; [| |done]; cbn [Chat_finish].
  - exists (None, Some err), st5, t. split; [done|]. split; [done|]. split; [done|].
    cbn zeta. split; [done|].
    destruct (loop_run_error _ _ _ _ _ _ _ _ _ Hrun err eq_refl) as [Hc|Hai]; [by left|].
    right. destruct Hai as (conv' & w & w1 & response & e & Hai & ->).
    destruct Hset1 as (_ & Hai1 & _). destruct Hset2 as (_ & Hai2 & _).
    destruct Hf1 as [Ha1 _]. destruct Hf3 as [Ha3 _]. destruct Hf4 as [Ha4 _].
    exists sys, conv', w, w1, response, e. split; [|done].
    rewrite <- Hai. rewrite Ha4, Ha3, Hai2, Ha1, Hai1. done.
  - destruct (now_frame st5) as (t' & st5' & Hnow' & Hf5').
    rewrite (bind_eq _ _ _ _ _ Hnow').
    pose proof (state_wf_frame _ _ Hwf5 Hf5') as Hwf5'.
    pose proof (frame_has_session _ _ _ Hf5' Hhas5) as Hhas5'.
    destruct (AddMessage_spec sessionID (mkMessage "assistant" final t' "" None) st5' Hwf5' Hhas5')
      as (st6 & Hadd6 & Hwf6 & Hhas6 & Hhist6 & Hcap6 & Hset6).
    rewrite (bind_eq _ _ _ _ _ Hadd6).
    eexists (Some _, None), st6, t. split; [done|]. split; [done|]. split.
    { eapply same_setup_trans; [exact Hset5|].
      eapply same_setup_trans; [apply frame_same_setup, Hf5'|exact Hset6]. }
    cbn zeta. split; [done|]. exists t'. cbn [Text].
    rewrite Hhist6, (capacity_frame _ _ _ Hf5'), Hc5.
    by rewrite (history_frame _ _ _ Hwf5 Hf5'), Hh5.
Qed.

Lemma Agent_Chat_shape ctx sessionID userMessage :
  Agent_Chat ctx sessionID userMessage
  = Chat_with BaseAgent buildSystemPromptWithTools buildConversationPrompt
              ctx sessionID userMessage.
Proof. done. Qed.

Lemma SmartAgent_Chat_shape ctx sessionID userMessage :
  SmartAgent_Chat ctx sessionID userMessage
  = Chat_with Smart buildSmartSystemPrompt
              (λ session, buildSmartConversationPrompt session userMessage)
              ctx sessionID userMessage.
Proof. done. Qed.

Lemma last_lastn_snoc {A} (k : nat) (l : list A) (x : A) :
  (1 ≤ k)%nat → last (lastn k (l ++ [x])) = Some x.
Proof.
  intros Hk. unfold lastn. rewrite length_app. simpl.
  rewrite drop_app_le by lia. by rewrite last_snoc.
Qed.

(** C10. A turn of [Agent.Chat] ([smart = false]) or [SmartAgent.Chat]
    ([smart = true]) that returns an error returns no response with it;
    the error is the context's or the AI client's (wrapped); the session
    history is what the [AddMessage] of the user message made of it,
    nothing rolled back and no assistant message appended: with room for
    one message at least, the user message is its last entry. *)
Theorem Chat_abort_keeps_user_message (smart : bool) (ctx : GoContext)
    (sessionID userMessage : string) (st : State)
    (resp : option AgentResponse) (err : string) (st' : State) :
  state_wf st →
  (if smart then SmartAgent_Chat else Agent_Chat) ctx sessionID userMessage st
  = Some ((resp, Some err), st') →
  resp = None ∧
  ((∃ w, ctx_Err ctx w = Some err) ∨
   (∃ sys conv w w1 response e,
       aiClient (agent st) sys conv w = (w1, (response, Some e)) ∧
       err = "AI call failed: " +:+ e)) ∧
  ∃ t, let user := mkMessage "user" userMessage t "" None in
       history st' sessionID
       = lastn (Z.to_nat (capacity st sessionID)) (history st sessionID ++ [user]) ∧
       (1 <= capacity st sessionID → last (history st' sessionID) = Some user).
Proof.
  intros Hwf Hchat.
  assert (Hspec : ∃ v A B,
    (if smart then SmartAgent_Chat else Agent_Chat) ctx sessionID userMessage
    = Chat_with v A B ctx sessionID userMessage ∧
    runs (λ st, is_Some (sessions (agent st) !! sessionID)) A ∧
    runs (λ st, is_Some (sessions (agent st) !! sessionID)) (B sessionID)).
  { destruct smart.
    - eexists _, _, _. split; [apply SmartAgent_Chat_shape|]. split.
      + apply runs_buildSmartSystemPrompt.
      + apply runs_buildSmartConversationPrompt.
    - eexists _, _, _. split; [apply Agent_Chat_shape|]. split.
      + apply runs_buildSystemPromptWithTools.
      + apply runs_buildConversationPrompt. }
  destruct Hspec as (v & A & B & Heq & HA & HB). rewrite Heq in Hchat.
  destruct (Chat_with_spec v A B ctx sessionID userMessage st Hwf HA HB)
    as (r & st'' & t & Hrun & _ & _ & Hr).
  rewrite Hrun in Hchat. injection Hchat as -> ->.
  cbn zeta in Hr. destruct resp as [resp|]; [done|].
  destruct Hr as [Hhist Horigin]. split; [done|]. split; [done|].
  exists t. cbn zeta. split; [done|].
  intros Hcap. rewrite Hhist. apply last_lastn_snoc. lia.
Qed.

End ChatFacts.

(** ** The monitor: the suppression window *)

Section MonitorFacts.
Context `{GoRuntime} `{Environment}.

Lemma sendAlert_eq alert st :
  sendAlert alert st
  = Some (tt, set_trace (trace st ++ ERLock Monitor_callbackMu
                           :: ERUnlock Monitor_callbackMu
                           :: ((λ cb, EGo cb alert) <$> alertCallbacks (monitor st)))
                        st).
Proof.
  unfold sendAlert. m_unfold. st_simpl. by rewrite <- !app_assoc.
Qed.

Lemma deliveries_app e1 e2 : deliveries (e1 ++ e2) = deliveries e1 ++ deliveries e2.
Proof. unfold deliveries. apply omap_app. Qed.

Lemma deliveries_go cbs alert :
  deliveries ((λ cb, EGo cb alert) <$> cbs) = fan_out cbs alert.
Proof. induction cbs as [|cb cbs IH]; [done|]. simpl. by rewrite <- IH. Qed.

Lemma keeps_bind {A B} (m : M A) (k : A → M B) :
  keeps_lastAlerts m → (∀ a, keeps_lastAlerts (k a)) → keeps_lastAlerts (m ≫= k).
Proof.
  intros Hm Hk st b st'' (a & st' & Hma & Hkb)%bind_Some.
  rewrite (Hk _ _ _ _ Hkb). by eapply Hm.
Qed.

Lemma keeps_ret {A} (a : A) : keeps_lastAlerts (mret a).
Proof. by intros st a' st' [= _ <-]. Qed.

Lemma keeps_gets {A} (f : State → A) : keeps_lastAlerts (gets f).
Proof. by intros st a' st' [= _ <-]. Qed.

Lemma keeps_emit e : keeps_lastAlerts (emit e).
Proof. by intros st a' st' [= _ <-]. Qed.

Lemma keeps_sendAlert alert : keeps_lastAlerts (sendAlert alert).
Proof. intros st a st'. rewrite sendAlert_eq. by intros [= _ <-]. Qed.

Lemma keeps_checkPositionChanges_new positions : ∀ current,
  keeps_lastAlerts (checkPositionChanges_new positions current).
Proof.
  induction positions as [|pos rest IH]; intros current;
    cbn [checkPositionChanges_new]; [apply keeps_ret|].
  apply keeps_bind; [apply keeps_gets|intros lp].
  apply keeps_bind; [|intros ?; apply IH].
  destruct (lp !! position_key pos); [apply keeps_ret|apply keeps_sendAlert].
Qed.

Lemma keeps_checkPositionChanges_closed olds current :
  keeps_lastAlerts (checkPositionChanges_closed olds current).
Proof.
  induction olds as [|[key oldPos] rest IH];
    cbn [checkPositionChanges_closed]; [apply keeps_ret|].
  apply keeps_bind; [|intros ?; apply IH].
  destruct (current !! key); [apply keeps_ret|apply keeps_sendAlert].
Qed.

Lemma keeps_checkPositionChanges ctx : keeps_lastAlerts (checkPositionChanges ctx).
Proof.
  unfold checkPositionChanges.
  apply keeps_bind; [apply keeps_emit|intros ?].
  apply keeps_bind; [apply keeps_checkPositionChanges_new|intros current].
  apply keeps_bind; [apply keeps_gets|intros lp].
  apply keeps_bind; [apply keeps_checkPositionChanges_closed|intros ?].
  apply keeps_bind; [|intros ?; apply keeps_emit].
  by intros st0 u st0' [= _ <-].
Qed.

(** C2, as amended. An alert that goes through [sendAlertIfNew] (the
    alerts derived from the context) is not delivered when the record
    holds, under its (type, message) key, a time less than 5 minutes
    before the clock; it is delivered once to every registered
    callback, and the clock recorded under its key, when the record
    holds no time under the key or one that is 5 minutes old or older.
    Alerts with the same type and message share the key. The
    position-change alerts do not go through this filter:
    [checkPositionChanges] leaves the record as it is. *)
Theorem sendAlertIfNew_window (alert : Alert) (st : State) :
  (∀ other, Type_ other = Type_ alert → Message_ other = Message_ alert →
            alert_key other = alert_key alert) ∧
  (∀ lastSent w1 t,
     lastAlerts (monitor st) !! alert_key alert = Some lastSent →
     time_Now (world st) = (w1, t) →
     t - lastSent < 5 * Minute →
     ∃ st' evs,
       sendAlertIfNew alert st = Some (tt, st') ∧ new_events st st' evs ∧
       deliveries evs = [] ∧
       lastAlerts (monitor st') = lastAlerts (monitor st)) ∧
  (∀ lastSent w1 t w2 t2,
     lastAlerts (monitor st) !! alert_key alert = Some lastSent →
     time_Now (world st) = (w1, t) →
     5 * Minute <= t - lastSent →
     time_Now w1 = (w2, t2) →
     ∃ st' evs,
       sendAlertIfNew alert st = Some (tt, st') ∧ new_events st st' evs ∧
       deliveries evs = fan_out (alertCallbacks (monitor st)) alert ∧
       lastAlerts (monitor st') = <[alert_key alert := t2]> (lastAlerts (monitor st))) ∧
  (∀ w1 t,
     lastAlerts (monitor st) !! alert_key alert = None →
     time_Now (world st) = (w1, t) →
     ∃ st' evs,
       sendAlertIfNew alert st = Some (tt, st') ∧ new_events st st' evs ∧
       deliveries evs = fan_out (alertCallbacks (monitor st)) alert ∧
       lastAlerts (monitor st') = <[alert_key alert := t]> (lastAlerts (monitor st))) ∧
  (∀ ctx, keeps_lastAlerts (checkPositionChanges ctx)).
Proof.
  split_and!.
  - intros other Ht Hm. unfold alert_key. by rewrite Ht, Hm.
  - intros lastSent w1 t Hlast Hnow Hlt.
    unfold sendAlertIfNew. m_unfold. st_simpl. rewrite Hlast. st_simpl.
    rewrite Hnow. st_simpl.
    rewrite bool_decide_eq_true_2 by done.
    eexists _, _. split; [done|]. unfold new_events. st_simpl.
    rewrite <- app_assoc. split; [done|]. done.
  - intros lastSent w1 t w2 t2 Hlast Hnow Hge Hnow2.
    unfold sendAlertIfNew. m_unfold. st_simpl. rewrite Hlast. st_simpl.
    rewrite Hnow. st_simpl.
    rewrite bool_decide_eq_false_2 by lia. st_simpl. rewrite Hnow2. st_simpl.
    eexists _, _. split; [done|]. unfold new_events. st_simpl.
    rewrite <- !app_assoc. split; [done|]. split; [|done].
    rewrite !deliveries_app, deliveries_go. cbn [deliveries omap app].
    by rewrite app_nil_r.
  - intros w1 t Hlast Hnow.
    unfold sendAlertIfNew. m_unfold. st_simpl.
    destruct (lastAlerts (monitor st) !! alert_key alert) eqn:Hl; [done|]. st_simpl.
    rewrite Hnow. st_simpl.
    eexists _, _. split; [done|]. unfold new_events. st_simpl.
    rewrite <- !app_assoc. split; [done|]. split; [|done].
    rewrite !deliveries_app, deliveries_go. cbn [deliveries omap app].
    by rewrite app_nil_r.
  - apply keeps_checkPositionChanges.
Qed.

End MonitorFacts.

(** ** session.go: the other operations *)

Section SessionExtras.
Context `{GoRuntime}.

(** X1. [GetRecentMessages(n)] on a session whose slice is within its
    array: for [n >= 0] it returns the last [min n len] messages in
    order, on a newly allocated array, and leaves the history as it is;
    for a negative [n] it panics ([make] with a negative length). *)
Theorem Session_GetRecentMessages_last_n (h : heap) (s : Session) (n : Z) :
  slice_wf h (messages s) →
  (0 <= n →
     ∃ h' r,
       Session_GetRecentMessages h s n = Some (h', r) ∧
       slice_view h' r = lastn (Z.to_nat n) (slice_view h (messages s)) ∧
       (s_ptr r ∉ dom h) ∧
       slice_view h' (messages s) = slice_view h (messages s)) ∧
  (n < 0 → Session_GetRecentMessages h s n = None).
Proof.
  intros Hwf. pose proof (slice_view_length _ _ Hwf) as Hlen. split.
  - intros Hn. unfold Session_GetRecentMessages.
    destruct (decide (n >= Z.of_nat (s_len (messages s)))) as [Hall|Hpart].
    + destruct (Session_GetMessages h s) as [h' r] eqn:Hget.
      destruct (Session_GetMessages_spec _ _ _ _ Hwf Hget)
        as (Hv & Hfresh & _ & Hkeep & _).
      exists h', r. split_and!; try done.
      rewrite Hv, lastn_all; [done|lia].
    + rewrite decide_True by lia.
      destruct (go_make h (Z.to_nat n)) as [h1 res] eqn:Hmk.
      destruct (go_make_spec _ _ _ _ Hmk) as (Hv & Hl & Hfresh & Hwfr & Hle & Hframe).
      destruct (go_slice_from (messages s) (Z.of_nat (s_len (messages s)) - n))
        as [src|] eqn:Hsl.
      2:{ unfold go_slice_from in Hsl. rewrite decide_True in Hsl by lia. done. }
      cbn.
      assert (Hwf1 : slice_wf h1 (messages s)) by by eapply slice_wf_heap_le.
      destruct (go_slice_from_spec _ _ _ _ Hwf1 Hsl) as (Hsv & Hptr & Hwfs).
      assert (Hne : s_ptr res ≠ s_ptr src).
      { rewrite Hptr. intros Heq. apply Hfresh. rewrite Heq. by apply slice_wf_dom. }
      assert (Hlsrc : s_len res = s_len src).
      { rewrite Hl. rewrite <- (slice_view_length h1 src Hwfs), Hsv, length_drop.
        rewrite (slice_view_length h1 _ Hwf1). lia. }
      destruct (go_copy_spec h1 res src Hwfr Hwfs Hne Hlsrc) as (Hcv & _ & Hcf).
      exists (go_copy h1 res src), res. split_and!; try done.
      * rewrite Hcv, Hsv. rewrite Hframe by by apply slice_wf_dom.
        unfold lastn. f_equal. lia.
      * rewrite Hcf; [by apply Hframe, slice_wf_dom|].
        intros Heq. apply Hfresh. rewrite <- Heq. by apply slice_wf_dom.
  - intros Hn. unfold Session_GetRecentMessages.
    rewrite decide_False by lia. by rewrite decide_False by lia.
Qed.

(** X2. [Clear] leaves the session with an empty history on a new
    array and the clock reading as [UpdatedAt]; it keeps the capacity,
    the metadata, the identity and the user fields; copies handed out
    before are untouched; the next [AddMessage] starts the history
    anew. *)
Theorem Session_Clear_empties (h : heap) (s : Session) (now : Time)
    (h' : heap) (s' : Session) :
  Session_Clear h s now = (h', s') →
  slice_view h' (messages s') = [] ∧ slice_wf h' (messages s') ∧
  maxMessages s' = maxMessages s ∧ Metadata s' = Metadata s ∧
  (ID s', UserID s', UserName s', Platform s', CreatedAt s')
  = (ID s, UserID s, UserName s, Platform s, CreatedAt s) ∧
  UpdatedAt s' = now ∧
  (∀ t, s_ptr t ∈ dom h → slice_view h' t = slice_view h t) ∧
  (0 <= maxMessages s → ∀ msg t,
     ∃ h2 s2, Session_AddMessage h' s' msg t = Some (h2, s2) ∧
              slice_view h2 (messages s2) = lastn (Z.to_nat (maxMessages s)) [msg]).
Proof.
  unfold Session_Clear. destruct (go_make h 0) as [h1 ms] eqn:Hmk.
  intros [= <- <-].
  destruct (go_make_spec _ _ _ _ Hmk) as (Hv & Hl & Hfresh & Hwf & Hle & Hframe).
  cbn. split_and!; try done.
  intros Hmax msg t.
  destruct (Session_AddMessage_spec h1 (set_UpdatedAt now (set_messages ms s)) msg t)
    as (h2 & s2 & Hadd & Hview & _); [done|done|].
  exists h2, s2. split; [done|]. cbn in Hview. by rewrite Hview, Hv.
Qed.

Lemma Session_AddMessage_negative_capacity (h : heap) (s : Session)
    (msg : Message) (now : Time) :
  maxMessages s < 0 → Session_AddMessage h s msg now = None.
Proof.
  intros Hneg. unfold Session_AddMessage.
  destruct (go_append h (messages s) msg) as [h1 ms] eqn:Happ.
  assert (Hlen : s_len ms = S (s_len (messages s))).
  { unfold go_append in Happ. destruct (decide _); by injection Happ as <- <-. }
  rewrite decide_True by lia. unfold go_slice_from.
  by rewrite decide_False by lia.
Qed.

(** X3. [GetMetadata] after [SetMetadata] returns the value that was
    set, with ok true, also when the value is nil; other keys are as
    before; a key that was never set reports (nil, false), as every key
    of a new session does; the messages are not touched. *)
Theorem Session_Metadata_round_trip (s : Session) (key key' : string)
    (v : option Value) :
  Session_GetMetadata (Session_SetMetadata s key v) key = (v, true) ∧
  (key' ≠ key →
     Session_GetMetadata (Session_SetMetadata s key v) key'
     = Session_GetMetadata s key') ∧
  (Metadata s !! key' = None → Session_GetMetadata s key' = (None, false)) ∧
  messages (Session_SetMetadata s key v) = messages s ∧
  (∀ h id M t1 t2,
     Session_GetMetadata (NewSession h id M t1 t2).2 key' = (None, false)).
Proof.
  unfold Session_GetMetadata, Session_SetMetadata. cbn. split_and!.
  - by rewrite lookup_insert_eq.
  - intros Hne. by rewrite lookup_insert_ne.
  - by intros ->.
  - done.
  - intros h id M t1 t2. unfold NewSession. destruct (go_make h 0). cbn.
    by rewrite lookup_empty.
Qed.
End SessionExtras.

(** ** What a turn records *)

Section EmitRules.
Context `{GoRuntime} `{Environment}.
Variable P : Event → Prop.

Lemma emits_ret {A} (a : A) : emits P (mret a).
Proof.
  intros st a' st' [= <- <-]. split; [done|]. exists []. unfold new_events.
  by rewrite app_nil_r.
Qed.

Lemma emits_bind {A B} (m : M A) (k : A → M B) :
  emits P m → (∀ a, emits P (k a)) → emits P (m ≫= k).
Proof.
  intros Hm Hk st b st'' (a & st' & Hma & Hkb)%bind_Some.
  destruct (Hm _ _ _ Hma) as (Hi1 & e1 & Ht1 & Hp1).
  destruct (Hk a _ _ _ Hkb) as (Hi2 & e2 & Ht2 & Hp2).
  split; [congruence|]. exists (e1 ++ e2). unfold new_events in *. split.
  - by rewrite Ht2, Ht1, app_assoc.
  - by apply Forall_app.
Qed.

Lemma emits_silent {A} (m : M A) :
  (∀ st a st', m st = Some (a, st') →
     trace st' = trace st ∧ switches st' = switches st) →
  emits P m.
Proof.
  intros Hm st a st' Hrun. destruct (Hm _ _ _ Hrun) as [Ht Hi].
  split; [done|]. exists []. unfold new_events. by rewrite app_nil_r.
Qed.

Lemma emits_gets {A} (f : State → A) : emits P (gets f).
Proof. apply emits_silent. by intros st a st' [= _ <-]. Qed.

Lemma emits_now : emits P now.
Proof.
  apply emits_silent. intros st a st'. unfold now.
  destruct (time_Now (world st)). by intros [= _ <-].
Qed.

Lemma emits_call_world {A} (f : World → World * A) : emits P (call_world f).
Proof.
  apply emits_silent. intros st a st'. unfold call_world.
  destruct (f (world st)). by intros [= _ <-].
Qed.


Lemma emits_panic {A} : emits P (@panic _ A).
Proof. by intros st a st'. Qed.

Lemma emits_modify (f : State → State) :
  (∀ st, trace (f st) = trace st ∧ switches (f st) = switches st) →
  emits P (modify f).
Proof. intros Hf. apply emits_silent. intros st a st' [= _ <-]. apply Hf. Qed.

Lemma emits_emit_all evs : Forall P evs → emits P (emit_all evs).
Proof. intros Hp st a st' [= _ <-]. split; [done|]. by exists evs. Qed.

Lemma emits_emit e : P e → emits P (emit e).
Proof. intros Hp. apply emits_emit_all. by constructor. Qed.

Lemma emits_deref p : emits P (deref p).
Proof.
  apply emits_silent. intros st a st'. unfold deref.
  destruct (sessions (agent st) !! p); [|done]. by intros [= _ <-].
Qed.

Lemma emits_store_session p hp s : emits P (store_session p hp s).
Proof. by apply emits_modify. Qed.

End EmitRules.

Ltac emits_prim :=
  first
    [ apply emits_ret | apply emits_gets | apply emits_now
    | apply emits_call_world | apply emits_panic
    | apply emits_deref | apply emits_store_session
    | (apply emits_emit; auto; done)
    | (apply emits_modify; done) ].

Ltac emits_go :=
  repeat first
    [ emits_prim
    | (eapply emits_bind; [emits_prim | intros ?])
    | match goal with
      | |- emits _ (let '(_, _) := ?x in _) => destruct x
      | |- emits _ (match ?x with _ => _ end) => destruct x
      end ].

Section EmitFacts.
Context `{GoRuntime} `{Environment}.
Variable P : Event → Prop.
Hypothesis bookkeeping_ok : ∀ e, bookkeeping e → P e.

Local Hint Extern 1 (P _) => (apply bookkeeping_ok; exact I) : core.

Lemma emits_RegisterTool tool : emits P (Agent_RegisterTool tool).
Proof. unfold Agent_RegisterTool. emits_go. Qed.

Lemma emits_GetSession sessionID : emits P (Agent_GetSession sessionID).
Proof.
  unfold Agent_GetSession. emits_go.
Qed.

Lemma emits_AddMessage p msg : emits P (AddMessage p msg).
Proof. unfold AddMessage. emits_go. Qed.

Lemma emits_GetMessages p : emits P (GetMessages p).
Proof. unfold GetMessages. emits_go. Qed.

Lemma emits_buildSystemPromptWithTools : emits P buildSystemPromptWithTools.
Proof. unfold buildSystemPromptWithTools. emits_go. Qed.

Lemma emits_buildSmartSystemPrompt : emits P buildSmartSystemPrompt.
Proof. unfold buildSmartSystemPrompt. emits_go. Qed.

Lemma emits_buildConversationPrompt p : emits P (buildConversationPrompt p).
Proof.
  unfold buildConversationPrompt.
  eapply emits_bind; [apply emits_GetMessages|intros ?]. emits_go.
Qed.

Lemma emits_Chat_finish session sessionID exit :
  emits P (Chat_finish session sessionID exit).
Proof.
  unfold Chat_finish. destruct exit as [[e|final]|]; [emits_go| |emits_go].
  eapply emits_bind; [emits_prim|intros t].
  eapply emits_bind; [apply emits_AddMessage|intros ?]. emits_go.
Qed.

End EmitFacts.

Section EmitLoop.
Context `{GoRuntime} `{Environment}.
Variable P : Event → Prop.
Hypothesis bookkeeping_ok : ∀ e, bookkeeping e → P e.

Local Hint Extern 1 (P _) => (apply bookkeeping_ok; exact I) : core.




Lemma emits_BuildContext_loop traders :
  (∀ what, P (EFetch what)) →
  ∀ ctx, emits P (BuildContext_loop traders ctx).
Proof.
  intros Hfetch. induction traders as [|[id trader] rest IH]; intros ctx.
  - emits_go.
  - cbn [BuildContext_loop].
    eapply emits_bind; [by apply emits_emit|intros ?].
    eapply emits_bind; [emits_prim|intros [accountInfo err]].
    destruct (match err with
              | Some _ => _
              | None => _
              end) as [summary1 ctx1].
    eapply emits_bind; [by apply emits_emit|intros ?].
    eapply emits_bind; [emits_prim|intros [positions err']].
    destruct (match err' with
              | Some _ => _
              | None => _
              end) as [summary2 ctx2].
    apply IH.
Qed.

Lemma emits_BuildContext : (∀ what, P (EFetch what)) → emits P BuildContext.
Proof.
  intros Hfetch. unfold BuildContext.
  eapply emits_bind; [emits_prim|intros t].
  eapply emits_bind; [emits_prim|intros tm].
  eapply emits_bind; [by apply emits_emit|intros ?].
  eapply emits_bind; [emits_prim|intros traders].
  by apply emits_BuildContext_loop.
Qed.

Lemma emits_buildSmartConversationPrompt p msg :
  (∀ what, P (EFetch what)) → emits P (buildSmartConversationPrompt p msg).
Proof.
  intros Hfetch. unfold buildSmartConversationPrompt.
  eapply emits_bind; [emits_prim|intros inject].
  eapply emits_bind; [|intros sb].
  - destruct inject; [|emits_go].
    eapply emits_bind; [by apply emits_BuildContext|intros ?]. emits_go.
  - eapply emits_bind; [by apply emits_GetMessages|intros ?]. emits_go.
Qed.




End EmitLoop.

Section ChatExtras.
Context `{GoRuntime} `{Environment}.

Lemma quiet_bookkeeping e : bookkeeping e → quiet e.
Proof. by destruct e. Qed.


Lemma quiet_no_calls evs : Forall quiet evs → ai_calls evs = [] ∧ tool_execs evs = [].
Proof.
  induction 1 as [|e evs He _ [IH1 IH2]]; [done|].
  unfold ai_calls, tool_execs in *. by destruct e; simpl; rewrite ?IH1, ?IH2.
Qed.

(** The two [Chat] methods are instances of [Chat_with] whose prompt
    builders always return and record neither AI calls nor tool
    executions. *)
Lemma Chat_instance (smart : bool) ctx sessionID userMessage :
  ∃ v A B,
    (if smart then SmartAgent_Chat else Agent_Chat) ctx sessionID userMessage
    = Chat_with v A B ctx sessionID userMessage ∧
    runs (λ st, is_Some (sessions (agent st) !! sessionID)) A ∧
    runs (λ st, is_Some (sessions (agent st) !! sessionID)) (B sessionID) ∧
    emits quiet A ∧ (∀ p, emits quiet (B p)).
Proof.
  destruct smart.
  - eexists _, _, _. split; [apply SmartAgent_Chat_shape|]. split_and!.
    + apply runs_buildSmartSystemPrompt.
    + apply runs_buildSmartConversationPrompt.
    + apply emits_buildSmartSystemPrompt, quiet_bookkeeping.
    + intros p. by apply emits_buildSmartConversationPrompt; [apply quiet_bookkeeping|].
  - eexists _, _, _. split; [apply Agent_Chat_shape|]. split_and!.
    + apply runs_buildSystemPromptWithTools.
    + apply runs_buildConversationPrompt.
    + apply emits_buildSystemPromptWithTools, quiet_bookkeeping.
    + intros p. apply emits_buildConversationPrompt, quiet_bookkeeping.
Qed.

(** A turn in three phases: the session and the prompts, the loop, the
    assistant message. *)
Lemma Chat_with_phases v A B ctx sessionID userMessage st r st' :
  emits quiet A → (∀ p, emits quiet (B p)) →
  Chat_with v A B ctx sessionID userMessage st = Some (r, st') →
  ∃ session st1 sys conv exit st2 evs1 evs2 evs3,
    new_events st st1 evs1 ∧ Forall quiet evs1 ∧ switches st1 = switches st ∧
    loop_run v ctx sys conv "" 0 st1 exit st2 ∧ new_events st1 st2 evs2 ∧
    Chat_finish session sessionID exit st2 = Some (r, st') ∧
    new_events st2 st' evs3 ∧ Forall quiet evs3.
Proof.
  intros HA HB. unfold Chat_with.
  intros (session & s1 & H1 & Hrun)%bind_Some.
  apply bind_Some in Hrun as (t & s2 & H2 & Hrun).
  apply bind_Some in Hrun as (? & s3 & H3 & Hrun).
  apply bind_Some in Hrun as (sys & s4 & H4 & Hrun).
  apply bind_Some in Hrun as (conv & s5 & H5 & Hrun).
  apply bind_Some in Hrun as (maxCalls & s6 & [= <- <-] & Hrun).
  apply bind_Some in Hrun as (exit & s7 & H7 & Hrun).
  destruct (emits_GetSession quiet quiet_bookkeeping _ _ _ _ H1) as (Hs1 & e1 & Ht1 & Hq1).
  destruct (emits_now quiet _ _ _ H2) as (Hs2 & e2 & Ht2 & Hq2).
  destruct (emits_AddMessage quiet quiet_bookkeeping _ _ _ _ _ H3) as (Hs3 & e3 & Ht3 & Hq3).
  destruct (HA _ _ _ H4) as (Hs4 & e4 & Ht4 & Hq4).
  destruct (HB _ _ _ _ H5) as (Hs5 & e5 & Ht5 & Hq5).
  destruct (Chat_loop_run v (Chat_fuel (MaxToolCalls (config (agent s5)))) ctx sys
              conv "" 0 s5) as (exit' & s7' & Hloop & Hlr).
  rewrite H7 in Hloop. injection Hloop as <- <-.
  destruct (loop_run_frame _ _ _ _ _ _ _ _ _ Hlr) as (_ & _ & e6 & Ht6).
  destruct (emits_Chat_finish quiet quiet_bookkeeping _ _ _ _ _ _ Hrun)
    as (_ & e7 & Ht7 & Hq7).
  exists session, s5, sys, conv, exit, s7, (e1 ++ e2 ++ e3 ++ e4 ++ e5), e6, e7.
  unfold new_events in *. split_and!; try done.
  - rewrite Ht5, Ht4, Ht3, Ht2, Ht1. by rewrite <- !app_assoc.
  - by rewrite !Forall_app.
  - congruence.
Qed.

(** X4. From a state whose sessions are well formed, a turn of
    [Agent.Chat] or [SmartAgent.Chat] always returns (no panic, and the
    loop ends within its bound) and leaves the sessions well formed; it
    returns a response or an error, never both and never neither; with
    a response, the session id is the requested one and the history has
    gained the user message and then the assistant message that carries
    the response text, cut to the capacity. *)
Theorem Chat_returns_response_or_error (smart : bool) (ctx : GoContext)
    (sessionID userMessage : string) (st : State) :
  state_wf st →
  ∃ r st',
    (if smart then SmartAgent_Chat else Agent_Chat) ctx sessionID userMessage st
    = Some (r, st') ∧
    state_wf st' ∧
    match r with
    | (Some resp, None) =>
        SessionID resp = sessionID ∧
        ∃ t t',
          history st' sessionID
          = lastn (Z.to_nat (capacity st sessionID))
              (history st sessionID
               ++ [mkMessage "user" userMessage t "" None;
                   mkMessage "assistant" (Text resp) t' "" None])
    | (None, Some err) => True
    | _ => False
    end.
Proof.
  intros Hwf.
  destruct (Chat_instance smart ctx sessionID userMessage)
    as (v & A & B & -> & HA & HB & _).
  destruct (Chat_with_spec v A B ctx sessionID userMessage st Hwf HA HB)
    as (r & st' & t & Hrun & Hwf' & Hsame & Hr).
  exists r, st'. split; [done|]. split; [done|]. cbn zeta in Hr.
  destruct r as [[resp|] [err|]]; try done.
  destruct Hr as (Hid & t' & Hhist). split; [done|].
  exists t, t'. rewrite Hhist, lastn_lastn_app. by rewrite <- app_assoc.
Qed.

(** X5. A turn makes at most [MaxToolCalls] AI completions (none when
    [MaxToolCalls] is zero or negative). With [MaxToolCalls <= 0] no
    tool runs either, and the turn returns the context's error or a
    response with the empty text. *)
Theorem Chat_bounds_AI_calls (smart : bool) (ctx : GoContext)
    (sessionID userMessage : string) (st : State)
    (r : option AgentResponse * option string) (st' : State) :
  (if smart then SmartAgent_Chat else Agent_Chat) ctx sessionID userMessage st
  = Some (r, st') →
  ∃ evs,
    new_events st st' evs ∧
    (length (ai_calls evs) ≤ Z.to_nat (MaxToolCalls (config (agent st))))%nat ∧
    (MaxToolCalls (config (agent st)) <= 0 →
       ai_calls evs = [] ∧ tool_execs evs = [] ∧
       match r with
       | (Some resp, None) => Text resp = ""
       | (None, Some err) => ∃ w, ctx_Err ctx w = Some err
       | _ => False
       end).
Proof.
  destruct (Chat_instance smart ctx sessionID userMessage)
    as (v & A & B & -> & _ & _ & HA & HB).
  intros Hrun.
  destruct (Chat_with_phases _ _ _ _ _ _ _ _ _ HA HB Hrun)
    as (session & st1 & sys & conv & exit & st2 & e1 & e2 & e3
        & Ht1 & Hq1 & Hsw & Hloop & Ht2 & Hfin & Ht3 & Hq3).
  assert (Hmax : MaxToolCalls (config (agent st1)) = MaxToolCalls (config (agent st))).
  { unfold switches in Hsw. by injection Hsw as -> _. }
  destruct (quiet_no_calls _ Hq1) as [Ha1 Hx1].
  destruct (quiet_no_calls _ Hq3) as [Ha3 Hx3].
  exists (e1 ++ e2 ++ e3). split_and!.
  - unfold new_events in *. rewrite Ht3, Ht2, Ht1. by rewrite <- !app_assoc.
  - rewrite !ai_calls_app, Ha1, Ha3, app_nil_r. simpl.
    pose proof (loop_run_ai_calls _ _ _ _ _ _ _ _ _ Hloop _ Ht2) as Hb.
    rewrite Hmax, Z.sub_0_r in Hb. done.
  - intros Hcap. rewrite !ai_calls_app, !tool_execs_app, Ha1, Ha3, Hx1, Hx3, !app_nil_r.
    simpl. unfold new_events in Ht2.
    inversion Hloop; subst; try lia.
    + done.
    + rewrite <- (app_nil_r (trace _)) in Ht2 at 1. apply app_inv_head in Ht2 as <-.
      cbn in Hfin. injection Hfin as <- <-. eauto.
    + cbn [trace set_trace] in Ht2. apply app_inv_head in Ht2 as <-.
      split; [done|]. split; [done|].
      unfold Chat_finish in Hfin.
      apply bind_Some in Hfin as (t & s3 & _ & Hfin).
      apply bind_Some in Hfin as (? & s4 & _ & Hfin).
      by injection Hfin as <- <-.
Qed.






(** X7. With a negative [MaxHistoryMessages], a turn on a session that
    does not exist yet panics: the session is created with the negative
    capacity and the slice expression of its first [AddMessage] is out
    of range. *)
Theorem Chat_negative_history_limit_panics (smart : bool) (ctx : GoContext)
    (sessionID userMessage : string) (st : State) :
  MaxHistoryMessages (config (agent st)) < 0 →
  sessions (agent st) !! sessionID = None →
  (if smart then SmartAgent_Chat else Agent_Chat) ctx sessionID userMessage st = None.
Proof.
  intros Hneg Hnone.
  assert (Hgo : ∀ k : string → M (option AgentResponse * option string),
    (session ← Agent_GetSession sessionID;
     t ← now;
     AddMessage session (mkMessage "user" userMessage t "" None);; k session) st = None).
  { intros k. unfold Agent_GetSession, AddMessage, deref, store_session.
    m_unfold. st_simpl. rewrite Hnone. st_simpl.
    destruct (time_Now (world st)) as [w1 t1]. st_simpl.
    destruct (time_Now w1) as [w2 t2]. st_simpl.
    destruct (NewSession (mem st) sessionID (MaxHistoryMessages (config (agent st))) t1 t2)
      as [h1 s] eqn:Hnew.
    destruct (NewSession_spec _ _ _ _ _ _ _ Hnew) as (_ & _ & _ & Hmax & _).
    st_simpl. destruct (time_Now w2) as [w3 t3]. st_simpl.
    rewrite lookup_insert_eq. st_simpl. destruct (time_Now w3) as [w4 t4]. st_simpl.
    rewrite Session_AddMessage_negative_capacity; [done|]. by rewrite Hmax. }
  destruct smart; apply Hgo.
Qed.
End ChatExtras.

(** ** agent.go: sessions and the tool registry *)

Section AgentExtras.
Context `{GoRuntime} `{Environment}.

(** X8. [GetSession] returns the session of the id when there is one,
    changing nothing of the agent, the heap or the world; otherwise it
    stores a new session with that id, the configured capacity, no
    metadata and an empty history. The histories of the other sessions
    are as before, and a second call finds the session of the first. *)
Theorem Agent_GetSession_get_or_create (sessionID : string) (st : State) :
  state_wf st →
  ∃ st',
    Agent_GetSession sessionID st = Some (sessionID, st') ∧
    (∀ s, sessions (agent st) !! sessionID = Some s →
       agent st' = agent st ∧ mem st' = mem st ∧ world st' = world st) ∧
    (sessions (agent st) !! sessionID = None →
       ∃ s, sessions (agent st') = <[sessionID := s]> (sessions (agent st)) ∧
            ID s = sessionID ∧
            maxMessages s = MaxHistoryMessages (config (agent st)) ∧
            Metadata s = ∅ ∧
            history st' sessionID = []) ∧
    (∀ p, p ≠ sessionID → history st' p = history st p) ∧
    ∃ st'', Agent_GetSession sessionID st' = Some (sessionID, st'') ∧
            agent st'' = agent st' ∧ mem st'' = mem st'.
Proof.
  intros [Hcfg Hwf]. unfold Agent_GetSession. m_unfold. st_simpl.
  destruct (sessions (agent st) !! sessionID) as [s|] eqn:Hs.
  - eexists. split; [done|]. st_simpl. split_and!; try done.
    rewrite Hs. eexists. split; [done|]. done.
  - st_simpl. destruct (time_Now (world st)) as [w1 t1]. st_simpl.
    destruct (time_Now w1) as [w2 t2]. st_simpl.
    destruct (NewSession (mem st) sessionID (MaxHistoryMessages (config (agent st))) t1 t2)
      as [h1 s] eqn:Hnew.
    destruct (NewSession_spec _ _ _ _ _ _ _ Hnew) as (Hv & Hl & Hswf & Hmax & Hid & Hle).
    st_simpl. eexists. split; [done|]. st_simpl. split_and!.
    + done.
    + intros _. exists s. split_and!; try done.
      * unfold NewSession in Hnew. destruct (go_make (mem st) 0).
        by injection Hnew as _ <-.
      * unfold history. st_simpl. by rewrite lookup_insert_eq.
    + intros p Hp. unfold history. st_simpl. rewrite lookup_insert_ne by done.
      destruct (sessions (agent st) !! p) as [sp|] eqn:Hsp; [|done].
      destruct (Hwf _ _ Hsp) as [Hp_wf _].
      unfold NewSession in Hnew. destruct (go_make (mem st) 0) as [h1' ms] eqn:Hmk.
      injection Hnew as <- <-.
      destruct (go_make_spec _ _ _ _ Hmk) as (_ & _ & _ & _ & _ & Hframe).
      apply Hframe. by apply slice_wf_dom.
    + rewrite lookup_insert_eq. eexists. split; [done|]. done.
Qed.

Lemma Agent_RegisterTool_eq tool st :
  Agent_RegisterTool tool st
  = Some (tt, set_trace (trace st ++ [ELock toolsLock;
                                      ELog LInfo ("🔧 Registered tool: " +:+ Tool_Name tool);
                                      EUnlock toolsLock])
                (set_agent (set_tools (<[Tool_Name tool := tool]> (tools (agent st)))
                                      (agent st)) st)).
Proof.
  unfold Agent_RegisterTool. m_unfold. st_simpl. by rewrite <- !app_assoc.
Qed.

Lemma Agent_RegisterTools_run ts : ∀ st,
  ∃ st',
    Agent_RegisterTools ts st = Some (tt, st') ∧
    tools (agent st') = foldl (λ m t, <[Tool_Name t := t]> m) (tools (agent st)) ts ∧
    sessions (agent st') = sessions (agent st) ∧
    config (agent st') = config (agent st) ∧
    aiClient (agent st') = aiClient (agent st) ∧
    mem st' = mem st ∧ world st' = world st.
Proof.
  induction ts as [|tool rest IH]; intros st.
  - by eexists.
  - cbn [Agent_RegisterTools].
    rewrite (bind_eq _ _ _ _ _ (Agent_RegisterTool_eq tool st)).
    destruct (IH (set_trace (trace st ++ [ELock toolsLock;
                                      ELog LInfo ("🔧 Registered tool: " +:+ Tool_Name tool);
                                      EUnlock toolsLock])
                (set_agent (set_tools (<[Tool_Name tool := tool]> (tools (agent st)))
                                      (agent st)) st)))
      as (st' & Hrun & Ht & Hs & Hc & Ha & Hm & Hw).
    exists st'. st_simpl. by split_and!.
Qed.

Lemma foldl_insert_lookup (ts : list Tool) : ∀ (m : gmap string Tool) name,
  foldl (λ m t, <[Tool_Name t := t]> m) m ts !! name
  = match last (filter (λ t, Tool_Name t = name) ts) with
    | Some t => Some t
    | None => m !! name
    end.
Proof.
  induction ts as [|t rest IH] using rev_ind; intros m name; [done|].
  rewrite foldl_app, filter_app. cbn [foldl]. rewrite filter_cons, filter_nil.
  destruct (decide (Tool_Name t = name)) as [<-|Hne].
  - by rewrite lookup_insert_eq, last_snoc.
  - rewrite lookup_insert_ne by done. by rewrite app_nil_r.
Qed.

(** X9. [RegisterTools] registers the tools in order under their
    names: a name looks up the last tool of the list that bears it, and
    what was registered before for a name the list does not use; the
    sessions are untouched; a call to a name the list uses is dispatched
    to that last tool. *)
Theorem Agent_RegisterTools_last_wins (ts : list Tool) (st : State) :
  ∃ st',
    Agent_RegisterTools ts st = Some (tt, st') ∧
    sessions (agent st') = sessions (agent st) ∧
    (∀ name,
       tools (agent st') !! name
       = match last (filter (λ t, Tool_Name t = name) ts) with
         | Some t => Some t
         | None => tools (agent st) !! name
         end) ∧
    (∀ name t ctx args,
       last (filter (λ t, Tool_Name t = name) ts) = Some t →
       ∃ st'',
         executeToolCalls ctx [mkToolCall name args] st'
         = Some ([result_of name (Tool_Execute t ctx args (world st)).2], st'')).
Proof.
  destruct (Agent_RegisterTools_run ts st) as (st' & Hrun & Ht & Hs & _ & _ & _ & Hw).
  exists st'. split; [done|]. split; [done|].
  assert (Hlook : ∀ name,
    tools (agent st') !! name
    = match last (filter (λ t, Tool_Name t = name) ts) with
      | Some t => Some t
      | None => tools (agent st) !! name
      end).
  { intros name. rewrite Ht. apply foldl_insert_lookup. }
  split; [done|]. intros name t ctx args Hlast.
  rewrite executeToolCalls_run. cbn [run_calls ToolCall_Name ToolCall_Arguments].
  rewrite Hlook, Hlast, Hw.
  destruct (Tool_Execute t ctx args (world st)) as [[w1 effects] out]. by eexists.
Qed.
End AgentExtras.

(** ** The monitor: callbacks, position changes, start and stop *)

(** Evaluate the counts of an explicit list of events. *)
Ltac count_events :=
  repeat match goal with
  | |- context [launches (?e :: ?l)] =>
      let v := eval vm_compute in (launches (e :: l)) in
      change (launches (e :: l)) with v
  | |- context [stops (?e :: ?l)] =>
      let v := eval vm_compute in (stops (e :: l)) in
      change (stops (e :: l)) with v
  end.

Section MonitorExtras.
Context `{GoRuntime} `{Environment}.

Lemma range_map_perm {A} (m : gmap string A) : range_map m ≡ₚ map_to_list m.
Proof.
  unfold range_map. rewrite (range_order_perm (map_to_list m).*1).
  assert (Hall : Forall (λ kv, m !! kv.1 = Some kv.2) (map_to_list m)).
  { apply Forall_forall. intros [k v] Hkv. by apply elem_of_map_to_list in Hkv. }
  induction (map_to_list m) as [|[k v] l IH]; [done|].
  inversion Hall as [|? ? Hk Hl]; subst. cbn. cbn in Hk. rewrite Hk. cbn.
  by rewrite IH.
Qed.

Lemma range_map_lookup {A} (m : gmap string A) k v :
  (k, v) ∈ range_map m ↔ m !! k = Some v.
Proof. rewrite range_map_perm. apply elem_of_map_to_list. Qed.


Lemma launches_app e1 e2 : launches (e1 ++ e2) = (launches e1 + launches e2)%nat.
Proof. unfold launches. by rewrite omap_app, length_app. Qed.

Lemma stops_app e1 e2 : stops (e1 ++ e2) = (stops e1 + stops e2)%nat.
Proof. unfold stops. by rewrite omap_app, length_app. Qed.

Lemma Monitor_Start_eq st :
  Monitor_Start st
  = Some (tt,
          if running (monitor st)
          then set_trace (trace st ++ [ELock Monitor_mu; EUnlock Monitor_mu]) st
          else set_trace (trace st ++ [ELock Monitor_mu; EUnlock Monitor_mu;
                                       ELog LInfo "🔍 Starting trading monitor...";
                                       EGoMonitorLoop])
                 (set_monitor (set_running true (monitor st)) st)).
Proof.
  unfold Monitor_Start. m_unfold. st_simpl.
  destruct (running (monitor st)); cbn [negb]; st_simpl; rewrite <- ?app_assoc; reflexivity.
Qed.

Lemma Monitor_Stop_eq st :
  Monitor_Stop st
  = Some (tt,
          if running (monitor st)
          then set_trace (trace st ++ [ELock Monitor_mu;
                                       ELog LInfo "🔍 Trading monitor stopped";
                                       EUnlock Monitor_mu])
                 (set_monitor (set_running false (monitor st)) st)
          else set_trace (trace st ++ [ELock Monitor_mu; EUnlock Monitor_mu]) st).
Proof.
  unfold Monitor_Stop. m_unfold. st_simpl.
  destruct (running (monitor st)); cbn [negb]; st_simpl; rewrite <- ?app_assoc; reflexivity.
Qed.

(** X10. However [Start] and [Stop] are called in sequence, a loop is
    launched only by a [Start] that finds the monitor stopped and a stop
    is carried out only by a [Stop] that finds it running: launches and
    stops alternate, their difference is the running flag, and the flag
    after the sequence is that of its last call. *)
Theorem Monitor_start_stop_alternate (cs : list MonitorCall) (st : State) :
  ∃ st' evs,
    Monitor_calls cs st = Some (tt, st') ∧ new_events st st' evs ∧
    ((if running (monitor st) then 1 else 0) + launches evs
     = stops evs + (if running (monitor st') then 1 else 0))%nat ∧
    running (monitor st')
    = match last cs with
      | Some CallStart => true
      | Some CallStop => false
      | None => running (monitor st)
      end.
Proof.
  revert st. induction cs as [|c rest IH]; intros st.
  - exists st, []. unfold new_events. rewrite app_nil_r. by split_and!.
  - assert (Hstep : ∀ s1 e1 st' evs,
      trace s1 = trace st ++ e1 →
      Monitor_calls rest s1 = Some (tt, st') → new_events s1 st' evs →
      ((if running (monitor s1) then 1 else 0) + launches evs
       = stops evs + (if running (monitor st') then 1 else 0))%nat →
      running (monitor st')
      = match last rest with
        | Some CallStart => true
        | Some CallStop => false
        | None => running (monitor s1)
        end →
      ((if running (monitor st) then 1 else 0) + launches e1
       = stops e1 + (if running (monitor s1) then 1 else 0))%nat →
      running (monitor s1) = match c with CallStart => true | CallStop => false end →
      ∃ st' evs,
        Monitor_calls rest s1 = Some (tt, st') ∧ new_events st st' evs ∧
        ((if running (monitor st) then 1 else 0) + launches evs
         = stops evs + (if running (monitor st') then 1 else 0))%nat ∧
        running (monitor st')
        = match last (c :: rest) with
          | Some CallStart => true
          | Some CallStop => false
          | None => running (monitor st)
          end).
    { intros s1 e1 st' evs Ht1 Hrun Hev Hcount Hlast Hc1 Hr1.
      exists st', (e1 ++ evs). split; [done|]. unfold new_events in *.
      split; [by rewrite Hev, Ht1, app_assoc|].
      rewrite launches_app, stops_app. split; [lia|].
      rewrite Hlast. destruct rest as [|c' rest']; [by rewrite Hr1; destruct c|].
      rewrite last_cons_cons.
      destruct (last (c' :: rest')) as [[]|] eqn:Hl; try done.
      by apply last_None in Hl. }
    destruct c; cbn [Monitor_calls].
    + rewrite (bind_eq _ _ _ _ _ (Monitor_Start_eq st)).
      match goal with |- context [Monitor_calls rest ?s] => destruct (IH s)
        as (st' & evs & Hrun & Hev & Hcount & Hlast) end.
      destruct (running (monitor st)) eqn:Hr;
        (eapply Hstep; [done|done|done|done|done| |done]);
        st_simpl; rewrite ?Hr; count_events; lia.
    + rewrite (bind_eq _ _ _ _ _ (Monitor_Stop_eq st)).
      match goal with |- context [Monitor_calls rest ?s] => destruct (IH s)
        as (st' & evs & Hrun & Hev & Hcount & Hlast) end.
      destruct (running (monitor st)) eqn:Hr;
        (eapply Hstep; [done|done|done|done|done| |done]);
        st_simpl; rewrite ?Hr; count_events; lia.
Qed.

Lemma deliveries_sendAlert cbs alert :
  deliveries (ERLock Monitor_callbackMu :: ERUnlock Monitor_callbackMu
              :: ((λ cb, EGo cb alert) <$> cbs))
  = fan_out cbs alert.
Proof. exact (deliveries_go cbs alert). Qed.

(** X11. [OnAlert] appends the callback; [sendAlert] then launches
    every registered callback once with the alert, the earlier ones
    first, and leaves the monitor as it is. With no callback registered
    nothing is launched. *)
Theorem sendAlert_reaches_every_callback (cb : nat) (alert : Alert) (st : State) :
  ∃ st1 st2 evs,
    Monitor_OnAlert cb st = Some (tt, st1) ∧
    alertCallbacks (monitor st1) = alertCallbacks (monitor st) ++ [cb] ∧
    sendAlert alert st1 = Some (tt, st2) ∧ new_events st1 st2 evs ∧
    deliveries evs = fan_out (alertCallbacks (monitor st)) alert ++ [(cb, alert)] ∧
    monitor st2 = monitor st1 ∧
    (alertCallbacks (monitor st) = [] →
       ∃ st0 evs0, sendAlert alert st = Some (tt, st0) ∧ new_events st st0 evs0 ∧
                   deliveries evs0 = []).
Proof.
  eexists _, _, _. split.
  { unfold Monitor_OnAlert. m_unfold. st_simpl. reflexivity. }
  st_simpl. split; [done|]. rewrite !sendAlert_eq. split; [done|].
  unfold new_events. st_simpl. split; [done|]. split.
  - rewrite deliveries_sendAlert. unfold fan_out. by rewrite fmap_app.
  - split; [done|]. intros Hnone. eexists _, _.
    split; [done|]. st_simpl. split; [done|]. by rewrite Hnone.
Qed.

(** The events of the alerts sent for the positions of a tick. *)
Lemma checkPositionChanges_new_run positions : ∀ current st,
  ∃ st' evs,
    checkPositionChanges_new positions current st
    = Some (keyed positions current, st') ∧
    new_events st st' evs ∧ monitor st' = monitor st ∧
    deliveries evs
    = filter (λ pos, lastPositions (monitor st) !! position_key pos = None) positions
        ≫= (λ pos, fan_out (alertCallbacks (monitor st)) (new_position_alert pos)).
Proof.
  induction positions as [|pos rest IH]; intros current st.
  - exists st, []. unfold new_events. rewrite app_nil_r. by split_and!.
  - cbn [checkPositionChanges_new keyed foldl]. rewrite filter_cons.
    rewrite (bind_eq _ _ st (lastPositions (monitor st)) st) by done.
    destruct (lastPositions (monitor st) !! position_key pos) as [old|] eqn:Hold.
    + rewrite decide_False by done.
      rewrite (bind_eq _ _ st tt st) by done.
      destruct (IH (<[position_key pos := pos]> current) st)
        as (st' & evs & Hrun & Hev & Hmon & Hdel).
      exists st', evs. by split_and!.
    + rewrite decide_True by done.
      rewrite (bind_eq _ _ _ _ _ (sendAlert_eq _ st)).
      match goal with |- context [checkPositionChanges_new rest _ ?s] =>
        destruct (IH (<[position_key pos := pos]> current) s)
          as (st' & evs & Hrun & Hev & Hmon & Hdel) end.
      st_simpl. eexists st', (_ ++ evs). split; [done|]. unfold new_events in *.
      split; [by rewrite Hev; st_simpl; rewrite <- app_assoc|]. split; [done|].
      rewrite deliveries_app, Hdel. cbn [mbind list_bind]. f_equal.
      apply deliveries_sendAlert.
Qed.

Lemma checkPositionChanges_closed_run olds current : ∀ st,
  ∃ st' evs,
    checkPositionChanges_closed olds current st = Some (tt, st') ∧
    new_events st st' evs ∧ monitor st' = monitor st ∧
    deliveries evs
    = filter (λ kv, current !! kv.1 = None) olds
        ≫= (λ kv, fan_out (alertCallbacks (monitor st)) (position_closed_alert kv.2)).
Proof.
  induction olds as [|[key oldPos] rest IH]; intros st.
  - exists st, []. unfold new_events. rewrite app_nil_r. by split_and!.
  - cbn [checkPositionChanges_closed]. rewrite filter_cons. cbn [fst snd].
    destruct (current !! key) as [cur|] eqn:Hcur.
    + rewrite decide_False by done.
      rewrite (bind_eq _ _ st tt st) by done.
      destruct (IH st) as (st' & evs & Hrun & Hev & Hmon & Hdel).
      exists st', evs. by split_and!.
    + rewrite decide_True by done.
      rewrite (bind_eq _ _ _ _ _ (sendAlert_eq _ st)).
      match goal with |- context [checkPositionChanges_closed rest _ ?s] =>
        destruct (IH s) as (st' & evs & Hrun & Hev & Hmon & Hdel) end.
      st_simpl. eexists st', (_ ++ evs). split; [done|]. unfold new_events in *.
      split; [by rewrite Hev; st_simpl; rewrite <- app_assoc|]. split; [done|].
      rewrite deliveries_app, Hdel. cbn [mbind list_bind]. f_equal.
      apply deliveries_sendAlert.
Qed.

Lemma checkPositionChanges_run ctx st :
  ∃ st' evs,
    checkPositionChanges ctx st = Some (tt, st') ∧ new_events st st' evs ∧
    monitor st' = set_lastPositions (keyed (Positions ctx) ∅) (monitor st) ∧
    deliveries evs
    = (filter (λ pos, lastPositions (monitor st) !! position_key pos = None)
              (Positions ctx)
         ≫= (λ pos, fan_out (alertCallbacks (monitor st)) (new_position_alert pos)))
      ++ (filter (λ kv, keyed (Positions ctx) ∅ !! kv.1 = None)
                 (range_map (lastPositions (monitor st)))
            ≫= (λ kv, fan_out (alertCallbacks (monitor st))
                              (position_closed_alert kv.2))).
Proof.
  unfold checkPositionChanges.
  rewrite (bind_eq _ _ _ _ _ (emit_eq (ELock Monitor_mu) st)).
  cbv beta.
  destruct (checkPositionChanges_new_run (Positions ctx) ∅
              (set_trace (trace st ++ [ELock Monitor_mu]) st))
    as (s1 & e1 & H1 & Ht1 & Hm1 & Hd1).
  rewrite (bind_eq _ _ _ _ _ H1).
  rewrite (bind_eq _ _ s1 (lastPositions (monitor s1)) s1) by done.
  destruct (checkPositionChanges_closed_run (range_map (lastPositions (monitor s1)))
              (keyed (Positions ctx) ∅) s1) as (s2 & e2 & H2 & Ht2 & Hm2 & Hd2).
  rewrite (bind_eq _ _ _ _ _ H2). m_unfold. st_simpl.
  eexists _, (ELock Monitor_mu :: e1 ++ e2 ++ [EUnlock Monitor_mu]).
  split; [done|]. unfold new_events in *. st_simpl. split_and!.
  - rewrite Ht2, Ht1. st_simpl. by rewrite <- !app_assoc.
  - by rewrite Hm2, Hm1.
  - change (deliveries (ELock Monitor_mu :: e1 ++ e2 ++ [EUnlock Monitor_mu]))
      with (deliveries (e1 ++ e2 ++ [EUnlock Monitor_mu])).
    rewrite !deliveries_app, Hd1, Hd2, Hm1. st_simpl. by rewrite app_nil_r.
Qed.

Lemma keyed_lookup positions : ∀ m pos,
  pos ∈ positions → is_Some (keyed positions m !! position_key pos).
Proof.
  induction positions as [|p rest IH] using rev_ind; intros m pos Hin.
  - by apply elem_of_nil in Hin.
  - unfold keyed. rewrite foldl_app. cbn [foldl].
    destruct (decide (position_key p = position_key pos)) as [Heq|Hne].
    + rewrite Heq, lookup_insert_eq. eauto.
    + rewrite lookup_insert_ne by done. apply IH.
      apply elem_of_app in Hin as [Hin|Hin]; [done|].
      apply list_elem_of_singleton in Hin. by subst.
Qed.

Lemma keyed_dom positions : ∀ m key,
  is_Some (keyed positions m !! key) →
  is_Some (m !! key) ∨ ∃ pos, pos ∈ positions ∧ position_key pos = key.
Proof.
  induction positions as [|p rest IH]; intros m key; [by left|].
  cbn [keyed foldl]. intros [Hm|(pos & Hin & Hk)]%IH.
  - destruct (decide (position_key p = key)) as [Heq|Hne].
    + right. exists p. split; [left|done].
    + rewrite lookup_insert_ne in Hm by done. by left.
  - right. exists pos. split; [by right|done].
Qed.

Lemma filter_none {A} (P : A → Prop) `{∀ x, Decision (P x)} (l : list A) :
  Forall (λ x, ¬ P x) l → filter P l = [].
Proof.
  induction 1 as [|x l Hx _ IH]; [done|].
  rewrite filter_cons. by rewrite decide_False.
Qed.

Lemma keyed_None positions key :
  keyed positions ∅ !! key = None ↔ key ∉ position_key <$> positions.
Proof.
  split.
  - intros Hnone (pos & -> & Hin)%list_elem_of_fmap.
    destruct (keyed_lookup positions ∅ pos Hin) as [v Hv]. congruence.
  - intros Hnot. apply eq_None_not_Some.
    intros [Hm|(pos & Hin & <-)]%keyed_dom.
    + rewrite lookup_empty in Hm. by destruct Hm.
    + apply Hnot, list_elem_of_fmap. eauto.
Qed.

(** X12. One run of [checkPositionChanges]: a new_position alert for
    every position of the context whose key the last tick did not hold
    (in the order of the positions), then a position_closed alert for
    every key of the last tick that no position of the context has (in
    the order [range] visits them), each to every callback; afterwards
    the last positions are those of the context, under their keys. *)
Theorem checkPositionChanges_announces_differences (ctx : TradingContext) (st : State) :
  ∃ st' evs,
    checkPositionChanges ctx st = Some (tt, st') ∧ new_events st st' evs ∧
    lastPositions (monitor st') = keyed (Positions ctx) ∅ ∧
    alertCallbacks (monitor st') = alertCallbacks (monitor st) ∧
    (∀ key, is_Some (lastPositions (monitor st') !! key) ↔
            key ∈ position_key <$> Positions ctx) ∧
    deliveries evs
    = (filter (λ pos, lastPositions (monitor st) !! position_key pos = None)
              (Positions ctx)
         ≫= (λ pos, fan_out (alertCallbacks (monitor st)) (new_position_alert pos)))
      ++ (filter (λ kv, kv.1 ∉ position_key <$> Positions ctx)
                 (range_map (lastPositions (monitor st)))
            ≫= (λ kv, fan_out (alertCallbacks (monitor st))
                              (position_closed_alert kv.2))).
Proof.
  destruct (checkPositionChanges_run ctx st) as (st' & evs & Hrun & Hev & Hmon & Hdel).
  exists st', evs. split; [done|]. split; [done|]. rewrite Hmon. st_simpl.
  split; [done|]. split; [done|]. split.
  - intros key. rewrite <- not_eq_None_Some, keyed_None.
    split; [apply dec_stable|by intros ? ?].
  - rewrite Hdel. do 2 f_equal. apply list_filter_iff. intros kv. apply keyed_None.
Qed.

(** X13. A tick whose positions are those of the tick before
    announces nothing and leaves the monitor as it is. *)
Theorem checkPositionChanges_silent_when_unchanged (ctx : TradingContext) (st : State) :
  ∃ st1 st2 evs,
    checkPositionChanges ctx st = Some (tt, st1) ∧
    checkPositionChanges ctx st1 = Some (tt, st2) ∧
    new_events st1 st2 evs ∧ deliveries evs = [] ∧
    monitor st2 = monitor st1.
Proof.
  destruct (checkPositionChanges_run ctx st) as (st1 & e1 & Hrun1 & _ & Hmon1 & _).
  destruct (checkPositionChanges_run ctx st1) as (st2 & e2 & Hrun2 & Hev2 & Hmon2 & Hdel2).
  exists st1, st2, e2. split; [done|]. split; [done|]. split; [done|]. split.
  - rewrite Hdel2, Hmon1. st_simpl.
    rewrite (filter_none _ (Positions ctx)).
    + rewrite (filter_none _ (range_map _)); [done|].
      apply Forall_forall. intros [k v] Hin%range_map_lookup. cbn. congruence.
    + apply Forall_forall. intros pos Hin.
      destruct (keyed_lookup (Positions ctx) ∅ pos Hin) as [v Hv]. congruence.
  - rewrite Hmon2, Hmon1. by destruct (monitor st).
Qed.
End MonitorExtras.

(** ** The context builder: what a built context holds *)

Section ContextExtras.
Context `{GoRuntime} `{Environment}.

Lemma checkPositionAlerts_adds ctx pos :
  ∃ extra,
    checkPositionAlerts ctx pos
    = mkTradingContext (TotalEquity ctx) (AvailableBalance ctx) (ctx_UnrealizedPnL ctx)
        (Positions ctx) (MarketPrices ctx) (PriceChanges24h ctx) (ActiveTraders ctx)
        (Alerts ctx ++ extra) (ctx_UpdatedAt ctx) ∧
    Forall alert_kind extra ∧ (length extra ≤ 3)%nat.
Proof.
  unfold checkPositionAlerts, add_alert.
  repeat match goal with
         | |- context [if ?b then _ else _] => destruct b
         end;
    cbn; rewrite <- ?app_assoc; cbn;
    (eexists; split; [first [reflexivity | by rewrite app_nil_r; destruct ctx]|]);
    (split; [repeat constructor; unfold alert_kind; cbn; set_solver|cbn; lia]).
Qed.

Lemma add_position_ok ctx pos id name :
  context_ok ctx → context_ok (add_position ctx pos id name).
Proof.
  intros (Hk & Hn & Hm & Hp & Hr). unfold add_position.
  destruct (checkPositionAlerts_adds
    (mkTradingContext (TotalEquity ctx) (AvailableBalance ctx)
      (ctx_UnrealizedPnL ctx + UnrealizedPnL (parsePosition pos id name))%float
      (Positions ctx ++ [parsePosition pos id name])
      (<[Symbol (parsePosition pos id name) := MarkPrice (parsePosition pos id name)]>
         (MarketPrices ctx))
      (PriceChanges24h ctx) (ActiveTraders ctx) (Alerts ctx) (ctx_UpdatedAt ctx))
    (parsePosition pos id name)) as (extra & -> & Hkind & Hlen).
  unfold context_ok. cbn. split_and!; try done.
  - by apply Forall_app.
  - rewrite !length_app. cbn. lia.
  - intros s. rewrite fmap_app, elem_of_app. cbn. rewrite list_elem_of_singleton.
    rewrite <- Hm. destruct (decide (Symbol (parsePosition pos id name) = s)) as [<-|Hne].
    + rewrite lookup_insert_eq. split; [by right|eauto].
    + rewrite lookup_insert_ne by done. split; [by left|]. by intros [?|?].
Qed.

Lemma add_positions_ok positions id name : ∀ ctx,
  context_ok ctx →
  context_ok (foldl (λ c pos, add_position c pos id name) ctx positions) ∧
  ActiveTraders (foldl (λ c pos, add_position c pos id name) ctx positions)
  = ActiveTraders ctx ∧
  ctx_UpdatedAt (foldl (λ c pos, add_position c pos id name) ctx positions)
  = ctx_UpdatedAt ctx ∧
  length (Positions (foldl (λ c pos, add_position c pos id name) ctx positions))
  = (length (Positions ctx) + length positions)%nat.
Proof.
  induction positions as [|pos rest IH]; intros ctx Hok; [cbn; split_and!; try done; lia|].
  cbn [foldl]. destruct (IH (add_position ctx pos id name)) as (Hok' & Ha & Hu & Hl).
  { by apply add_position_ok. }
  rewrite Ha, Hu, Hl. split; [done|]. unfold add_position.
  match goal with |- context [checkPositionAlerts ?c ?p] =>
    destruct (checkPositionAlerts_adds c p) as (extra & -> & _) end.
  cbn. rewrite length_app. cbn. split_and!; try done. lia.
Qed.

Lemma add_account_ok ctx summary info :
  context_ok ctx →
  context_ok (add_account ctx summary info).2 ∧
  ActiveTraders (add_account ctx summary info).2 = ActiveTraders ctx ∧
  ctx_UpdatedAt (add_account ctx summary info).2 = ctx_UpdatedAt ctx ∧
  Positions (add_account ctx summary info).2 = Positions ctx ∧
  listed (add_account ctx summary info).1 = listed summary ∧
  IsRunning (add_account ctx summary info).1 = IsRunning summary ∧
  PositionCount (add_account ctx summary info).1 = PositionCount summary.
Proof.
  intros Hok. unfold add_account.
  destruct (get_float64 info "total_equity"), (get_float64 info "available_balance");
    cbn; by split_and!.
Qed.

Lemma BuildContext_loop_ok traders : ∀ ctx st,
  context_ok ctx →
  ∃ ctx' st',
    BuildContext_loop traders ctx st = Some (ctx', st') ∧
    context_ok ctx' ∧
    listed <$> ActiveTraders ctx'
    = (listed <$> ActiveTraders ctx)
      ++ ((λ kv, (kv.1, Trader_GetName kv.2, Trader_GetExchange kv.2)) <$> traders) ∧
    ctx_UpdatedAt ctx' = ctx_UpdatedAt ctx ∧
    Z.of_nat (length (Positions ctx')) - reported_positions ctx'
    = Z.of_nat (length (Positions ctx)) - reported_positions ctx.
Proof.
  induction traders as [|[id trader] rest IH]; intros ctx st Hok.
  - exists ctx, st. rewrite app_nil_r. by split_and!.
  - cbn [BuildContext_loop]. m_unfold. st_simpl.
    destruct (Trader_GetAccountInfo trader (world st)) as [w1 [info err]]. st_simpl.
    set (summary := mkTraderSummary id (Trader_GetName trader)
                      (Trader_GetExchange trader) true 0%float 0 0%float).
    assert (Hacc : ∃ summary1 ctx1,
      match err with
      | Some _ => (summary, ctx)
      | None => add_account ctx summary info
      end = (summary1, ctx1) ∧
      context_ok ctx1 ∧ ActiveTraders ctx1 = ActiveTraders ctx ∧
      ctx_UpdatedAt ctx1 = ctx_UpdatedAt ctx ∧ Positions ctx1 = Positions ctx ∧
      listed summary1 = listed summary ∧ IsRunning summary1 = true ∧
      PositionCount summary1 = 0).
    { destruct err.
      - eexists _, _. by split_and!.
      - destruct (add_account_ok ctx summary info Hok) as (? & ? & ? & ? & ? & ? & ?).
        destruct (add_account ctx summary info) as [summary1 ctx1].
        eexists _, _. by split_and!. }
    destruct Hacc as (summary1 & ctx1 & -> & Hok1 & Ha1 & Hu1 & Hp1 & Hl1 & Hr1 & Hc1).
    st_simpl.
    destruct (Trader_GetPositions trader w1) as [w2 [positions err']]. st_simpl.
    set (summary2 := mkTraderSummary (TraderSummary_ID summary1)
                       (TraderSummary_Name summary1) (Exchange summary1)
                       (IsRunning summary1) (Equity summary1)
                       (Z.of_nat (length positions)) (TodayPnL summary1)).
    assert (Hpos : ∃ summary3 ctx2,
      match err' with
      | Some _ => (summary1, ctx1)
      | None => (summary2,
                 foldl (λ c pos, add_position c pos id (Trader_GetName trader))
                       ctx1 positions)
      end = (summary3, ctx2) ∧
      context_ok ctx2 ∧ ActiveTraders ctx2 = ActiveTraders ctx ∧
      ctx_UpdatedAt ctx2 = ctx_UpdatedAt ctx ∧
      listed summary3 = listed summary ∧ IsRunning summary3 = true ∧
      Z.of_nat (length (Positions ctx2))
      = Z.of_nat (length (Positions ctx)) + PositionCount summary3).
    { destruct err'.
      - eexists _, _. split; [done|]. split_and!; try done. rewrite Hp1, Hc1. lia.
      - destruct (add_positions_ok positions id (Trader_GetName trader) ctx1 Hok1)
          as (Hok2 & Ha2 & Hu2 & Hlen2).
        eexists _, _. split; [done|]. split_and!; try done; try congruence.
        rewrite Hlen2, Hp1. cbn. lia. }
    destruct Hpos as (summary3 & ctx2 & -> & Hok2 & Ha2 & Hu2 & Hl2 & Hr2 & Hlen2).
    destruct (IH (add_trader summary3 ctx2)
                 (set_world w2
                    (set_trace ((trace st ++ [EFetch "GetAccountInfo"])
                                ++ [EFetch "GetPositions"]) (set_world w1 st))))
      as (ctx' & st' & Hrun & Hok' & Hlist & Hupd & Hcount).
    { destruct Hok2 as (Hk & Hn & Hm & Hp & Hr). unfold context_ok, add_trader. cbn.
      split_and!; try done. apply Forall_app. split; [done|]. by constructor. }
    exists ctx', st'. split; [exact Hrun|]. split; [done|]. split_and!.
    + rewrite Hlist. unfold add_trader. cbn. rewrite fmap_app, Ha2. cbn.
      rewrite Hl2. by rewrite <- app_assoc.
    + rewrite Hupd. by unfold add_trader.
    + rewrite Hcount. unfold add_trader, reported_positions. cbn.
      rewrite fmap_app, foldr_app, Ha2. cbn.
      assert (Hsum : ∀ (l : list Z) a, foldr Z.add a l = foldr Z.add 0 l + a).
      { induction l as [|x l IHl]; intros a; cbn; [lia|]. rewrite IHl. lia. }
      rewrite (Hsum _ (PositionCount summary3 + 0)). lia.
Qed.

Lemma BuildContext_ok st :
  ∃ ctx st',
    BuildContext st = Some (ctx, st') ∧ context_ok ctx ∧
    listed <$> ActiveTraders ctx
    = (λ kv, (kv.1, Trader_GetName kv.2, Trader_GetExchange kv.2))
        <$> (GetAllTraders (traderManager st) (time_Now (world st)).1).2 ∧
    ctx_UpdatedAt ctx = (time_Now (world st)).2 ∧
    reported_positions ctx = Z.of_nat (length (Positions ctx)).
Proof.
  unfold BuildContext. m_unfold. st_simpl.
  destruct (time_Now (world st)) as [w t]. st_simpl.
  destruct (GetAllTraders (traderManager st) w) as [w1 traders]. st_simpl.
  match goal with |- context [BuildContext_loop traders ?c ?s] =>
    destruct (BuildContext_loop_ok traders c s) as (ctx & st' & Hrun & Hok & Hl & Hu & Hc)
  end.
  { unfold context_ok. cbn. split_and!; try done.
    intros s. rewrite lookup_empty. split; [by intros []|by intros ?%elem_of_nil]. }
  exists ctx, st'. split; [done|]. split; [done|]. split; [done|]. split; [done|].
  cbn in Hc. lia.
Qed.

(** X14. [BuildContext] always returns. Its active traders are the
    traders of the manager, one entry each in the order of iteration,
    with their names and exchanges, all marked running, whether or not
    their account or positions could be fetched; their position counts
    add up to the number of positions in the context; the time stamp is
    the clock reading taken first. *)
Theorem BuildContext_lists_every_trader (st : State) :
  ∃ ctx st',
    BuildContext st = Some (ctx, st') ∧
    listed <$> ActiveTraders ctx
    = (λ kv, (kv.1, Trader_GetName kv.2, Trader_GetExchange kv.2))
        <$> (GetAllTraders (traderManager st) (time_Now (world st)).1).2 ∧
    Forall (λ t, IsRunning t = true) (ActiveTraders ctx) ∧
    reported_positions ctx = Z.of_nat (length (Positions ctx)) ∧
    ctx_UpdatedAt ctx = (time_Now (world st)).2.
Proof.
  destruct (BuildContext_ok st) as (ctx & st' & Hrun & Hok & Hl & Hu & Hc).
  exists ctx, st'. destruct Hok as (_ & _ & _ & _ & Hr). by split_and!.
Qed.

(** X15. In a built context every alert is of one of five kinds
    (danger or warning liquidation_risk, danger or warning large_loss,
    info large_profit), there are at most three alerts per position, the
    market prices are known for exactly the symbols of the positions,
    and no 24h price change is recorded. *)
Theorem BuildContext_alerts_and_prices (st : State) :
  ∃ ctx st',
    BuildContext st = Some (ctx, st') ∧
    Forall alert_kind (Alerts ctx) ∧
    (length (Alerts ctx) ≤ 3 * length (Positions ctx))%nat ∧
    (∀ s, is_Some (MarketPrices ctx !! s) ↔ s ∈ Symbol <$> Positions ctx) ∧
    PriceChanges24h ctx = ∅.
Proof.
  destruct (BuildContext_ok st) as (ctx & st' & Hrun & Hok & _).
  exists ctx, st'. destruct Hok as (Hk & Hn & Hm & Hp & _). by split_and!.
Qed.

Lemma range_map_keys {A} (m : gmap string A) s :
  s ∈ (range_map m).*1 ↔ is_Some (m !! s).
Proof.
  rewrite range_map_perm, list_elem_of_fmap. split.
  - intros ([k v] & -> & Hkv%elem_of_map_to_list). eauto.
  - intros [v Hv]. exists (s, v). split; [done|]. by apply elem_of_map_to_list.
Qed.

Lemma symbolSet_lookup positions : ∀ (m : gmap string bool) s,
  is_Some (foldl (λ m pos, <[Symbol pos := true]> m) m positions !! s)
  ↔ is_Some (m !! s) ∨ s ∈ Symbol <$> positions.
Proof.
  induction positions as [|pos rest IH]; intros m s; cbn [foldl].
  - rewrite fmap_nil. split; [by left|]. intros [?|?%elem_of_nil]; done.
  - rewrite IH, fmap_cons, elem_of_cons.
    destruct (decide (Symbol pos = s)) as [<-|Hne].
    + rewrite lookup_insert_eq. split; [intros _; right; by left|eauto].
    + rewrite lookup_insert_ne by done. split; [intros [?|?]; eauto|].
      intros [?|[?|?]]; eauto. congruence.
Qed.

(** X16. [GetTopSymbols] returns, without repetition, exactly the
    symbols of the positions together with BTCUSDT and ETHUSDT; so at
    least two symbols. *)
Theorem GetTopSymbols_positions_and_majors (ctx : TradingContext) :
  NoDup (GetTopSymbols ctx) ∧
  (∀ s, s ∈ GetTopSymbols ctx
        ↔ s = "BTCUSDT" ∨ s = "ETHUSDT" ∨ s ∈ Symbol <$> Positions ctx) ∧
  (2 ≤ length (GetTopSymbols ctx))%nat.
Proof.
  unfold GetTopSymbols.
  set (m := <["ETHUSDT" := true]> (<["BTCUSDT" := true]>
              (foldl (λ (m : gmap string bool) pos, <[Symbol pos := true]> m)
                     ∅ (Positions ctx)))).
  assert (Hperm : (range_map m).*1 ≡ₚ (map_to_list m).*1) by by rewrite range_map_perm.
  assert (Hel : ∀ s, s ∈ (range_map m).*1
                     ↔ s = "BTCUSDT" ∨ s = "ETHUSDT" ∨ s ∈ Symbol <$> Positions ctx).
  { intros s. rewrite range_map_keys. unfold m.
    destruct (decide (s = "ETHUSDT")) as [->|Hn1].
    { rewrite lookup_insert_eq. split; eauto. }
    rewrite lookup_insert_ne by done.
    destruct (decide (s = "BTCUSDT")) as [->|Hn2].
    { rewrite lookup_insert_eq. split; eauto. }
    rewrite lookup_insert_ne by done. rewrite symbolSet_lookup, lookup_empty.
    split; [intros [[]%is_Some_None|?]; eauto|]. intros [?|[?|?]]; try done. by right. }
  assert (Hnd : NoDup (range_map m).*1).
  { rewrite Hperm. apply NoDup_fst_map_to_list. }
  split; [done|]. split; [done|].
  assert (Hsub : ["BTCUSDT"; "ETHUSDT"] ⊆+ (range_map m).*1).
  { apply NoDup_submseteq.
    - apply NoDup_cons. split; [by intros ?%list_elem_of_singleton|].
      apply NoDup_singleton.
    - intros s Hs. apply Hel. apply elem_of_cons in Hs as [->|Hs]; [by left|].
      apply list_elem_of_singleton in Hs as ->. right. by left. }
  by apply submseteq_length in Hsub.
Qed.
End ContextExtras.

(** ** telegram/bot.go: limits and the allow-list *)

Section BotExtras.

Lemma length_append (s t : string) :
  String.length (s +:+ t) = (String.length s + String.length t)%nat.
Proof. induction s as [|c s IH]; [done|]. rewrite append_cons. cbn. by rewrite IH. Qed.

(** X17. [truncate(s, maxLen)] returns [s] when it has at most
    [maxLen] bytes; otherwise, for [maxLen >= 0], the first [maxLen]
    bytes of [s] followed by three dots, [maxLen + 3] bytes in all (so
    longer than [s] when [s] has less than [maxLen + 3] bytes); for a
    negative [maxLen] it panics. *)
Theorem truncate_bounds (s : string) (maxLen : Z) :
  (Z.of_nat (String.length s) <= maxLen → truncate s maxLen = Some s) ∧
  (0 <= maxLen < Z.of_nat (String.length s) →
     truncate s maxLen = Some (str_to s maxLen +:+ "...") ∧
     Z.of_nat (String.length (str_to s maxLen +:+ "...")) = maxLen + 3 ∧
     str_to s maxLen +:+ str_from s maxLen = s) ∧
  (maxLen < 0 → truncate s maxLen = None).
Proof.
  unfold truncate. split_and!.
  - intros Hle. by rewrite decide_True.
  - intros [H0 Hlt]. rewrite decide_False by lia. rewrite decide_True by done.
    split; [done|]. split.
    + rewrite length_append. unfold str_to. rewrite length_str_take. cbn. lia.
    + apply str_take_drop.
  - intros Hneg. rewrite decide_False by lia. by rewrite decide_False by lia.
Qed.

Lemma granted_since_app c u l1 l2 :
  granted_since c u (l1 ++ l2) = granted_since c u l1 ++ granted_since c u l2.
Proof. unfold granted_since. by rewrite filter_app, fmap_app. Qed.

Lemma granted_since_one c u' now u ok :
  granted_since c u' [(now, u, ok)]
  = if decide (ok = true ∧ u = u' ∧ c < now) then [now] else [].
Proof.
  unfold granted_since. rewrite filter_cons, filter_nil. cbn [fst snd].
  by destruct (decide _).
Qed.

Lemma filter_window (c cutoff : Time) (l : list Time) :
  cutoff <= c → filter (λ t, c < t) (filter (λ t, cutoff < t) l) = filter (λ t, c < t) l.
Proof.
  intros Hle. rewrite list_filter_filter. apply list_filter_iff. intros t. lia.
Qed.

Lemma RateLimiter_Allow_step B r log now u :
  window_ok B r log → B <= now - Minute →
  maxPerMinute (RateLimiter_Allow r now u).2 = maxPerMinute r ∧
  window_ok (now - Minute) (RateLimiter_Allow r now u).2
            (log ++ [(now, u, (RateLimiter_Allow r now u).1)]) ∧
  ((RateLimiter_Allow r now u).1 = true
   ↔ Z.of_nat (length (granted_since (now - Minute) u log)) < maxPerMinute r).
Proof.
  intros Hinv HB. unfold RateLimiter_Allow. fold (stored r u).
  rewrite (Hinv u (now - Minute) HB).
  assert (Hmin : 0 < Minute) by done.
  destruct (decide (Z.of_nat (length (granted_since (now - Minute) u log))
                    >= maxPerMinute r)) as [Hfull|Hroom]; cbn [fst snd].
  - split; [done|]. split; [|split; [done|lia]].
    intros u' c Hc. rewrite granted_since_app, granted_since_one.
    rewrite decide_False by (by intros [? _]).
    rewrite app_nil_r. apply Hinv. lia.
  - split; [done|]. split; [|split; [lia|done]].
    intros u' c Hc. rewrite granted_since_app, granted_since_one.
    unfold stored. cbn [users].
    destruct (decide (u = u')) as [<-|Hne].
    + rewrite lookup_insert_eq. cbn [default]. unfold id.
      rewrite filter_app, filter_cons, filter_nil.
      rewrite <- (Hinv u (now - Minute) HB), filter_window by done.
      fold (stored r u). rewrite (Hinv u c) by lia.
      destruct (decide (c < now)).
      * by rewrite decide_True.
      * by rewrite decide_False by (intros (_ & _ & ?); lia).
    + rewrite lookup_insert_ne by done. fold (stored r u').
      rewrite decide_False by (intros (_ & ? & _); done).
      rewrite app_nil_r. apply Hinv. lia.
Qed.

Lemma Allow_calls_window calls : ∀ B r log,
  window_ok B r log →
  StronglySorted Z.le (B + Minute :: calls.*1) →
  let '(oks, r') := Allow_calls r calls in
  length oks = length calls ∧
  ∀ i now u, calls !! i = Some (now, u) →
    (oks !! i = Some true
     ↔ Z.of_nat (length (granted_since (now - Minute) u
                           (log ++ take i (zip calls oks)))) < maxPerMinute r).
Proof.
  induction calls as [|[now0 u0] rest IH]; intros B r log Hinv Hsorted.
  - cbn. split; [done|]. by intros i now u ?.
  - cbn [Allow_calls].
    assert (HB : B <= now0 - Minute).
    { cbn in Hsorted. apply StronglySorted_inv in Hsorted as [_ Hall].
      apply Forall_cons in Hall as [Hle _]. lia. }
    destruct (RateLimiter_Allow_step B r log now0 u0 Hinv HB) as (Hmax & Hinv' & Hiff).
    destruct (RateLimiter_Allow r now0 u0) as [ok r1]. cbn [fst snd] in *.
    specialize (IH (now0 - Minute) r1 (log ++ [(now0, u0, ok)]) Hinv').
    destruct (Allow_calls r1 rest) as [oks r2].
    destruct IH as [Hlen IH].
    { cbn in Hsorted. apply StronglySorted_inv in Hsorted as [Hs _].
      replace (now0 - Minute + Minute) with now0 by lia. done. }
    split; [cbn; by rewrite Hlen|].
    intros [|i] now u Hi.
    + injection Hi as -> ->. cbn. rewrite app_nil_r. rewrite <- Hiff.
      split; [by intros [= ->]|by intros ->].
    + cbn in Hi. cbn [lookup list_lookup zip zip_with take]. rewrite (IH i now u Hi).
      rewrite Hmax. by rewrite <- app_assoc.
Qed.

(** X18. Over calls of [Allow] whose clock readings do not decrease,
    on a new limiter: a call is let through if and only if fewer than
    [maxPerMinute] earlier calls of the same user were let through less
    than a minute before it. Refused calls do not count, and users do
    not affect one another. *)
Theorem RateLimiter_sliding_window (maxPerMinute : Z) (calls : list (Time * Z)) :
  StronglySorted Z.le calls.*1 →
  let verdicts := (Allow_calls (NewRateLimiter maxPerMinute) calls).1 in
  length verdicts = length calls ∧
  ∀ i now userID, calls !! i = Some (now, userID) →
    (verdicts !! i = Some true
     ↔ Z.of_nat (length (granted_since (now - Minute) userID
                           (take i (zip calls verdicts)))) < maxPerMinute).
Proof.
  intros Hsorted. cbn zeta.
  assert (Hinv : ∀ B, window_ok B (NewRateLimiter maxPerMinute) []).
  { intros B u c _. unfold stored, NewRateLimiter. cbn. by rewrite lookup_empty. }
  destruct calls as [|[now0 u0] rest].
  - cbn. split; [done|]. by intros i now u ?.
  - pose proof (Allow_calls_window ((now0, u0) :: rest) (now0 - Minute)
                  (NewRateLimiter maxPerMinute) [] (Hinv _)) as Hw.
    destruct (Allow_calls (NewRateLimiter maxPerMinute) ((now0, u0) :: rest))
      as [oks r']. cbn [fst]. apply Hw.
    replace (now0 - Minute + Minute) with now0 by lia.
    constructor; [done|]. constructor; [done|].
    by apply StronglySorted_inv in Hsorted as [_ ?].
Qed.

Lemma allowed_init (ids : list Z) : ∀ (m : gmap Z bool) uid,
  foldl (λ m uid, <[uid := true]> m) m ids !! uid
  = if decide (uid ∈ ids) then Some true else m !! uid.
Proof.
  induction ids as [|id rest IH]; intros m uid; cbn [foldl].
  - rewrite decide_False; [done|]. apply not_elem_of_nil.
  - rewrite IH. destruct (decide (uid ∈ rest)) as [Hin|Hnot].
    + rewrite decide_True; [done|]. by right.
    + destruct (decide (id = uid)) as [->|Hne].
      * rewrite lookup_insert_eq. rewrite decide_True; [done|]. by left.
      * rewrite lookup_insert_ne by done. rewrite decide_False; [done|].
        intros [?|?]%elem_of_cons; done.
Qed.

Lemma acl_calls_lookup (cs : list AclCall) : ∀ b uid,
  Bot_config (foldl acl_call b cs) = Bot_config b ∧
  allowedUsers (foldl acl_call b cs) !! uid
  = match last (filter (λ c, AclCall_user c = uid) cs) with
    | Some (AclAdd _) => Some true
    | Some (AclRemove _) => None
    | None => allowedUsers b !! uid
    end.
Proof.
  induction cs as [|c rest IH] using rev_ind; intros b uid; [done|].
  rewrite foldl_app, filter_app. cbn [foldl]. rewrite filter_cons, filter_nil.
  destruct (IH b uid) as [Hcfg Hlook].
  destruct c as [u|u]; cbn [acl_call AclCall_user AddAllowedUser RemoveAllowedUser
                            Bot_config allowedUsers].
  - split; [done|]. destruct (decide (u = uid)) as [->|Hne].
    + by rewrite lookup_insert_eq, last_snoc.
    + rewrite lookup_insert_ne by done. by rewrite app_nil_r.
  - split; [done|]. destruct (decide (u = uid)) as [->|Hne].
    + by rewrite lookup_delete_eq, last_snoc.
    + rewrite lookup_delete_ne by done. by rewrite app_nil_r.
Qed.

(** X19. A bot made from a configuration with a token, after any
    sequence of [AddAllowedUser] and [RemoveAllowedUser]: with an empty
    configured list every user passes the access control, whatever was
    added since; with a non-empty one a user passes exactly when the
    last change for the user is an addition or, without any change, when
    the user is in the configured list (removing every user leaves no
    one allowed). Who passes is not logged. *)
Theorem accessControl_follows_allow_list (config : BotConfig) (cs : list AclCall)
    (userID : Z) :
  Token config ≠ "" →
  ∃ b0,
    NewBot config None = (Some b0, None) ∧
    let b := foldl acl_call b0 cs in
    ((accessControlMiddleware b userID).2 = Next
     ↔ AllowedUserIDs config = [] ∨
       match last (filter (λ c, AclCall_user c = userID) cs) with
       | Some (AclAdd _) => True
       | Some (AclRemove _) => False
       | None => userID ∈ AllowedUserIDs config
       end) ∧
    ((accessControlMiddleware b userID).2 = Next →
       (accessControlMiddleware b userID).1 = []).
Proof.
  intros Htoken. unfold NewBot. rewrite decide_False by done.
  eexists. split; [done|]. cbn zeta.
  match goal with |- context [foldl acl_call ?b0 cs] =>
    destruct (acl_calls_lookup cs b0 userID) as [Hcfg Hlook] end.
  unfold accessControlMiddleware. rewrite Hcfg, Hlook. cbn [Bot_config allowedUsers].
  rewrite allowed_init, lookup_empty.
  destruct (decide (length (AllowedUserIDs config) = 0%nat)) as [Hnil|Hsome].
  - apply length_zero_iff_nil in Hnil. cbn. split; [|done]. split; [by left|done].
  - assert (Hne : AllowedUserIDs config ≠ []).
    { intros Heq. by rewrite Heq in Hsome. }
    destruct (last (filter _ cs)) as [[u|u]|]; cbn.
    + split; [|done]. split; [by right|done].
    + split; [|done]. split; [done|]. by intros [?|[]].
    + destruct (decide (userID ∈ AllowedUserIDs config)); cbn.
      * split; [|done]. split; [by right|done].
      * split; [|done]. split; [done|]. by intros [?|?].
Qed.
End BotExtras.

(** ** telegram/bot.go: the handlers *)

Section SendExtras.
Context `{GoRuntime} `{Environment}.

Lemma append_nil_r (s : string) : s +:+ "" = s.
Proof. induction s as [|c s IH]; [done|]. by rewrite append_cons, IH. Qed.

Lemma str_split_at n s c :
  String.get n s = Some c → s = str_take n s +:+ String c (str_drop (S n) s).
Proof.
  revert s. induction n as [|n IH]; intros [|a s] Hget; try done.
  - cbn in Hget. by injection Hget as ->.
  - cbn in Hget. cbn [str_take str_drop]. rewrite append_cons. f_equal. by apply IH.
Qed.

Lemma next_chunk_spec text :
  (0 < String.length text)%nat →
  fits ((next_chunk text).1, true) ∧
  (text = (next_chunk text).1 +:+ (next_chunk text).2 ∨
   text = (next_chunk text).1 +:+ newline +:+ (next_chunk text).2) ∧
  (String.length (next_chunk text).2 < String.length text)%nat.
Proof.
  intros Hpos. unfold next_chunk, fits, sendLongMessage_maxLen.
  destruct (decide (Z.of_nat (String.length text) > 4000)) as [Hlong|Hshort].
  - unfold strings_LastIndex.
    destruct (last_index_from_char "010"%char (str_to text 4000) 0 ltac:(lia))
      as [[Hi _]|(Hk & Hget & _)]; fold newline in *.
    + rewrite Hi. rewrite decide_False by lia. cbn [fst snd].
      unfold str_to, str_from. rewrite length_str_take, length_str_drop.
      split; [lia|]. split; [left; by rewrite str_take_drop|lia].
    + set (idx := last_index_from newline (str_to text 4000) 0) in *.
      rewrite Z.sub_0_r in Hget.
      destruct (decide (idx > 0)) as [Hidx|Hidx]; cbn [fst snd].
      * pose proof (get_Some_length _ _ _ Hget) as Hlt.
        unfold str_to in Hlt, Hget. rewrite length_str_take in Hlt.
        rewrite get_take in Hget by lia.
        unfold str_to, str_from. rewrite length_str_take, length_str_drop.
        split; [lia|]. split; [|lia]. right.
        replace (Z.to_nat (idx + 1)) with (S (Z.to_nat idx)) by lia.
        unfold newline. rewrite append_cons. by apply str_split_at.
      * unfold str_to, str_from. rewrite length_str_take, length_str_drop.
        split; [lia|]. split; [left; by rewrite str_take_drop|lia].
  - cbn [fst snd]. split; [lia|]. split; [left; by rewrite append_nil_r|cbn; lia].
Qed.

Lemma sendLongMessage_loop_spec c fuel : ∀ text w sent,
  (String.length text ≤ fuel)%nat →
  ∃ w' more err,
    sendLongMessage_loop fuel c text w sent = Some (w', sent ++ more, err) ∧
    Forall fits more ∧
    (err = None → rebuilt (chunks_of more) text) ∧
    (∀ i chunk, more !! i = Some (chunk, false) →
       ∃ j, i = S j ∧ more !! j = Some (chunk, true)).
Proof.
  induction fuel as [|fuel IH]; intros text w sent Hfuel.
  - destruct text; [|cbn in Hfuel; lia]. cbn. exists w, [], None.
    rewrite app_nil_r. split_and!; try done. intros _. constructor.
  - cbn [sendLongMessage_loop].
    destruct (decide (0 < String.length text)%nat) as [Hpos|Hzero].
    2:{ destruct text; [|cbn in Hzero; lia]. exists w, [], None.
        rewrite app_nil_r. split_and!; try done. intros _. constructor. }
    destruct (next_chunk_spec text Hpos) as (Hfit & Hsplit & Hless).
    destruct (next_chunk text) as [chunk text']. cbn [fst snd] in *.
    assert (Hrebuilt : ∀ cs, rebuilt cs text' → rebuilt (chunk :: cs) text).
    { intros cs Hcs. destruct Hsplit as [->| ->]; by constructor. }
    destruct (tele_Send c chunk true w) as [w1 [e1|]].
    + destruct (tele_Send c chunk false w1) as [w2 [e2|]].
      * exists w2, [(chunk, true); (chunk, false)], (Some e2).
        split; [done|]. split_and!; try done.
        -- constructor; [exact Hfit|]. constructor; [exact Hfit|]. constructor.
        -- intros [|[|i]] ch Hi; try done. injection Hi as <-. by exists 0%nat.
      * destruct (IH text' w2 (sent ++ [(chunk, true); (chunk, false)]) ltac:(lia))
          as (w' & more & err & Hrun & Hfits & Hre & Hretry).
        exists w', ((chunk, true) :: (chunk, false) :: more), err.
        rewrite Hrun, <- app_assoc. split; [done|]. split_and!.
        -- constructor; [exact Hfit|]. by constructor; [exact Hfit|].
        -- intros Herr. unfold chunks_of. rewrite !filter_cons. cbn.
           apply Hrebuilt. by apply Hre.
        -- intros [|[|i]] ch Hi; try done.
           ++ injection Hi as <-. by exists 0%nat.
           ++ cbn in Hi. destruct (Hretry _ _ Hi) as (j & -> & Hj).
              by exists (S (S j)).
    + destruct (IH text' w1 (sent ++ [(chunk, true)]) ltac:(lia))
        as (w' & more & err & Hrun & Hfits & Hre & Hretry).
      exists w', ((chunk, true) :: more), err.
      rewrite Hrun, <- app_assoc. split; [done|]. split_and!.
      * by constructor.
      * intros Herr. unfold chunks_of. rewrite filter_cons. cbn.
        apply Hrebuilt. by apply Hre.
      * intros [|i] ch Hi; try done. cbn in Hi.
        destruct (Hretry _ _ Hi) as (j & -> & Hj). by exists (S j).
Qed.

(** The iterations allowed always suffice. *)
Lemma sendLongMessage_returns c text w :
  ∃ w' sent err, sendLongMessage c text w = Some (w', sent, err).
Proof.
  unfold sendLongMessage. destruct (decide _) as [Hshort|Hlong].
  - destruct (tele_Send c text true w) as [w1 err]. by eexists _, _, _.
  - destruct (sendLongMessage_loop_spec c (String.length text) text w [] ltac:(lia))
      as (w' & more & err & Hrun & _).
    by exists w', more, err.
Qed.

(** X20. [sendLongMessage] always returns. A text of at most 4000
    bytes is sent once, with markdown, and the error of that call is the
    result. A longer text is sent in chunks of 1 to 4000 bytes each;
    when no error is returned the text is the chunks in order, each
    followed by one line feed or by nothing; a call without markdown is
    the retry of the same chunk right after its call with markdown. *)
Theorem sendLongMessage_chunks (c : TeleContext) (text : string) (w : World) :
  ∃ w' sent err,
    sendLongMessage c text w = Some (w', sent, err) ∧
    (Z.of_nat (String.length text) <= sendLongMessage_maxLen →
       sent = [(text, true)] ∧ (w', err) = tele_Send c text true w) ∧
    (Z.of_nat (String.length text) > sendLongMessage_maxLen →
       Forall fits sent ∧
       (err = None → rebuilt (chunks_of sent) text) ∧
       (∀ i chunk, sent !! i = Some (chunk, false) →
          ∃ j, i = S j ∧ sent !! j = Some (chunk, true))).
Proof.
  unfold sendLongMessage.
  destruct (decide (Z.of_nat (String.length text) <= sendLongMessage_maxLen))
    as [Hshort|Hlong].
  - destruct (tele_Send c text true w) as [w1 err]. exists w1, [(text, true)], err.
    split; [done|]. split; [done|]. lia.
  - destruct (sendLongMessage_loop_spec c (String.length text) text w [] ltac:(lia))
      as (w' & more & err & Hrun & Hfits & Hre & Hretry).
    exists w', more, err. split; [done|]. split; [lia|]. done.
Qed.

Lemma truncate_Some (s : string) (maxLen : Z) :
  0 <= maxLen → is_Some (truncate s maxLen).
Proof.
  intros Hnn. unfold truncate. destruct (decide _); [eauto|].
  rewrite decide_True by done. eauto.
Qed.

Lemma getSessionID_inj (a b : Z) : getSessionID a = getSessionID b → a = b.
Proof.
  unfold getSessionID, fmt_d. intros Heq.
  apply (inj (String.append "tg_")) in Heq. by apply (inj pretty) in Heq.
Qed.

(** Well-formedness, histories and capacities are read off the agent
    and the heap. *)
Lemma state_wf_same st st' :
  agent st' = agent st → mem st' = mem st → state_wf st → state_wf st'.
Proof. unfold state_wf. by intros -> ->. Qed.

Lemma history_same st st' p :
  agent st' = agent st → mem st' = mem st → history st' p = history st p.
Proof. unfold history. by intros -> ->. Qed.

Lemma capacity_same st st' p :
  agent st' = agent st → capacity st' p = capacity st p.
Proof. unfold capacity. by intros ->. Qed.

Lemma Agent_GetSession_others sessionID st :
  state_wf st →
  ∃ st',
    Agent_GetSession sessionID st = Some (sessionID, st') ∧
    ∀ p, p ≠ sessionID →
      history st' p = history st p ∧ capacity st' p = capacity st p.
Proof.
  intros [Hcfg Hwf]. unfold Agent_GetSession. m_unfold. st_simpl.
  destruct (sessions (agent st) !! sessionID) as [s|] eqn:Hs.
  - eexists. split; [done|]. intros p Hp. unfold history, capacity. by st_simpl.
  - st_simpl. destruct (time_Now (world st)) as [w1 t1]. st_simpl.
    destruct (time_Now w1) as [w2 t2]. st_simpl.
    destruct (NewSession (mem st) sessionID (MaxHistoryMessages (config (agent st))) t1 t2)
      as [h1 s] eqn:Hnew.
    st_simpl. eexists. split; [done|]. intros p Hp.
    unfold history, capacity. st_simpl. rewrite lookup_insert_ne by done.
    split; [|done].
    destruct (sessions (agent st) !! p) as [sp|] eqn:Hsp; [|done].
    destruct (Hwf _ _ Hsp) as [Hp_wf _].
    unfold NewSession in Hnew. destruct (go_make (mem st) 0) as [h1' ms] eqn:Hmk.
    injection Hnew as <- <-.
    destruct (go_make_spec _ _ _ _ Hmk) as (_ & _ & _ & _ & _ & Hframe).
    apply Hframe. by apply slice_wf_dom.
Qed.

Lemma Clear_spec p st :
  state_wf st → is_Some (sessions (agent st) !! p) →
  ∃ st',
    Clear p st = Some (tt, st') ∧
    state_wf st' ∧ is_Some (sessions (agent st') !! p) ∧
    history st' p = [] ∧ capacity st' p = capacity st p ∧
    same_setup st st' ∧
    ∀ q, q ≠ p → history st' q = history st q ∧ capacity st' q = capacity st q.
Proof.
  intros [Hcfg Hwf] [s Hs]. unfold Clear, deref, store_session. m_unfold. st_simpl.
  rewrite Hs. st_simpl.
  destruct (go_make (mem st) 0) as [h1 ms] eqn:Hmk.
  destruct (go_make_spec _ _ _ _ Hmk) as (Hv & Hl & Hfresh & Hmwf & Hle & Hframe).
  st_simpl. destruct (time_Now (world st)) as [w1 t1]. st_simpl.
  eexists. split; [done|]. unfold history, capacity. st_simpl.
  rewrite lookup_insert_eq, Hs. cbn.
  destruct (Hwf _ _ Hs) as [Hs_wf Hs_max].
  split_and!; try done.
  - split; [done|]. st_simpl. intros q sq Hq.
    destruct (decide (p = q)) as [<-|Hne].
    + rewrite lookup_insert_eq in Hq. by injection Hq as <-.
    + rewrite lookup_insert_ne in Hq by done. destruct (Hwf _ _ Hq) as [Hq_wf Hq_max].
      split; [|done]. by eapply slice_wf_heap_le.
  - intros q Hq. rewrite lookup_insert_ne by done. split; [|done].
    destruct (sessions (agent st) !! q) as [sq|] eqn:Hsq; [|done].
    destruct (Hwf _ _ Hsq) as [Hq_wf _]. apply Hframe. by apply slice_wf_dom.
Qed.

(** X21. [handleClear] empties the history of the chat's session
    (creating the session when it is missing), keeps its capacity, and
    leaves the histories of all other chats as they are: chats have
    sessions of their own, as [getSessionID] is injective. *)
Theorem handleClear_forgets_one_chat (chatID : Z) (st : State) :
  state_wf st →
  ∃ reply st',
    handleClear chatID st = Some (reply, st') ∧ state_wf st' ∧
    history st' (getSessionID chatID) = [] ∧
    capacity st' (getSessionID chatID) = capacity st (getSessionID chatID) ∧
    ∀ other, other ≠ chatID →
      history st' (getSessionID other) = history st (getSessionID other).
Proof.
  intros Hwf. unfold handleClear.
  destruct (Agent_GetSession_spec (getSessionID chatID) st Hwf)
    as (st1 & Hget & Hwf1 & Hex1 & _ & Hcap1 & _).
  destruct (Agent_GetSession_others (getSessionID chatID) st Hwf)
    as (st1' & Hget' & Hothers).
  rewrite Hget in Hget'. injection Hget' as <-.
  rewrite (bind_eq _ _ _ _ _ Hget).
  destruct (Clear_spec (getSessionID chatID) st1 Hwf1 Hex1)
    as (st2 & Hclear & Hwf2 & _ & Hhist & Hcap & _ & Hkeep).
  rewrite (bind_eq _ _ _ _ _ Hclear). eexists _, st2. split; [done|].
  split; [done|]. split; [done|]. split; [congruence|].
  intros other Hne.
  assert (Hsid : getSessionID other ≠ getSessionID chatID).
  { by intros ?%getSessionID_inj. }
  destruct (Hkeep _ Hsid) as [-> _]. by destruct (Hothers _ Hsid) as [-> _].
Qed.

Lemma SetUserInfo_spec p userID userName platform st :
  state_wf st → is_Some (sessions (agent st) !! p) →
  ∃ st',
    SetUserInfo p userID userName platform st = Some (tt, st') ∧
    state_wf st' ∧
    (∀ q, history st' q = history st q ∧ capacity st' q = capacity st q) ∧
    same_setup st st' ∧
    ∃ s, sessions (agent st') !! p = Some s ∧
         (UserID s, UserName s, Platform s) = (userID, userName, platform).
Proof.
  intros [Hcfg Hwf] [s Hs]. unfold SetUserInfo, deref, store_session. m_unfold. st_simpl.
  rewrite Hs. st_simpl. eexists. split; [done|]. unfold history, capacity. st_simpl.
  split_and!; try done.
  - split; [done|]. st_simpl. intros q sq Hq.
    destruct (decide (p = q)) as [<-|Hne].
    + rewrite lookup_insert_eq in Hq. injection Hq as <-. exact (Hwf _ _ Hs).
    + rewrite lookup_insert_ne in Hq by done. exact (Hwf _ _ Hq).
  - intros q. destruct (decide (p = q)) as [<-|Hne].
    + by rewrite lookup_insert_eq, Hs.
    + by rewrite lookup_insert_ne.
  - rewrite lookup_insert_eq. by eexists.
Qed.

(** X22. From a state whose sessions are well formed, [handleText]
    always returns and leaves them well formed. A text that is empty
    after trimming changes nothing. Otherwise the session of the chat
    gets the sender as its user and the turn runs on the trimmed text.
    When the turn returns a response, the history has gained the user
    message and then the assistant message with the response's text,
    cut to the capacity, that text is what [sendLongMessage] sends, and
    the handler's error is the error of that sending. When the turn
    fails, the history has gained the user message only, the apology is
    sent without markdown, and the handler's error is the error of that
    [Send]. *)
Theorem handleText_always_answers (c : TeleContext)
    (withTimeout : Duration → GoContext) (st : State) :
  state_wf st →
  ∃ r st',
    handleText c withTimeout st = Some (r, st') ∧ state_wf st' ∧
    let text := strings_TrimSpace (tele_Text c) in
    let sessionID := getSessionID (tele_ChatID c) in
    (text = "" → r = None ∧ st' = st) ∧
    (text ≠ "" →
       ∃ st1 out st2 t,
         handleText_before c text st = Some (tt, st1) ∧
         (∃ s, sessions (agent st1) !! sessionID = Some s ∧
               (UserID s, UserName s, Platform s)
               = (fmt_d (tele_SenderID c), tele_Username c, "telegram")) ∧
         Agent_Chat (withTimeout (120 * Second)) sessionID text st1 = Some (out, st2) ∧
         let cap := Z.to_nat (capacity st sessionID) in
         let hist1 :=
           lastn cap (history st sessionID ++ [mkMessage "user" text t "" None]) in
         match out with
         | (Some resp, None) =>
             (∃ t', history st' sessionID
                    = lastn cap (hist1 ++ [mkMessage "assistant" (Text resp) t' "" None])) ∧
             ∃ sends,
               sendLongMessage c (Text resp) (world st2) = Some (world st', sends, r)
         | (None, Some err) =>
             history st' sessionID = hist1 ∧
             tele_Send c handleText_apology false (world st2) = (world st', r)
         | _ => False
         end).
Proof.
  intros Hwf. unfold handleText, handleText_before. cbn zeta.
  set (text := strings_TrimSpace (tele_Text c)).
  set (sid := getSessionID (tele_ChatID c)).
  destruct (decide (text = "")) as [Hempty|Htext].
  { exists None, st. by split_and!. }
  set (s1 := set_world (tele_Notify c (world st)) st).
  rewrite !(bind_eq _ _ st tt s1) by done.
  assert (Hwf1 : state_wf s1) by by apply (state_wf_same st).
  destruct (Agent_GetSession_spec sid s1 Hwf1)
    as (s2 & Hget & Hwf2 & Hex2 & Hh2 & Hc2 & _).
  rewrite !(bind_eq _ _ _ _ _ Hget).
  destruct (SetUserInfo_spec sid (fmt_d (tele_SenderID c)) (tele_Username c) "telegram"
              s2 Hwf2 Hex2) as (s3 & Hset & Hwf3 & Hsame3 & _ & Huser).
  rewrite !(bind_eq _ _ _ _ _ Hset).
  match goal with |- context [emit ?e ≫= _] =>
    rewrite (bind_eq _ _ _ _ _ (emit_eq e s3));
    set (s4 := set_trace (trace s3 ++ [e]) s3) end.
  assert (Hwf4 : state_wf s4) by by apply (state_wf_same s3).
  destruct (Chat_with_spec BaseAgent buildSystemPromptWithTools buildConversationPrompt
              (withTimeout (120 * Second)) sid text s4 Hwf4
              (runs_buildSystemPromptWithTools _) (runs_buildConversationPrompt sid))
    as (r & s5 & t & Hchat & Hwf5 & _ & Hr).
  rewrite <- Agent_Chat_shape in Hchat. rewrite (bind_eq _ _ _ _ _ Hchat).
  assert (Hh4 : history s4 sid = history st sid).
  { rewrite (history_same s3 s4 sid) by done. destruct (Hsame3 sid) as [-> _].
    rewrite Hh2. by apply history_same. }
  assert (Hc4 : capacity s4 sid = capacity st sid).
  { rewrite (capacity_same s3 s4 sid) by done. destruct (Hsame3 sid) as [_ ->].
    rewrite Hc2. by apply capacity_same. }
  cbn zeta in Hr. rewrite Hh4, Hc4 in Hr.
  destruct r as [[resp|] [err|]]; try done.
  - destruct Hr as (_ & t' & Hhist).
    destruct (truncate_Some (Text resp) 100 ltac:(lia)) as [short Htr].
    rewrite (bind_eq _ _ s5 short s5) by by rewrite Htr.
    match goal with |- context [emit ?e ≫= _] =>
      rewrite (bind_eq _ _ _ _ _ (emit_eq e s5));
      set (s6 := set_trace (trace s5 ++ [e]) s5) end.
    rewrite (bind_eq _ _ s6 (world s6) s6) by done.
    destruct (sendLongMessage_returns c (Text resp) (world s6))
      as (w' & sent & serr & Hsend).
    rewrite Hsend.
    exists serr, (set_world w' s6). split; [done|].
    split; [by apply (state_wf_same s5)|]. split; [done|]. intros _.
    exists s4, (Some resp, None), s5, t. split; [done|]. split; [exact Huser|].
    split; [exact Hchat|]. split.
    + exists t'. rewrite (history_same s5 _ sid) by done. done.
    + exists sent. exact Hsend.
  - destruct Hr as [Hhist _].
    match goal with |- context [emit ?e ≫= _] =>
      rewrite (bind_eq _ _ _ _ _ (emit_eq e s5));
      set (s6 := set_trace (trace s5 ++ [e]) s5) end.
    unfold call_world. fold handleText_apology.
    destruct (tele_Send c handleText_apology false (world s6)) as [w' serr] eqn:Hsend.
    exists serr, (set_world w' s6). split; [done|].
    split; [by apply (state_wf_same s5)|]. split; [done|]. intros _.
    exists s4, (None, Some err), s5, t. split; [done|]. split; [exact Huser|].
    split; [exact Hchat|]. split; [|exact Hsend].
    rewrite (history_same s5 _ sid) by done. done.
Qed.
End SendExtras.

(** ** The statements at concrete inputs *)

Section Examples.
#[local] Existing Instance example_env.
#[local] Existing Instance example_runtime.

(** C1, the failing input. With [MaxToolCalls = 1], a registered tool
    [t] and a client whose response asks for [t] twice, one turn of
    [Agent.Chat] runs the handler twice: the counter is compared with
    the maximum only at the head of an iteration, after the whole batch
    of the iteration before. *)
Theorem Chat_exceeds_MaxToolCalls :
  match Agent_Chat live_ctx "s" "go" (example_state greedy_client one_call_config [tool_t]) with
  | Some ((Some resp, None), st') =>
      MaxToolCalls (config (agent st')) = 1 ∧
      tool_execs (trace st') = [("t", "{}"); ("t", "{}")] ∧
      length (ai_calls (trace st')) = 1%nat ∧
      Text resp = ""
  | _ => False
  end.
Proof. vm_compute. by split_and!. Qed.

Lemma Session_history_last_M_witness :
  ∃ h1 s1 h2 r,
    Session_AddMessages (NewSession ∅ "s" 2 0 0).1 (NewSession ∅ "s" 2 0 0).2
                        three_messages = Some (h1, s1) ∧
    Session_GetMessages h1 s1 = (h2, r) ∧
    slice_view h2 r = lastn 2 (three_messages.*1).
Proof.
  destruct (Session_history_last_M ∅ "s" 2 0 0 three_messages
              (NewSession ∅ "s" 2 0 0).1 (NewSession ∅ "s" 2 0 0).2
              ltac:(lia) (surjective_pairing _))
    as (h1 & s1 & h2 & r & Hadd & Hget & Hlen & Hview & _).
  exists h1, s1, h2, r. split_and!; [exact Hadd|exact Hget|exact Hview].
Defined.

(** C6, the counterexample. The response [{}] holds a brace block that
    decodes (to no tool calls), but not the text tool_calls: the code
    does not look for the block and keeps the whole response as the
    text, where the specification's wording cuts the block out and is
    left with no text. *)
Lemma parseResponse_differs_from_wording :
  (parseResponse "{}").1 ≠ extract_as_worded "{}".
Proof. vm_compute. intros [=]. Qed.

Lemma parseResponse_brace_block_witness :
  parseResponse "a plain answer" = ([], "a plain answer", None) ∧
  parseResponse ("ok " +:+ two_calls_block)
  = ([call_t; call_t], "ok", None).
Proof.
  split.
  - apply (proj1 (proj2 (parseResponse_brace_block "a plain answer"))).
    left. reflexivity.
  - destruct (proj1 (parseResponse_brace_block ("ok " +:+ two_calls_block)))
      as (_ & _ & _ & _ & _ & Hparse).
    + reflexivity.
    + vm_compute. discriminate.
    + vm_compute. reflexivity.
    + rewrite Hparse. reflexivity.
Defined.

(** C8, the counterexample. A handler may return (nil, nil); its
    [ToolResult] carries neither a result nor an error. *)
Lemma ToolResult_neither_counterexample :
  ∃ st',
    executeToolCalls live_ctx [call_noop]
      (example_state greedy_client DefaultAgentConfig [tool_noop])
    = Some ([mkToolResult "noop" None ""], st') ∧
    ¬ exactly_one (mkToolResult "noop" None "").
Proof.
  eexists. split; [vm_compute; reflexivity|].
  intros [[Hr _]|[He _]]; [by apply Hr|by apply He].
Qed.

Lemma ToolResult_never_both_witness :
  ∃ results st',
    executeToolCalls live_ctx [call_t; call_noop]
      (example_state greedy_client DefaultAgentConfig [tool_t]) = Some (results, st') ∧
    Forall (λ r, ToolResult_Error r ≠ "" → ToolResult_Result r = None) results ∧
    Forall exactly_one results.
Proof.
  eexists _, _. split; [vm_compute; reflexivity|].
  match goal with
  | |- Forall _ ?rs ∧ _ =>
      assert (Hrun : executeToolCalls live_ctx [call_t; call_noop]
                (example_state greedy_client DefaultAgentConfig [tool_t])
              = Some (rs, _)) by (vm_compute; reflexivity)
  end.
  destruct (ToolResult_never_both _ _ _ _ _ Hrun) as [Hnb Hex].
  split; [exact Hnb|]. apply Hex.
  intros name tool args w Hts. cbn in Hts.
  apply lookup_insert_Some in Hts as [[_ <-]|[_ Hts]]; [done|].
  by rewrite lookup_empty in Hts.
Defined.

Lemma executeToolCalls_in_request_order_witness :
  ∃ results st',
    executeToolCalls live_ctx [call_noop; call_t]
      (example_state greedy_client DefaultAgentConfig [tool_t]) = Some (results, st') ∧
    results !! 0%nat = Some (mkToolResult "noop" None "unknown tool: noop") ∧
    results !! 1%nat = Some (mkToolResult "t" (Some (VString "done")) "").
Proof.
  destruct (executeToolCalls_in_request_order live_ctx [call_noop; call_t]
              (example_state greedy_client DefaultAgentConfig [tool_t]))
    as (results & st' & evs & Hrun & _ & _ & _ & _ & Hat).
  exists results, st'. split; [exact Hrun|]. split.
  - by rewrite (Hat 0%nat call_noop eq_refl).
  - by rewrite (Hat 1%nat call_t eq_refl).
Defined.

Lemma locks_released_and_registry_lock_policy_witness :
  ∃ results st',
    executeToolCalls live_ctx [call_start] trading_state = Some (results, st') ∧
    trace st' !! 8%nat = Some (EHandler "start_trader" (Spawn "trader.Run")) ∧
    held_at (trace st') 8 = Some [toolsLock].
Proof.
  pose proof (executeToolCalls_eq live_ctx [call_start] trading_state) as Hrun.
  destruct locks_released_and_registry_lock_policy as (_ & _ & _ & _ & _ & Hbatch).
  destruct (Hbatch live_ctx [call_start] _ _ _ _ Hrun eq_refl) as [Hev Hheld].
  eexists _, _. split; [exact Hrun|].
  destruct (Hheld 7%nat (EHandler "start_trader" (Spawn "trader.Run")))
    as [Hlock _]; [vm_compute; reflexivity|].
  split; [vm_compute; reflexivity|exact Hlock].
Defined.

(** C9, the counterexample. [executeToolCalls] runs the handler of a
    registered tool between taking and releasing the registry's read
    lock: with [get_balance], the tool execution and the two calls its
    handler makes, on the trader manager and on the trader, all happen
    with the lock held. *)
Lemma executeToolCalls_holds_registry_lock :
  ∃ results st' evs,
    executeToolCalls live_ctx [call_balance] trading_state = Some (results, st') ∧
    new_events trading_state st' evs ∧
    evs = [ERLock toolsLock;
           ELog LInfo "🔧 Executing tool: get_balance";
           EToolExec "get_balance" (trader_args "tr1");
           EHandler "get_balance" (Call "traderManager.GetTrader");
           EHandler "get_balance" (Call "trader.GetAccountInfo");
           ELog LInfo "✅ Tool get_balance completed";
           ERUnlock toolsLock] ∧
    held_at evs 2 = Some [toolsLock] ∧ held_at evs 4 = Some [toolsLock] ∧
    is_external (EToolExec "get_balance" (trader_args "tr1")) = true ∧
    is_external (EHandler "get_balance" (Call "trader.GetAccountInfo")) = true ∧
    ¬ respects no_lock_policy [] evs.
Proof.
  pose proof (executeToolCalls_eq live_ctx [call_balance] trading_state) as Hrun.
  assert (Hbatch :
    (run_calls live_ctx (tools (agent trading_state)) [call_balance]
               (world trading_state)).2
    = [ELog LInfo "🔧 Executing tool: get_balance";
       EToolExec "get_balance" (trader_args "tr1");
       EHandler "get_balance" (Call "traderManager.GetTrader");
       EHandler "get_balance" (Call "trader.GetAccountInfo");
       ELog LInfo "✅ Tool get_balance completed"])
    by (vm_compute; reflexivity).
  rewrite Hbatch in Hrun.
  eexists _, _, _. split; [exact Hrun|].
  split; [unfold new_events, after_tools; cbn [trace set_trace]; reflexivity|].
  split; [reflexivity|]. do 4 (split; [reflexivity|]).
  intros (_ & _ & Hexec & _). cbn in Hexec. by specialize (Hexec eq_refl).
Qed.

Lemma Chat_abort_keeps_user_message_witness :
  (∃ st' t,
     Agent_Chat cancelled_ctx "s" "hi" (example_state greedy_client DefaultAgentConfig [tool_t])
     = Some ((None, Some "context canceled"), st') ∧
     history st' "s" = [mkMessage "user" "hi" t "" None]) ∧
  (∃ st' t,
     SmartAgent_Chat live_ctx "s" "hi" (example_state failing_client DefaultAgentConfig [tool_t])
     = Some ((None, Some "AI call failed: connection refused"), st') ∧
     history st' "s" = [mkMessage "user" "hi" t "" None]).
Proof.
  assert (Hwf : ∀ client, state_wf (example_state client DefaultAgentConfig [tool_t])).
  { intros client. split; [vm_compute; discriminate|]. intros p s Hs. cbn in Hs.
    by rewrite lookup_empty in Hs. }
  split.
  - assert (∃ st', Agent_Chat cancelled_ctx "s" "hi"
                     (example_state greedy_client DefaultAgentConfig [tool_t])
                   = Some ((None, Some "context canceled"), st')) as [st' Hrun]
      by (eexists; vm_compute; reflexivity).
    destruct (Chat_abort_keeps_user_message false _ _ _ _ _ _ _ (Hwf _) Hrun)
      as (_ & _ & t & Hhist & _).
    exists st', t. split; [exact Hrun|]. rewrite Hhist. vm_compute. reflexivity.
  - assert (∃ st', SmartAgent_Chat live_ctx "s" "hi"
                     (example_state failing_client DefaultAgentConfig [tool_t])
                   = Some ((None, Some "AI call failed: connection refused"), st'))
      as [st' Hrun] by (eexists; vm_compute; reflexivity).
    destruct (Chat_abort_keeps_user_message true _ _ _ _ _ _ _ (Hwf _) Hrun)
      as (_ & _ & t & Hhist & _).
    exists st', t. split; [exact Hrun|]. rewrite Hhist. vm_compute. reflexivity.
Defined.


Lemma checkPositionAlerts_thresholds_witness :
  levels_of "liquidation_risk" (new_alerts empty_context risky_position) = ["danger"] ∧
  levels_of "large_loss" (new_alerts empty_context risky_position) = ["danger"].
Proof.
  destruct (checkPositionAlerts_thresholds empty_context risky_position)
    as (_ & _ & _ & Hliq & Hloss & _).
  split.
  - destruct (Hliq eq_refl eq_refl) as (Hdanger & _). by apply Hdanger.
  - by apply Hloss.
Defined.

(** C2, the counterexample. A position that is there, gone and there
    again over three ticks is announced twice, with the same type and
    message, to the one subscriber, within 93 seconds: the
    position-change alerts are sent without the filter. *)
Lemma position_alert_redelivered_within_window :
  ∃ st' alert,
    three_ticks watching_state = Some (tt, st') ∧
    Type_ alert = "new_position" ∧
    deliveries (trace st')
    = [(0%nat, alert);
       (0%nat, mkAlert "info" "position_closed"
                 "📍 仓位已平: BTCUSDT long (入场价: 100.00)");
       (0%nat, alert)] ∧
    ew_clock (world st') - ew_clock (world watching_state) < 5 * Minute.
Proof.
  eexists _, _. split; [vm_compute; reflexivity|].
  split; [|split]; [|vm_compute; reflexivity|vm_compute; reflexivity].
  reflexivity.
Qed.

Lemma sendAlertIfNew_window_witness :
  ∃ st' evs,
    sendAlertIfNew loss_alert alerted_state = Some (tt, st') ∧
    new_events alerted_state st' evs ∧ deliveries evs = [].
Proof.
  destruct (sendAlertIfNew_window loss_alert alerted_state) as (_ & Hsupp & _).
  destruct (Hsupp 0 (mkExampleWorld (61 * Second) 0) (60 * Second))
    as (st' & evs & Hrun & Hev & Hdel & _).
  - vm_compute. reflexivity.
  - reflexivity.
  - vm_compute. reflexivity.
  - exists st', evs. by split_and!.
Defined.

End Examples.

(** ** The further statements at concrete inputs *)

Section MoreExamples.
#[local] Existing Instance example_env.
#[local] Existing Instance example_runtime.

Lemma Session_GetRecentMessages_last_n_witness :
  ∃ h' r,
    Session_GetRecentMessages talked_session.1 talked_session.2 2 = Some (h', r) ∧
    slice_view h' r = lastn 2 (three_messages.*1).
Proof.
  assert (Hwf : slice_wf talked_session.1 (messages talked_session.2)).
  { eexists. split; [vm_compute; reflexivity|]. vm_compute. lia. }
  destruct (Session_GetRecentMessages_last_n talked_session.1 talked_session.2 2 Hwf)
    as [Hsome _].
  destruct (Hsome ltac:(lia)) as (h' & r & Hrun & Hview & _).
  exists h', r. split; [exact Hrun|]. rewrite Hview. vm_compute. reflexivity.
Defined.

Lemma Session_Clear_empties_witness :
  slice_view (Session_Clear talked_session.1 talked_session.2 9).1
             (messages (Session_Clear talked_session.1 talked_session.2 9).2) = [] ∧
  maxMessages (Session_Clear talked_session.1 talked_session.2 9).2 = 5.
Proof.
  destruct (Session_Clear_empties talked_session.1 talked_session.2 9 _ _
              (surjective_pairing _)) as (Hview & _ & Hcap & _).
  split; [exact Hview|]. rewrite Hcap. vm_compute. reflexivity.
Defined.

Lemma Session_Metadata_round_trip_witness :
  Session_GetMetadata (Session_SetMetadata talked_session.2 "lang" None) "lang"
  = (None, true) ∧
  Session_GetMetadata (Session_SetMetadata talked_session.2 "lang" None) "mode"
  = (None, false).
Proof.
  destruct (Session_Metadata_round_trip talked_session.2 "lang" "mode" None)
    as (Hsame & Hother & Hmissing & _).
  split; [exact Hsame|]. rewrite Hother by done. apply Hmissing.
  vm_compute. reflexivity.
Defined.

Lemma example_state_wf client cfg ts :
  0 <= MaxHistoryMessages cfg → state_wf (example_state client cfg ts).
Proof.
  intros Hcfg. split; [exact Hcfg|]. intros p s Hs. cbn in Hs.
  by rewrite lookup_empty in Hs.
Qed.

Lemma Chat_returns_response_or_error_witness :
  ∃ resp st',
    SmartAgent_Chat live_ctx "s" "go"
      (example_state greedy_client one_call_config [tool_t])
    = Some ((Some resp, None), st') ∧
    SessionID resp = "s" ∧ length (history st' "s") = 2%nat.
Proof.
  destruct (Chat_returns_response_or_error true live_ctx "s" "go"
              (example_state greedy_client one_call_config [tool_t]))
    as (r & st' & Hrun & _ & Hr).
  { apply example_state_wf. vm_compute. discriminate. }
  assert (Hshape : ∃ resp, r = (Some resp, None)).
  { assert (Hev : ∃ resp st'',
        SmartAgent_Chat live_ctx "s" "go"
          (example_state greedy_client one_call_config [tool_t])
        = Some ((Some resp, None), st'')) by (eexists _, _; vm_compute; reflexivity).
    destruct Hev as (resp & st'' & Hev). rewrite Hev in Hrun.
    injection Hrun as <- _. by exists resp. }
  destruct Hshape as [resp ->]. destruct Hr as (Hid & t & t' & Hhist).
  exists resp, st'. split; [exact Hrun|]. split; [exact Hid|].
  rewrite Hhist. vm_compute. reflexivity.
Defined.

Lemma Chat_bounds_AI_calls_witness :
  ∃ r st' evs,
    Agent_Chat live_ctx "s" "go" (example_state greedy_client one_call_config [tool_t])
    = Some (r, st') ∧
    new_events (example_state greedy_client one_call_config [tool_t]) st' evs ∧
    (length (ai_calls evs) ≤ 1)%nat.
Proof.
  assert (∃ r st',
            Agent_Chat live_ctx "s" "go"
              (example_state greedy_client one_call_config [tool_t]) = Some (r, st'))
    as (r & st' & Hrun) by (eexists _, _; vm_compute; reflexivity).
  destruct (Chat_bounds_AI_calls false _ _ _ _ _ _ Hrun) as (evs & Hev & Hbound & _).
  exists r, st', evs. split; [exact Hrun|]. split; [exact Hev|]. exact Hbound.
Defined.


Lemma Chat_negative_history_limit_panics_witness :
  Agent_Chat live_ctx "s" "go" (example_state greedy_client negative_config [tool_t])
  = None.
Proof.
  apply (Chat_negative_history_limit_panics false); [vm_compute; reflexivity|].
  vm_compute. reflexivity.
Defined.

Lemma Agent_GetSession_get_or_create_witness :
  ∃ st',
    Agent_GetSession "s" (example_state greedy_client DefaultAgentConfig [tool_t])
    = Some ("s", st') ∧
    history st' "s" = [] ∧ capacity st' "s" = 50.
Proof.
  destruct (Agent_GetSession_get_or_create "s"
              (example_state greedy_client DefaultAgentConfig [tool_t]))
    as (st' & Hrun & _ & Hnew & _).
  { apply example_state_wf. vm_compute. discriminate. }
  destruct (Hnew ltac:(vm_compute; reflexivity)) as (s & Hs & _ & Hcap & _ & Hhist).
  exists st'. split; [exact Hrun|]. split; [exact Hhist|].
  unfold capacity. rewrite Hs, lookup_insert_eq. rewrite Hcap. vm_compute. reflexivity.
Defined.

Lemma truncate_bounds_witness :
  truncate "hello world" 5 = Some "hello..." ∧ truncate "hello" 5 = Some "hello" ∧
  truncate "hello" (-1) = None.
Proof.
  destruct (truncate_bounds "hello world" 5) as (_ & Hlong & _).
  destruct (truncate_bounds "hello" 5) as (Hshort & _ & _).
  destruct (truncate_bounds "hello" (-1)) as (_ & _ & Hneg).
  split; [apply Hlong; cbn; lia|].
  split; [apply Hshort; cbn; lia|apply Hneg; lia].
Defined.

Lemma RateLimiter_sliding_window_witness :
  (Allow_calls (NewRateLimiter 2) [(0, 1); (1, 1); (2, 1); (2, 5)]).1 !! 2%nat
  ≠ Some true.
Proof.
  destruct (RateLimiter_sliding_window 2 [(0, 1); (1, 1); (2, 1); (2, 5)])
    as [_ Hiff].
  { cbn. repeat constructor; lia. }
  intros Hgranted. apply (Hiff 2%nat 2 1 eq_refl) in Hgranted.
  vm_compute in Hgranted. discriminate.
Defined.

Lemma accessControl_follows_allow_list_witness :
  ∃ b0,
    NewBot two_user_config None = (Some b0, None) ∧
    (accessControlMiddleware (foldl acl_call b0 [AclRemove 1; AclRemove 2]) 2).2 ≠ Next ∧
    (accessControlMiddleware (foldl acl_call b0 [AclRemove 1; AclAdd 9]) 9).2 = Next.
Proof.
  destruct (accessControl_follows_allow_list two_user_config [AclRemove 1; AclRemove 2] 2)
    as (b0 & Hnew & Hiff & _); [vm_compute; discriminate|].
  destruct (accessControl_follows_allow_list two_user_config [AclRemove 1; AclAdd 9] 9)
    as (b1 & Hnew1 & Hiff1 & _); [vm_compute; discriminate|].
  rewrite Hnew in Hnew1. injection Hnew1 as <-.
  exists b0. split; [exact Hnew|]. cbn zeta in *. split.
  - intros Hnext%Hiff. destruct Hnext as [Hnil|Hlast]; [discriminate Hnil|].
    vm_compute in Hlast. exact Hlast.
  - apply Hiff1. right. vm_compute. exact I.
Defined.

Lemma handleClear_forgets_one_chat_witness :
  ∃ reply st',
    handleClear 7 (example_state greedy_client DefaultAgentConfig [tool_t])
    = Some (reply, st') ∧
    history st' (getSessionID 7) = [].
Proof.
  destruct (handleClear_forgets_one_chat 7
              (example_state greedy_client DefaultAgentConfig [tool_t]))
    as (reply & st' & Hrun & _ & Hhist & _).
  { apply example_state_wf. vm_compute. discriminate. }
  exists reply, st'. split; [exact Hrun|exact Hhist].
Defined.

Lemma handleText_always_answers_witness :
  ∃ r st',
    handleText example_update no_deadline
      (example_state greedy_client one_call_config [tool_t]) = Some (r, st') ∧
    ∃ t, (history st' (getSessionID 7))
         !! 0%nat = Some (mkMessage "user" "hi" t "" None).
Proof.
  destruct (handleText_always_answers example_update no_deadline
              (example_state greedy_client one_call_config [tool_t]))
    as (r & st' & Hrun & _ & _ & Hsome).
  { apply example_state_wf. vm_compute. discriminate. }
  destruct (Hsome ltac:(vm_compute; discriminate))
    as (st1 & out & st2 & t & _ & _ & _ & Hout).
  exists r, st'. split; [exact Hrun|]. exists t. cbn zeta in Hout.
  change (tele_ChatID example_update) with 7 in Hout.
  destruct out as [[resp|] [err|]].
  - destruct Hout.
  - destruct Hout as [[t' ->] _]. vm_compute. reflexivity.
  - destruct Hout as [-> _]. vm_compute. reflexivity.
  - destruct Hout.
Defined.

Lemma sendLongMessage_chunks_witness :
  sendLongMessage example_update "hello" (mkExampleWorld 0 0)
  = Some (mkExampleWorld 0 0, [("hello", true)], None).
Proof.
  destruct (sendLongMessage_chunks example_update "hello" (mkExampleWorld 0 0))
    as (w' & sent & err & Hrun & Hshort & _).
  assert (Hlen : Z.of_nat (String.length "hello") <= sendLongMessage_maxLen).
  { vm_compute. discriminate. }
  destruct (Hshort Hlen) as [-> Hsend].
  rewrite Hrun. injection Hsend as -> ->. reflexivity.
Defined.

End MoreExamples.
